(** * DeleteFilesPlugin: glob-driven, two-phase file and folder deletion

    A shallow embedding of [apps/heft/src/plugins/DeleteFilesPlugin.ts]:
    the resolver [_getPathsToDeleteAsync], the deleter
    [_deleteFilesInnerAsync] with its inlined summary line, and the
    entry point [deleteFilesAsync].

    The plugin is asynchronous.  An asynchronous callback is split at its
    single [await] into the part that runs when the callback is entered and
    the part that runs when the awaited operation completes; the order in
    which in-flight operations complete is chosen by a schedule, and every
    theorem quantifies over all schedules. *)

From Stdlib Require Import ZArith Ascii String DecimalString.
From stdpp Require Import base gmap strings list fin_maps.

Local Open Scope string_scope.
Local Open Scope list_scope.

(** ** Strings *)

(** The double-quote character, as it occurs in the verbose trace lines. *)
Definition dquote : string := String "034"%char EmptyString.

(** Template-literal interpolation of an integral number. *)
Definition numberToString (n : Z) : string :=
  NilZero.string_of_int (Z.to_int n).

(** ** Errors *)

Inductive ErrorCode := ENOENT | EACCES | EISDIR | ENOTDIR | ENOTEMPTY.

Inductive Error :=
| FsError (code : ErrorCode) (path : string)
| SelectionError (pattern : string).

(** Modelled from the spec: [FileSystem.isNotExistError] of
    node-core-library, the typed condition that tells a target that does
    not exist from every other I/O error. *)
Definition isNotExistError (error : Error) : bool :=
  match error with
  | FsError ENOENT _ => true
  | _ => false
  end.

(** ** The filesystem *)

(** [fs.Dirent], reduced to what the plugin asks of it. *)
Inductive Dirent := DirentFile | DirentDirectory.

Definition isDirectory (dirent : Dirent) : bool :=
  match dirent with
  | DirentDirectory => true
  | DirentFile => false
  end.

(** Modelled from the spec: the live filesystem behind [FileSystem] of
    node-core-library.  [entries] maps every existing absolute path to its
    kind; [denied] holds the paths whose removal fails with a permission
    error. *)
Record FileSystem := mkFileSystem {
  entries : gmap string Dirent;
  denied : gset string
}.

Definition removeEntry (path : string) (fs : FileSystem) : FileSystem :=
  {| entries := delete path (entries fs); denied := denied fs |}.

(** [isInside folder path]: [path] lies below [folder]. *)
Definition isInside (folder path : string) : bool :=
  String.prefix (folder +:+ "/") path.

Definition hasEntriesInside (folder : string) (fs : FileSystem) : bool :=
  existsb (fun entry => isInside folder entry.1) (map_to_list (entries fs)).

(** Modelled from the spec: [FileSystem.deleteFileAsync] of
    node-core-library, the single-file removal primitive.  A missing target
    is reported as a not-exist error when [throwIfNotExists] is set. *)
Definition deleteFileAsync (path : string) (throwIfNotExists : bool)
    (fs : FileSystem) : Error + FileSystem :=
  match entries fs !! path with
  | None => if throwIfNotExists then inl (FsError ENOENT path) else inr fs
  | Some DirentDirectory => inl (FsError EISDIR path)
  | Some DirentFile =>
      if bool_decide (path ∈ denied fs) then inl (FsError EACCES path)
      else inr (removeEntry path fs)
  end.

(** Modelled from the spec: [FileSystem.deleteFolderAsync] of
    node-core-library, the removal primitive for an (empty) directory.  A
    missing target is a not-exist error; a folder that still has content
    fails as not empty. *)
Definition deleteFolderAsync (path : string) (fs : FileSystem)
    : Error + FileSystem :=
  match entries fs !! path with
  | None => inl (FsError ENOENT path)
  | Some DirentFile => inl (FsError ENOTDIR path)
  | Some DirentDirectory =>
      if bool_decide (path ∈ denied fs) then inl (FsError EACCES path)
      else if hasEntriesInside path fs then inl (FsError ENOTEMPTY path)
      else inr (removeEntry path fs)
  end.

(** ** The terminal *)

Inductive Severity := SeverityLog | SeverityVerbose.

Definition Terminal := list (Severity * string).

Definition writeLine (terminal : Terminal) (message : string) : Terminal :=
  terminal ++ [(SeverityLog, message)].

Definition writeVerboseLine (terminal : Terminal) (message : string)
    : Terminal :=
  terminal ++ [(SeverityVerbose, message)].

(** The lines written with [writeLine], in order. *)
Definition logLines (terminal : Terminal) : list string :=
  omap (fun line => match line.1 with
                    | SeverityLog => Some line.2
                    | SeverityVerbose => None
                    end) terminal.

(** ** The observable world *)

Inductive FsCall :=
| CallDeleteFile (path : string)
| CallDeleteFolder (path : string).

(** The journal records, in order, every deletion the plugin hands to the
    filesystem and every completion it is told of. *)
Inductive FsEvent :=
| Issued (call : FsCall)
| Completed (call : FsCall) (failure : option Error).

Record World := mkWorld {
  disk : FileSystem;
  journal : list FsEvent;
  terminal : Terminal
}.

Definition setDisk (fs : FileSystem) (w : World) : World :=
  {| disk := fs; journal := journal w; terminal := terminal w |}.

Definition journalize (event : FsEvent) (w : World) : World :=
  {| disk := disk w; journal := journal w ++ [event]; terminal := terminal w |}.

Definition verbose (message : string) (w : World) : World :=
  {| disk := disk w; journal := journal w;
     terminal := writeVerboseLine (terminal w) message |}.

Definition announce (message : string) (w : World) : World :=
  {| disk := disk w; journal := journal w;
     terminal := writeLine (terminal w) message |}.

(** ** Async.forEachAsync *)

Section ForEachAsync.
(** [A]: the entries of the iterable; [P]: an operation that has been
    issued and not yet completed; [S]: the state the callbacks share. *)
Context {A P S : Type}.

(** The [concurrency] option; [0] leaves the fan-out unbounded. *)
Variable concurrency : nat.
(** The callback up to its [await]. *)
Variable begin : A -> S -> S * P.
(** The awaited operation completes and the rest of the callback runs;
    [Some e] when the callback throws [e]. *)
Variable settle : P -> S -> option Error * S.

Inductive Promise :=
| Resolved (s : S)
| Rejected (error : Error) (s : S) (pending : list P).

(** The shared state when the promise is settled. *)
Definition promiseState (promise : Promise) : S :=
  match promise with
  | Resolved s => s
  | Rejected _ s _ => s
  end.

Definition hasCapacity (inflight : list P) : bool :=
  (concurrency =? 0)%nat || (length inflight <? concurrency)%nat.

(** Enter the callback for the next entries while a slot is free. *)
Fixpoint queueOperations (queue : list A) (inflight : list P) (s : S)
    : list A * list P * S :=
  match queue with
  | [] => ([], inflight, s)
  | entry :: rest =>
      if hasCapacity inflight then
        let '(s', op) := begin entry s in
        queueOperations rest (inflight ++ [op]) s'
      else (queue, inflight, s)
  end.

(** Which in-flight operation completes next. *)
Definition pick (schedule : list nat) (inflight : list P) : nat :=
  hd 0 schedule mod length inflight.

(** [remaining] counts the entries that have not completed. *)
Fixpoint eventLoop (remaining : nat) (schedule : list nat)
    (queue : list A) (inflight : list P) (s : S) : Promise :=
  match remaining with
  | 0 => Resolved s
  | Datatypes.S remaining' =>
      let '(queue', inflight', s') := queueOperations queue inflight s in
      let i := pick schedule inflight' in
      match inflight' !! i with
      | None => Resolved s'
      | Some op =>
          match settle op s' with
          | (Some error, s'') => Rejected error s'' (delete i inflight')
          | (None, s'') =>
              eventLoop remaining' (tl schedule) queue' (delete i inflight') s''
          end
      end
  end.

(** Modelled from the spec: [Async.forEachAsync] of node-core-library.
    At most [concurrency] operations are in flight, entries are taken in
    iteration order, completion order is the schedule's, and the first
    callback that throws rejects the promise: no further entry is
    taken, the operations still in flight are left [pending]. *)
Definition forEachAsync (schedule : list nat) (iterable : list A) (s : S)
    : Promise :=
  eventLoop (length iterable) schedule iterable [] s.

(** The operations left in flight by a rejected promise still complete;
    nobody awaits them. *)
Fixpoint background (schedule : list nat) (remaining : nat)
    (pending : list P) (s : S) : S :=
  match remaining with
  | 0 => s
  | Datatypes.S remaining' =>
      let i := pick schedule pending in
      match pending !! i with
      | None => s
      | Some op =>
          background (tl schedule) remaining' (delete i pending)
            (settle op s).2
      end
  end.
End ForEachAsync.

Arguments Resolved {P S} s.
Arguments Rejected {P S} error s pending.

(** What an asynchronous function hands back to the caller that awaits
    it, with the state at that moment. *)
Inductive Completion (R : Type) :=
| Returned (r : R)
| Threw (error : Error) (r : R).

Arguments Returned {R} r.
Arguments Threw {R} error r.

(** The state a run ends in, returned or thrown. *)
Definition finalState {R : Type} (completion : Completion R) : R :=
  match completion with
  | Returned r => r
  | Threw _ r => r
  end.

(** ** Delete operations *)

(** Modelled from the spec: [IFileSelectionSpecifier] is declared in
    FileGlobSpecifier, outside the sources at hand; a delete operation has
    a root folder, an inclusion pattern and exclusion patterns. *)
Record IDeleteOperation := mkDeleteOperation {
  rootFolder : string;
  pattern : string;
  excludedPatterns : list string
}.

Definition isAbsolute (path : string) : bool := String.prefix "/" path.

Definition resolvePath (base path : string) : string :=
  if isAbsolute path then path else base +:+ "/" +:+ path.

(** Modelled from the spec: what [normalizeFileSelectionSpecifier] of
    FileGlobSpecifier makes of a specifier: its root folder is resolved
    against [rootPath], its relative patterns against its root folder. *)
Definition normalized (rootPath : string) (specifier : IDeleteOperation)
    : IDeleteOperation :=
  let root := resolvePath rootPath (rootFolder specifier) in
  {| rootFolder := root;
     pattern := resolvePath root (pattern specifier);
     excludedPatterns := map (resolvePath root) (excludedPatterns specifier) |}.

(** The caller's operation objects live in a store and are passed around
    by reference. *)
Definition Heap := nat -> IDeleteOperation.

Definition assign (ref : nat) (value : IDeleteOperation) (heap : Heap) : Heap :=
  fun r => if (r =? ref)%nat then value else heap r.

(** [normalizeFileSelectionSpecifier] returns nothing: it rewrites the
    object it is given. *)
Definition normalizeFileSelectionSpecifier (rootPath : string) (ref : nat)
    (heap : Heap) : Heap :=
  assign ref (normalized rootPath (heap ref)) heap.

(** ** The path selector *)

(** The glob dialect is not the plugin's: a pattern either fails to parse
    or decides, path by path, whether it matches. *)
Class GlobSyntax := { compileGlob : string -> option (string -> bool) }.

Record IGetFileSelectionSpecifierPathsOptions := mkSelectionOptions {
  fileGlobSpecifier : IDeleteOperation;
  includeFolders : bool
}.

Section Selector.
Context `{GlobSyntax}.

Fixpoint compileGlobs (patterns : list string)
    : Error + list (string -> bool) :=
  match patterns with
  | [] => inr []
  | p :: rest =>
      match compileGlob p with
      | None => inl (SelectionError p)
      | Some matcher =>
          match compileGlobs rest with
          | inl error => inl error
          | inr matchers => inr (matcher :: matchers)
          end
      end
  end.

Definition selects (included : string -> bool)
    (excluded : list (string -> bool)) (folders : bool)
    (entry : string * Dirent) : bool :=
  included entry.1
  && forallb (fun matcher => negb (matcher entry.1)) excluded
  && (folders || negb (isDirectory entry.2)).

(** Modelled from the spec: [getFileSelectionSpecifierPathsAsync] of
    FileGlobSpecifier, the path selector.  It expands the specifier
    against the live filesystem to the existing paths that match, each
    with its kind; a pattern that does not parse is a selection error.
    The specifier's fields are read when the selector is called. *)
Definition getFileSelectionSpecifierPathsAsync
    (options : IGetFileSelectionSpecifierPathsOptions) (fs : FileSystem)
    : Error + list (string * Dirent) :=
  let specifier := fileGlobSpecifier options in
  match compileGlob (pattern specifier) with
  | None => inl (SelectionError (pattern specifier))
  | Some included =>
      match compileGlobs (excludedPatterns specifier) with
      | inl error => inl error
      | inr excluded =>
          inr (List.filter (selects included excluded (includeFolders options))
                 (map_to_list (entries fs)))
      end
  end.
End Selector.

(** ** The plugin *)

(** A JavaScript [Set<string>] iterates in insertion order. *)
Definition setAdd (value : string) (set : list string) : list string :=
  if bool_decide (value ∈ set) then set else set ++ [value].

Record IGetPathsToDeleteResult := mkPathsToDelete {
  filesToDelete : list string;
  foldersToDelete : list string
}.

Record ResolverState := mkResolverState {
  resolverWorld : World;
  operations : Heap;
  result : IGetPathsToDeleteResult
}.

Record DeleterState := mkDeleterState {
  world : World;
  deletedFiles : Z;
  deletedFolders : Z
}.

Record RunState := mkRunState {
  callerOperations : Heap;
  deletion : DeleterState
}.

Definition onWorld (f : World -> World) (s : DeleterState) : DeleterState :=
  {| world := f (world s);
     deletedFiles := deletedFiles s;
     deletedFolders := deletedFolders s |}.

Section Plugin.
Context `{GlobSyntax}.

(** [Constants.maxParallelism], declared outside the sources at hand. *)
Variable maxParallelism : nat.

(** *** _getPathsToDeleteAsync *)

Definition addSourcePath (r : IGetPathsToDeleteResult)
    (entry : string * Dirent) : IGetPathsToDeleteResult :=
  let '(sourcePath, dirent) := entry in
  if isDirectory dirent then
    {| filesToDelete := filesToDelete r;
       foldersToDelete := setAdd sourcePath (foldersToDelete r) |}
  else
    {| filesToDelete := setAdd sourcePath (filesToDelete r);
       foldersToDelete := foldersToDelete r |}.

(** The callback up to its [await]: the operation is normalized in
    place and handed to the selector. *)
Definition selectBegin (rootFolderPath : string) (deleteOperation : nat)
    (s : ResolverState)
    : ResolverState * IGetFileSelectionSpecifierPathsOptions :=
  let heap :=
    normalizeFileSelectionSpecifier rootFolderPath deleteOperation
      (operations s) in
  ({| resolverWorld := resolverWorld s;
      operations := heap;
      result := result s |},
   {| fileGlobSpecifier := heap deleteOperation; includeFolders := true |}).

(** The selector answers and the loop over [sourcePaths] runs. *)
Definition selectSettle (options : IGetFileSelectionSpecifierPathsOptions)
    (s : ResolverState) : option Error * ResolverState :=
  match getFileSelectionSpecifierPathsAsync options
          (disk (resolverWorld s)) with
  | inl error => (Some error, s)
  | inr sourcePaths =>
      (None,
       {| resolverWorld := resolverWorld s;
          operations := operations s;
          result := fold_left addSourcePath sourcePaths (result s) |})
  end.

Definition _getPathsToDeleteAsync (schedule : list nat)
    (rootFolderPath : string) (deleteOperations : list nat)
    (heap : Heap) (w : World) : Completion ResolverState :=
  let s :=
    {| resolverWorld := w;
       operations := heap;
       result := {| filesToDelete := []; foldersToDelete := [] |} |} in
  match forEachAsync maxParallelism (selectBegin rootFolderPath)
          selectSettle schedule deleteOperations s with
  | Rejected error s' _ => Threw error s'
  | Resolved s' => Returned s'
  end.

(** *** _deleteFilesInnerAsync *)

(** The callback of the file phase up to its [await]: the removal is
    handed to the filesystem. *)
Definition deleteFileBegin (pathToDelete : string) (s : DeleterState)
    : DeleterState * string :=
  (onWorld (journalize (Issued (CallDeleteFile pathToDelete))) s,
   pathToDelete).

(** The removal is answered and the rest of the callback runs.  The
    removal takes effect here, with its answer: between [deleteFileBegin]
    and this step the disk of the model does not show it, whereas the
    filesystem may perform it at any moment in between.  The disk of a
    state with removals in flight is therefore the least the filesystem
    has done; the journal, the terminal and the counters are those of the
    callbacks and do not depend on that moment. *)
Definition deleteFileSettle (pathToDelete : string) (s : DeleterState)
    : option Error * DeleterState :=
  let call := CallDeleteFile pathToDelete in
  match deleteFileAsync pathToDelete true (disk (world s)) with
  | inr fs =>
      (None,
       {| world :=
            verbose ("Deleted " +:+ dquote +:+ pathToDelete +:+ dquote +:+ ".")
              (journalize (Completed call None) (setDisk fs (world s)));
          deletedFiles := (deletedFiles s + 1)%Z;
          deletedFolders := deletedFolders s |})
  | inl error =>
      let s' := onWorld (journalize (Completed call (Some error))) s in
      (* If it doesn't exist, we can ignore the error. *)
      if negb (isNotExistError error) then (Some error, s') else (None, s')
  end.

(** The callback of the folder phase up to its [await]. *)
Definition deleteFolderBegin (folderToDelete : string) (s : DeleterState)
    : DeleterState * string :=
  (onWorld (journalize (Issued (CallDeleteFolder folderToDelete))) s,
   folderToDelete).

(** The removal is answered and the rest of the callback runs; as for
    files, the removal takes effect with its answer. *)
Definition deleteFolderSettle (folderToDelete : string) (s : DeleterState)
    : option Error * DeleterState :=
  let call := CallDeleteFolder folderToDelete in
  match deleteFolderAsync folderToDelete (disk (world s)) with
  | inr fs =>
      (None,
       {| world :=
            verbose ("Deleted folder " +:+ dquote +:+ folderToDelete
                       +:+ dquote +:+ ".")
              (journalize (Completed call None) (setDisk fs (world s)));
          deletedFiles := deletedFiles s;
          deletedFolders := (deletedFolders s + 1)%Z |})
  | inl error =>
      let s' := onWorld (journalize (Completed call (Some error))) s in
      (* If it doesn't exist, we can ignore the error. *)
      if negb (isNotExistError error) then (Some error, s') else (None, s')
  end.

(** The template literal of the summary line. *)
Definition summaryLine (deletedFiles deletedFolders : Z) : string :=
  "Deleted " +:+ numberToString deletedFiles +:+ " file"
    +:+ (if negb (deletedFiles =? 1)%Z then "s" else "") +:+ " "
    +:+ "and " +:+ numberToString deletedFolders +:+ " folder"
    +:+ (if negb (deletedFolders =? 1)%Z then "s" else "").

(** The closing [if] of [_deleteFilesInnerAsync]. *)
Definition report (s : DeleterState) : DeleterState :=
  if (deletedFiles s >? 0)%Z || (deletedFolders s >? 0)%Z then
    onWorld (announce (summaryLine (deletedFiles s) (deletedFolders s))) s
  else s.

Definition _deleteFilesInnerAsync (schedules : list nat * list nat)
    (pathsToDelete : IGetPathsToDeleteResult) (w : World)
    : Completion DeleterState :=
  let s := {| world := w; deletedFiles := 0%Z; deletedFolders := 0%Z |} in
  match forEachAsync maxParallelism deleteFileBegin deleteFileSettle
          schedules.1 (filesToDelete pathsToDelete) s with
  | Rejected error s' _ => Threw error s'
  | Resolved s' =>
      (* Clear out any folders that were encountered during the file
         deletion process. These folders should already be empty. *)
      match forEachAsync maxParallelism deleteFolderBegin deleteFolderSettle
              schedules.2 (foldersToDelete pathsToDelete) s' with
      | Rejected error s'' _ => Threw error s''
      | Resolved s'' => Returned (report s'')
      end
  end.

(** *** deleteFilesAsync *)

(** One schedule for each of the three fan-outs of a run. *)
Record Schedules := mkSchedules {
  selections : list nat;
  fileDeletions : list nat;
  folderDeletions : list nat
}.

Definition deleteFilesAsync (schedules : Schedules)
    (rootFolderPath : string) (deleteOperations : list nat)
    (heap : Heap) (w : World) : Completion RunState :=
  match _getPathsToDeleteAsync (selections schedules) rootFolderPath
          deleteOperations heap w with
  | Threw error s =>
      Threw error
        {| callerOperations := operations s;
           deletion := {| world := resolverWorld s;
                          deletedFiles := 0%Z; deletedFolders := 0%Z |} |}
  | Returned s =>
      match _deleteFilesInnerAsync
              (fileDeletions schedules, folderDeletions schedules)
              (result s) (resolverWorld s) with
      | Threw error d =>
          Threw error {| callerOperations := operations s; deletion := d |}
      | Returned d =>
          Returned {| callerOperations := operations s; deletion := d |}
      end
  end.
End Plugin.

(** ** A concrete project *)

Module Scenario.
(** A small glob dialect for the examples: a pattern that ends in an
    open bracket does not parse, [folder/**] selects [folder] and
    everything below it, any other pattern selects the path it spells. *)
Definition stripSuffix (suffix s : string) : option string :=
  let n := String.length s - String.length suffix in
  if String.eqb (String.substring n (String.length suffix) s) suffix
  then Some (String.substring 0 n s) else None.

Definition compile (pattern : string) : option (string -> bool) :=
  if bool_decide (is_Some (stripSuffix "[" pattern)) then None
  else match stripSuffix "/**" pattern with
       | Some folder =>
           Some (fun path => String.eqb path folder || isInside folder path)
       | None => Some (String.eqb pattern)
       end.

#[export] Instance toyGlob : GlobSyntax := {| compileGlob := compile |}.

Definition build : string := "/proj/build".
Definition a_txt : string := "/proj/build/a.txt".
Definition b_txt : string := "/proj/build/b.txt".
Definition locked_txt : string := "/proj/locked.txt".

Definition project : FileSystem :=
  {| entries :=
       <[build := DirentDirectory]>
         (<[a_txt := DirentFile]>
            (<[b_txt := DirentFile]> (<[locked_txt := DirentFile]> ∅)));
     denied := {[locked_txt]} |}.

Definition fresh (fs : FileSystem) : World :=
  {| disk := fs; journal := []; terminal := [] |}.

Definition buildOperation : IDeleteOperation :=
  {| rootFolder := "/proj"; pattern := "build/**"; excludedPatterns := [] |}.

Definition lockedOperation : IDeleteOperation :=
  {| rootFolder := "/proj"; pattern := "locked.txt"; excludedPatterns := [] |}.

Definition brokenOperation : IDeleteOperation :=
  {| rootFolder := "/proj"; pattern := "/proj/build/**";
     excludedPatterns := ["*.["] |}.

(** An operation that overlaps the build operation. *)
Definition overlappingOperation : IDeleteOperation :=
  {| rootFolder := "/proj"; pattern := "build/a.txt";
     excludedPatterns := [] |}.

(** The caller's objects: reference 0 is the build operation, 1 the
    locked file, 2 the overlapping operation, any other a specifier with
    a pattern that does not parse. *)
Definition callerHeap : Heap :=
  fun ref =>
    match ref with
    | 0 => buildOperation
    | 1 => lockedOperation
    | 2 => overlappingOperation
    | _ => brokenOperation
    end.

Definition buildPaths : IGetPathsToDeleteResult :=
  {| filesToDelete := [a_txt; b_txt]; foldersToDelete := [build] |}.

(** A project whose build folder is empty, beside a protected file. *)
Definition lockedProject : FileSystem :=
  {| entries :=
       <[build := DirentDirectory]> (<[locked_txt := DirentFile]> ∅);
     denied := {[locked_txt]} |}.

Definition lockedPaths : IGetPathsToDeleteResult :=
  {| filesToDelete := [locked_txt]; foldersToDelete := [build] |}.
End Scenario.

(** ** Reading the resolver *)

Section Selections.
Context `{GlobSyntax}.

(** The options each callback hands to the selector when it is entered,
    one for each entry of [deleteOperations] in iteration order.  A run
    that returns has made all of these calls; a run that throws may not
    have entered every callback. *)
Fixpoint handedOver (rootFolderPath : string) (s : ResolverState)
    (deleteOperations : list nat)
    : list IGetFileSelectionSpecifierPathsOptions :=
  match deleteOperations with
  | [] => []
  | deleteOperation :: rest =>
      let '(s', options) := selectBegin rootFolderPath deleteOperation s in
      options :: handedOver rootFolderPath s' rest
  end.

(** What the selector answers, nothing when it fails. *)
Definition selection (options : IGetFileSelectionSpecifierPathsOptions)
    (fs : FileSystem) : list (string * Dirent) :=
  match getFileSelectionSpecifierPathsAsync options fs with
  | inr sourcePaths => sourcePaths
  | inl _ => []
  end.

(** Some call of the selector reports [path], as a directory or not. *)
Definition selectedAs (directory : bool)
    (calls : list IGetFileSelectionSpecifierPathsOptions) (fs : FileSystem)
    (path : string) : Prop :=
  exists options dirent,
    options ∈ calls /\ (path, dirent) ∈ selection options fs /\
    isDirectory dirent = directory.
End Selections.

(** ** Reading the journal *)

Definition isFileEvent (event : FsEvent) : bool :=
  match event with
  | Issued (CallDeleteFile _) | Completed (CallDeleteFile _) _ => true
  | _ => false
  end.

Definition isFolderEvent (event : FsEvent) : bool :=
  match event with
  | Issued (CallDeleteFolder _) | Completed (CallDeleteFolder _) _ => true
  | _ => false
  end.

(** The filesystem has answered the call, with or without a failure. *)
Definition completedIn (events : list FsEvent) (call : FsCall) : Prop :=
  exists failure, Completed call failure ∈ events.

(** Some file deletion was answered with a failure other than a missing
    target. *)
Definition fileFailedHard (events : list FsEvent) : Prop :=
  exists path error,
    Completed (CallDeleteFile path) (Some error) ∈ events /\
    isNotExistError error = false.

(** No answer recorded in [events] is a failure other than a missing
    target. *)
Definition benign (event : FsEvent) : Prop :=
  match event with
  | Completed _ (Some error) => isNotExistError error = true
  | _ => True
  end.

(** ** The summary line as the specification words it *)

(** A count followed by its noun, singular for a count of one and plural
    otherwise. *)
Definition countNoun (count : Z) (singular : string) : string :=
  numberToString count +:+ " "
    +:+ (if decide (count = 1%Z) then singular else singular +:+ "s").

Definition specifiedSummary (files folders : Z) : string :=
  "Deleted " +:+ countNoun files "file" +:+ " and " +:+ countNoun folders "folder".

(** Nothing when both counters are zero, one summary line otherwise. *)
Definition specifiedReport (files folders : Z) : list string :=
  if decide (files = 0%Z /\ folders = 0%Z) then []
  else [specifiedSummary files folders].

(** ** Reading the journal further *)

(** The calls handed to the filesystem, in the order they were issued. *)
Definition issuedCalls (events : list FsEvent) : list FsCall :=
  omap (fun event => match event with
                     | Issued call => Some call
                     | Completed _ _ => None
                     end) events.

(** The calls the filesystem has answered, in the order of the answers. *)
Definition completedCalls (events : list FsEvent) : list FsCall :=
  omap (fun event => match event with
                     | Issued _ => None
                     | Completed call _ => Some call
                     end) events.

(** How many calls are issued and not yet answered. *)
Definition outstanding (events : list FsEvent) : Z :=
  (Z.of_nat (length (issuedCalls events))
   - Z.of_nat (length (completedCalls events)))%Z.

(** The calls a batch asks for, files first, each set in iteration
    order. *)
Definition callsOf (pathsToDelete : IGetPathsToDeleteResult) : list FsCall :=
  map CallDeleteFile (filesToDelete pathsToDelete)
    ++ map CallDeleteFolder (foldersToDelete pathsToDelete).

(** ** DeleteFilesPlugin *)

(** A JavaScript [Set] of objects holds references and iterates in
    insertion order. *)
Definition referenceSetAdd (ref : nat) (set : list nat) : list nat :=
  if bool_decide (ref ∈ set) then set else set ++ [ref].

(** [IDeleteFilesPluginOptions]: an array of references to the
    operation objects of the configuration. *)
Record IDeleteFilesPluginOptions := mkPluginOptions {
  optionsDeleteOperations : list nat
}.

(** [IHeftTaskFileOperations] is declared in HeftTaskSession, outside the
    sources at hand; the plugin reads only its set [deleteOperations],
    [otherOperations] stands for the rest of the object. *)
Record IHeftTaskFileOperations (Rest : Type) := mkFileOperations {
  taskDeleteOperations : list nat;
  otherOperations : Rest
}.

Arguments mkFileOperations {Rest} _ _.
Arguments taskDeleteOperations {Rest} _.
Arguments otherOperations {Rest} _.

(** The function the plugin taps into [registerFileOperations]: every
    operation of the options is added to the set, and the same object is
    returned. *)
Definition registerDeleteOperations {Rest : Type}
    (pluginOptions : IDeleteFilesPluginOptions)
    (fileOperations : IHeftTaskFileOperations Rest)
    : IHeftTaskFileOperations Rest :=
  fold_left
    (fun operations deleteOperation =>
       {| taskDeleteOperations :=
            referenceSetAdd deleteOperation (taskDeleteOperations operations);
          otherOperations := otherOperations operations |})
    (optionsDeleteOperations pluginOptions) fileOperations.

(** * Properties *)

(** ** Lists *)

(** Removing the operation at index [i] splits the list around it. *)
Lemma delete_lookup_split {T : Type} (l : list T) i x :
  l !! i = Some x ->
  exists l1 l2, l = l1 ++ x :: l2 /\ delete i l = l1 ++ l2.
Proof.
  intros Hx. exists (take i l), (drop (Datatypes.S i) l). split.
  - symmetry. now apply take_drop_middle.
  - apply delete_take_drop.
Qed.

Lemma elem_of_delete_other {T : Type} (l : list T) i x y :
  l !! i = Some y -> x ∈ l -> x <> y -> x ∈ delete i l.
Proof.
  intros Hy Hx Hne.
  destruct (delete_lookup_split l i y Hy) as (l1 & l2 & -> & ->).
  rewrite elem_of_app, elem_of_cons in Hx. rewrite elem_of_app.
  destruct Hx as [Hx|[Hx|Hx]]; [now left | contradiction | now right].
Qed.

(** ** The fan-out *)

Section ForEachAsyncFacts.
Context {A P S : Type}.
Variable concurrency : nat.
Variable begin : A -> S -> S * P.
Variable settle : P -> S -> option Error * S.

Lemma hasCapacity_nil : hasCapacity (P:=P) concurrency [] = true.
Proof.
  unfold hasCapacity. destruct concurrency; reflexivity.
Qed.

(** Queueing stops only when the queue is exhausted or every slot is
    taken. *)
Lemma queueOperations_stop queue inflight s :
  let '(queue', inflight', _) := queueOperations concurrency begin queue inflight s in
  queue' = [] \/ hasCapacity concurrency inflight' = false.
Proof.
  revert inflight s. induction queue as [|x queue IH]; intros inflight s.
  - left; reflexivity.
  - simpl. destruct (hasCapacity concurrency inflight) eqn:Hcap.
    + destruct (begin x s) as [s' op]. apply IH.
    + right; exact Hcap.
Qed.

Lemma queueOperations_length queue inflight s :
  let '(queue', inflight', _) := queueOperations concurrency begin queue inflight s in
  length queue' + length inflight' = length queue + length inflight.
Proof.
  revert inflight s. induction queue as [|x queue IH]; intros inflight s.
  - reflexivity.
  - simpl. destruct (hasCapacity concurrency inflight).
    + destruct (begin x s) as [s' op]. specialize (IH (inflight ++ [op]) s').
      destruct (queueOperations concurrency begin queue (inflight ++ [op]) s') as [[q' i'] s''].
      rewrite IH, length_app. simpl. lia.
    + reflexivity.
Qed.

Lemma pick_lt schedule (inflight : list P) :
  inflight <> [] -> pick schedule inflight < length inflight.
Proof.
  intros Hne. unfold pick. apply Nat.mod_upper_bound.
  destruct inflight; [congruence | simpl; lia].
Qed.

Section Invariant.
(** A property of the entries still queued, the operations in
    flight and the shared state. *)
Variable Inv : list A -> list P -> S -> Prop.

Hypothesis begin_preserves : forall x queue inflight s,
  Inv (x :: queue) inflight s ->
  hasCapacity concurrency inflight = true ->
  Inv queue (inflight ++ [(begin x s).2]) (begin x s).1.

Hypothesis settle_preserves : forall queue inflight s i op,
  Inv queue inflight s ->
  inflight !! i = Some op ->
  (settle op s).1 = None ->
  Inv queue (delete i inflight) (settle op s).2.

Lemma queueOperations_invariant queue inflight s :
  Inv queue inflight s ->
  let '(queue', inflight', s') := queueOperations concurrency begin queue inflight s in
  Inv queue' inflight' s'.
Proof.
  revert inflight s. induction queue as [|x queue IH]; intros inflight s HI.
  - exact HI.
  - simpl. destruct (hasCapacity concurrency inflight) eqn:Hcap.
    + pose proof (begin_preserves _ _ _ _ HI Hcap) as HI'.
      destruct (begin x s) as [s' op]. apply IH. exact HI'.
    + exact HI.
Qed.

(** The invariant holds when the promise resolves, with nothing
    queued and nothing in flight; a rejection comes from an
    operation that was in flight in a state satisfying it. *)
Lemma eventLoop_invariant remaining schedule queue inflight s :
  remaining = length queue + length inflight ->
  Inv queue inflight s ->
  match eventLoop concurrency begin settle remaining schedule queue inflight s with
  | Resolved s' => Inv [] [] s'
  | Rejected error s' pending =>
      exists queue0 inflight0 s0 i op,
        Inv queue0 inflight0 s0 /\ inflight0 !! i = Some op /\
        settle op s0 = (Some error, s') /\ pending = delete i inflight0
  end.
Proof.
  revert schedule queue inflight s.
  induction remaining as [|n IH]; intros schedule queue inflight s Hn HI.
  - simpl. destruct queue, inflight; simpl in Hn; try lia. exact HI.
  - simpl.
    pose proof (queueOperations_invariant _ _ _ HI) as HI'.
    pose proof (queueOperations_stop queue inflight s) as Hstop.
    pose proof (queueOperations_length queue inflight s) as Hlen.
    destruct (queueOperations concurrency begin queue inflight s) as [[queue' inflight'] s'].
    destruct (inflight' !! pick schedule inflight') as [op|] eqn:Hop.
    + destruct (settle op s') as [[error|] s''] eqn:Hsettle.
      * exists queue', inflight', s', (pick schedule inflight'), op.
        repeat split; assumption.
      * apply IH.
        -- apply lookup_lt_Some in Hop as Hlt.
           rewrite length_delete by eauto. lia.
        -- pose proof (settle_preserves _ _ _ _ _ HI' Hop) as Hs.
           rewrite Hsettle in Hs. apply Hs. reflexivity.
    + destruct inflight' as [|op inflight'].
      * destruct Hstop as [-> | Hcap]; [exact HI'|].
        rewrite hasCapacity_nil in Hcap. discriminate.
      * apply lookup_ge_None in Hop.
        pose proof (pick_lt schedule (op :: inflight')) as Hlt.
        specialize (Hlt ltac:(discriminate)). lia.
Qed.

Lemma forEachAsync_invariant schedule iterable s :
  Inv iterable [] s ->
  match forEachAsync concurrency begin settle schedule iterable s with
  | Resolved s' => Inv [] [] s'
  | Rejected error s' pending =>
      exists queue0 inflight0 s0 i op,
        Inv queue0 inflight0 s0 /\ inflight0 !! i = Some op /\
        settle op s0 = (Some error, s') /\ pending = delete i inflight0
  end.
Proof.
  intros HI. apply eventLoop_invariant; [simpl; lia | exact HI].
Qed.
End Invariant.

(** A property of the shared state that every step of every callback
    keeps holds when the promise is settled, either way. *)
Lemma forEachAsync_preserved (R : S -> Prop) schedule iterable s :
  (forall x s, R s -> R (begin x s).1) ->
  (forall op s, R s -> R (settle op s).2) ->
  R s ->
  R (promiseState (forEachAsync concurrency begin settle schedule iterable s)).
Proof.
  intros Hbegin Hsettle HR.
  assert (match forEachAsync concurrency begin settle schedule iterable s with
          | Resolved s' => R s'
          | Rejected error s' pending =>
              exists (queue0 : list A) (inflight0 : list P) s0 i op,
                R s0 /\ inflight0 !! i = Some op /\
                settle op s0 = (Some error, s') /\
                pending = delete i inflight0
          end) as Hinv.
  { apply (forEachAsync_invariant (fun _ _ s => R s)); simpl; eauto. }
  destruct (forEachAsync _ _ _ _ _ _) as [s'|error s' pending]; simpl.
  - exact Hinv.
  - destruct Hinv as (_ & _ & s0 & _ & op & HR0 & _ & Heq & _).
    specialize (Hsettle op s0 HR0). rewrite Heq in Hsettle. exact Hsettle.
Qed.

(** A property that entering the first callback establishes and every
    later step keeps holds when the promise is settled, either way. *)
Lemma forEachAsync_first (R : S -> Prop) schedule x rest s :
  R (begin x s).1 ->
  (forall y s, R s -> R (begin y s).1) ->
  (forall op s, R s -> R (settle op s).2) ->
  R (promiseState
       (forEachAsync concurrency begin settle schedule (x :: rest) s)).
Proof.
  intros Hfirst Hbegin Hsettle.
  pose proof (forEachAsync_invariant
                (fun queue inflight s' =>
                   (queue = x :: rest /\ inflight = [] /\ s' = s) \/ R s'))
    as Hinv.
  lapply Hinv; clear Hinv.
  - intros Hinv. lapply Hinv; clear Hinv.
    + intros Hinv. specialize (Hinv schedule (x :: rest) s).
      lapply Hinv; clear Hinv; [|left; auto].
      intros Hinv.
      destruct (forEachAsync _ _ _ _ _ _) as [s'|error s' pending]; simpl.
      * destruct Hinv as [(Hq & _)|HR]; [discriminate|exact HR].
      * destruct Hinv as (q0 & i0 & s0 & i & op & HI & Hop & Hset & _).
        destruct HI as [(_ & -> & _)|HR]; [discriminate|].
        specialize (Hsettle op s0 HR). now rewrite Hset in Hsettle.
    + intros queue inflight s' i op [(_ & -> & _)|HR] Hop _;
        [discriminate|].
      right. now apply Hsettle.
  - intros y queue inflight s' [(Hq & _ & ->)|HR] _; right.
    + injection Hq as -> _. exact Hfirst.
    + now apply Hbegin.
Qed.
End ForEachAsyncFacts.

(** ** The filesystem primitives *)

Lemma hasEntriesInside_false folder fs :
  hasEntriesInside folder fs = false <->
  forall path dirent,
    entries fs !! path = Some dirent -> isInside folder path = false.
Proof.
  unfold hasEntriesInside. split.
  - intros Hex path dirent Hlook.
    destruct (isInside folder path) eqn:Hin; [|reflexivity].
    assert (existsb (fun entry : string * Dirent => isInside folder entry.1)
              (map_to_list (entries fs)) = true) as Htrue.
    { apply existsb_exists. exists (path, dirent). split; [|exact Hin].
      apply list_elem_of_In, elem_of_map_to_list. exact Hlook. }
    congruence.
  - intros Hall.
    destruct (existsb _ _) eqn:Hex; [|reflexivity].
    apply existsb_exists in Hex as [[path dirent] [Hin Hinside]].
    apply list_elem_of_In, elem_of_map_to_list in Hin.
    simpl in Hinside. rewrite (Hall _ _ Hin) in Hinside. discriminate.
Qed.

(** A removal primitive fails with a not-exist error exactly on a target
    that does not exist. *)
Lemma deleteFileAsync_missing path fs :
  entries fs !! path = None ->
  deleteFileAsync path true fs = inl (FsError ENOENT path).
Proof. intros Hnone. unfold deleteFileAsync. rewrite Hnone. reflexivity. Qed.

Lemma deleteFolderAsync_missing path fs :
  entries fs !! path = None ->
  deleteFolderAsync path fs = inl (FsError ENOENT path).
Proof. intros Hnone. unfold deleteFolderAsync. rewrite Hnone. reflexivity. Qed.

Lemma deleteFileAsync_inv path fs :
  match deleteFileAsync path true fs with
  | inr fs' => entries fs !! path = Some DirentFile /\ (path ∉ denied fs) /\
               fs' = removeEntry path fs
  | inl error =>
      if isNotExistError error then entries fs !! path = None
      else is_Some (entries fs !! path)
  end.
Proof.
  unfold deleteFileAsync.
  destruct (entries fs !! path) as [[|]|] eqn:Hlook; simpl; eauto.
  case_bool_decide; simpl; eauto.
Qed.

Lemma deleteFolderAsync_inv path fs :
  match deleteFolderAsync path fs with
  | inr fs' => entries fs !! path = Some DirentDirectory /\
               (path ∉ denied fs) /\ hasEntriesInside path fs = false /\
               fs' = removeEntry path fs
  | inl error =>
      if isNotExistError error then entries fs !! path = None
      else is_Some (entries fs !! path)
  end.
Proof.
  unfold deleteFolderAsync.
  destruct (entries fs !! path) as [[|]|] eqn:Hlook; simpl; eauto.
  case_bool_decide; simpl; eauto.
  destruct (hasEntriesInside path fs) eqn:Hin; simpl; eauto.
Qed.

(** ** The callbacks of the deleter *)

(** What one completed file deletion does to the shared state. *)
Lemma deleteFileSettle_cases path s :
  (exists fs,
      deleteFileAsync path true (disk (world s)) = inr fs /\
      deleteFileSettle path s =
        (None,
         {| world :=
              verbose ("Deleted " +:+ dquote +:+ path +:+ dquote +:+ ".")
                (journalize (Completed (CallDeleteFile path) None)
                   (setDisk fs (world s)));
            deletedFiles := (deletedFiles s + 1)%Z;
            deletedFolders := deletedFolders s |})) \/
  (exists error,
      deleteFileAsync path true (disk (world s)) = inl error /\
      deleteFileSettle path s =
        (if isNotExistError error then None else Some error,
         onWorld (journalize (Completed (CallDeleteFile path) (Some error))) s)).
Proof.
  unfold deleteFileSettle.
  destruct (deleteFileAsync path true (disk (world s))) as [error|fs].
  - right. exists error. split; [reflexivity|].
    destruct (isNotExistError error); reflexivity.
  - left. exists fs. split; reflexivity.
Qed.

(** What one completed folder deletion does to the shared state. *)
Lemma deleteFolderSettle_cases path s :
  (exists fs,
      deleteFolderAsync path (disk (world s)) = inr fs /\
      deleteFolderSettle path s =
        (None,
         {| world :=
              verbose ("Deleted folder " +:+ dquote +:+ path +:+ dquote +:+ ".")
                (journalize (Completed (CallDeleteFolder path) None)
                   (setDisk fs (world s)));
            deletedFiles := deletedFiles s;
            deletedFolders := (deletedFolders s + 1)%Z |})) \/
  (exists error,
      deleteFolderAsync path (disk (world s)) = inl error /\
      deleteFolderSettle path s =
        (if isNotExistError error then None else Some error,
         onWorld (journalize (Completed (CallDeleteFolder path) (Some error))) s)).
Proof.
  unfold deleteFolderSettle.
  destruct (deleteFolderAsync path (disk (world s))) as [error|fs].
  - right. exists error. split; [reflexivity|].
    destruct (isNotExistError error); reflexivity.
  - left. exists fs. split; reflexivity.
Qed.

(** Case analysis on a completed deletion, with the equations in the
    context. *)
Ltac settle_file path s :=
  let fs := fresh "fs" in
  let error := fresh "error" in
  let Hfs := fresh "Hfs" in
  let Hsettle := fresh "Hsettle" in
  destruct (deleteFileSettle_cases path s)
    as [(fs & Hfs & Hsettle) | (error & Hfs & Hsettle)];
  rewrite Hsettle in *; clear Hsettle.

Ltac settle_folder path s :=
  let fs := fresh "fs" in
  let error := fresh "error" in
  let Hfs := fresh "Hfs" in
  let Hsettle := fresh "Hsettle" in
  destruct (deleteFolderSettle_cases path s)
    as [(fs & Hfs & Hsettle) | (error & Hfs & Hsettle)];
  rewrite Hsettle in *; clear Hsettle.

Lemma logLines_app t1 t2 : logLines (t1 ++ t2) = logLines t1 ++ logLines t2.
Proof. unfold logLines. apply omap_app. Qed.

Lemma logLines_verbose t message :
  logLines (writeVerboseLine t message) = logLines t.
Proof.
  unfold writeVerboseLine. rewrite logLines_app. simpl. apply app_nil_r.
Qed.

Lemma logLines_log t message :
  logLines (writeLine t message) = logLines t ++ [message].
Proof. unfold writeLine. rewrite logLines_app. reflexivity. Qed.

Lemma append_assoc (a b c : string) : (a +:+ b) +:+ c = a +:+ (b +:+ c).
Proof.
  induction a as [|ch a IH]; [reflexivity|].
  change (String ch ((a +:+ b) +:+ c) = String ch (a +:+ (b +:+ c))).
  now rewrite IH.
Qed.

(** The template literal of the source spells the specified wording. *)
Lemma summaryLine_specified files folders :
  summaryLine files folders = specifiedSummary files folders.
Proof.
  unfold summaryLine, specifiedSummary, countNoun.
  rewrite !append_assoc.
  destruct (decide (files = 1%Z)) as [->|Hfiles];
    destruct (decide (folders = 1%Z)) as [->|Hfolders]; simpl;
    try (apply Z.eqb_neq in Hfiles; rewrite Hfiles);
    try (apply Z.eqb_neq in Hfolders; rewrite Hfolders);
    reflexivity.
Qed.

Lemma report_logLines s :
  (0 <= deletedFiles s)%Z ->
  (0 <= deletedFolders s)%Z ->
  logLines (terminal (world (report s))) =
  logLines (terminal (world s))
    ++ specifiedReport (deletedFiles s) (deletedFolders s).
Proof.
  intros Hfiles0 Hfolders0. unfold report, specifiedReport.
  destruct (decide _) as [[Hfiles Hfolders]|Hsome].
  - rewrite Hfiles, Hfolders. simpl. now rewrite app_nil_r.
  - assert ((deletedFiles s >? 0)%Z || (deletedFolders s >? 0)%Z = true)
      as ->.
    { apply orb_true_iff. rewrite !Z.gtb_gt. lia. }
    simpl. now rewrite logLines_log, summaryLine_specified.
Qed.

Lemma report_counters s :
  deletedFiles (report s) = deletedFiles s /\
  deletedFolders (report s) = deletedFolders s.
Proof. unfold report. destruct (_ || _); split; reflexivity. Qed.

(** ** The counters *)

Section CountingPhase.
Variable concurrency : nat.
Variable begin : string -> DeleterState -> DeleterState * string.
Variable settle : string -> DeleterState -> option Error * DeleterState.
(** The counter of the phase and the counter of the other phase. *)
Variable counter other : DeleterState -> Z.

Hypothesis begin_counters : forall path s,
  counter (begin path s).1 = counter s /\ other (begin path s).1 = other s.

(** A completed deletion adds one to the counter of its phase or leaves
    it; a callback that throws leaves it. *)
Hypothesis settle_counters : forall path s,
  other (settle path s).2 = other s /\
  (counter (settle path s).2 = counter s \/
   (settle path s).1 = None /\
   counter (settle path s).2 = (counter s + 1)%Z).

Definition countingInv (total : nat) (s0 : DeleterState)
    (queue inflight : list string) (s : DeleterState) : Prop :=
  (counter s0 <= counter s)%Z /\
  (counter s + Z.of_nat (length (inflight ++ queue))
   <= counter s0 + Z.of_nat total)%Z /\
  other s = other s0.

(** Under every schedule the counter of the phase grows by at most the
    number of entries, and when the phase is rejected there is still
    room for the operations left in flight. *)
Lemma countingPhase_bounds schedule paths s0 :
  match forEachAsync concurrency begin settle schedule paths s0 with
  | Resolved s =>
      (counter s0 <= counter s <= counter s0 + Z.of_nat (length paths))%Z /\
      other s = other s0
  | Rejected _ s pending =>
      (counter s0 <= counter s)%Z /\
      (counter s + Z.of_nat (length pending)
       < counter s0 + Z.of_nat (length paths))%Z /\
      other s = other s0
  end.
Proof.
  pose proof (forEachAsync_invariant concurrency begin settle
                (countingInv (length paths) s0)) as Hinv.
  lapply Hinv; clear Hinv.
  - intros Hinv. lapply Hinv; clear Hinv.
    + intros Hinv. specialize (Hinv schedule paths s0).
      lapply Hinv; clear Hinv.
      * intros Hinv.
        destruct (forEachAsync _ _ _ _ _ _) as [s|error s pending].
        -- destruct Hinv as (Hlow & Hhigh & Hother). simpl in Hhigh.
           repeat split; [lia | lia | exact Hother].
        -- destruct Hinv as (queue & inflight & s1 & i & op & HI & Hop
                             & Hset & ->).
           destruct HI as (Hlow & Hhigh & Hother).
           destruct (settle_counters op s1) as (Ho & Hc).
           rewrite Hset in Ho, Hc. simpl in Ho, Hc.
           destruct Hc as [Hc|[Hc _]]; [|discriminate].
           apply lookup_lt_Some in Hop as Hlt.
           rewrite length_app in Hhigh.
           rewrite length_delete by eauto.
           repeat split; [lia | lia | congruence].
      * unfold countingInv. simpl. repeat split; lia.
    + intros queue inflight s i op (Hlow & Hhigh & Hother) Hop Hok.
      destruct (settle_counters op s) as (Ho & Hc).
      apply lookup_lt_Some in Hop as Hlt.
      unfold countingInv. rewrite length_app in *.
      rewrite length_delete by eauto.
      repeat split; [| |congruence]; destruct Hc as [Hc|[_ Hc]]; lia.
  - intros x queue inflight s (Hlow & Hhigh & Hother) _.
    destruct (begin_counters x s) as (Hc & Ho).
    unfold countingInv. rewrite Hc, Ho, <- app_assoc.
    rewrite !length_app in *. simpl in *. repeat split; assumption.
Qed.

(** The operations a rejected phase leaves in flight still complete;
    each adds at most one. *)
Lemma background_bounds schedule remaining pending s :
  (counter s
   <= counter (background settle schedule remaining pending s)
   <= counter s + Z.of_nat (length pending))%Z /\
  other (background settle schedule remaining pending s) = other s.
Proof.
  revert schedule pending s.
  induction remaining as [|n IH]; intros schedule pending s; simpl.
  - split; [lia|reflexivity].
  - destruct (pending !! pick schedule pending) as [op|] eqn:Hop.
    + apply lookup_lt_Some in Hop as Hlt.
      specialize (IH (tl schedule) (delete (pick schedule pending) pending)
                    (settle op s).2).
      rewrite length_delete in IH by eauto.
      destruct (settle_counters op s) as (Ho & Hc).
      destruct IH as (Hbounds & Hother).
      split; [|congruence].
      destruct Hc as [Hc|[_ Hc]]; lia.
    + split; [lia|reflexivity].
Qed.
End CountingPhase.

Lemma deleteFileSettle_counters path s :
  deletedFolders (deleteFileSettle path s).2 = deletedFolders s /\
  (deletedFiles (deleteFileSettle path s).2 = deletedFiles s \/
   (deleteFileSettle path s).1 = None /\
   deletedFiles (deleteFileSettle path s).2 = (deletedFiles s + 1)%Z).
Proof.
  settle_file path s; simpl; split; try reflexivity.
  - right. split; reflexivity.
  - left. reflexivity.
Qed.

Lemma deleteFolderSettle_counters path s :
  deletedFiles (deleteFolderSettle path s).2 = deletedFiles s /\
  (deletedFolders (deleteFolderSettle path s).2 = deletedFolders s \/
   (deleteFolderSettle path s).1 = None /\
   deletedFolders (deleteFolderSettle path s).2 = (deletedFolders s + 1)%Z).
Proof.
  settle_folder path s; simpl; split; try reflexivity.
  - right. split; reflexivity.
  - left. reflexivity.
Qed.

Section DeleterFacts.
Variable maxParallelism : nat.

Lemma filePhase_logLines schedule files s :
  logLines (terminal (world (promiseState
    (forEachAsync maxParallelism deleteFileBegin deleteFileSettle
       schedule files s)))) = logLines (terminal (world s)).
Proof.
  apply (forEachAsync_preserved maxParallelism deleteFileBegin
           deleteFileSettle
           (fun s' => logLines (terminal (world s')) =
                      logLines (terminal (world s)))).
  - intros x s' HR. exact HR.
  - intros op s' HR. settle_file op s'; simpl.
    + now rewrite logLines_verbose.
    + exact HR.
  - reflexivity.
Qed.

Lemma folderPhase_logLines schedule folders s :
  logLines (terminal (world (promiseState
    (forEachAsync maxParallelism deleteFolderBegin deleteFolderSettle
       schedule folders s)))) = logLines (terminal (world s)).
Proof.
  apply (forEachAsync_preserved maxParallelism deleteFolderBegin
           deleteFolderSettle
           (fun s' => logLines (terminal (world s')) =
                      logLines (terminal (world s)))).
  - intros x s' HR. exact HR.
  - intros op s' HR. settle_folder op s'; simpl.
    + now rewrite logLines_verbose.
    + exact HR.
  - reflexivity.
Qed.

Lemma filePhase_counters schedule files s0 :
  match forEachAsync maxParallelism deleteFileBegin deleteFileSettle
          schedule files s0 with
  | Resolved s =>
      (deletedFiles s0 <= deletedFiles s
       <= deletedFiles s0 + Z.of_nat (length files))%Z /\
      deletedFolders s = deletedFolders s0
  | Rejected _ s pending =>
      (deletedFiles s0 <= deletedFiles s)%Z /\
      (deletedFiles s + Z.of_nat (length pending)
       < deletedFiles s0 + Z.of_nat (length files))%Z /\
      deletedFolders s = deletedFolders s0
  end.
Proof.
  apply (countingPhase_bounds maxParallelism deleteFileBegin
           deleteFileSettle deletedFiles deletedFolders).
  - intros path s. split; reflexivity.
  - apply deleteFileSettle_counters.
Qed.

Lemma folderPhase_counters schedule folders s0 :
  match forEachAsync maxParallelism deleteFolderBegin deleteFolderSettle
          schedule folders s0 with
  | Resolved s =>
      (deletedFolders s0 <= deletedFolders s
       <= deletedFolders s0 + Z.of_nat (length folders))%Z /\
      deletedFiles s = deletedFiles s0
  | Rejected _ s pending =>
      (deletedFolders s0 <= deletedFolders s)%Z /\
      (deletedFolders s + Z.of_nat (length pending)
       < deletedFolders s0 + Z.of_nat (length folders))%Z /\
      deletedFiles s = deletedFiles s0
  end.
Proof.
  apply (countingPhase_bounds maxParallelism deleteFolderBegin
           deleteFolderSettle deletedFolders deletedFiles).
  - intros path s. split; reflexivity.
  - apply deleteFolderSettle_counters.
Qed.

Lemma deleteFilesInner_counters schedules pathsToDelete w :
  let s := finalState (_deleteFilesInnerAsync maxParallelism schedules
                         pathsToDelete w) in
  (0 <= deletedFiles s
   <= Z.of_nat (length (filesToDelete pathsToDelete)))%Z /\
  (0 <= deletedFolders s
   <= Z.of_nat (length (foldersToDelete pathsToDelete)))%Z.
Proof.
  unfold _deleteFilesInnerAsync.
  pose proof (filePhase_counters schedules.1 (filesToDelete pathsToDelete)
                {| world := w; deletedFiles := 0; deletedFolders := 0 |})
    as Hfiles.
  destruct (forEachAsync _ deleteFileBegin _ _ _ _) as [s1|error s1 pending];
    simpl in *; [|lia].
  pose proof (folderPhase_counters schedules.2
                (foldersToDelete pathsToDelete) s1) as Hfolders.
  destruct (forEachAsync _ deleteFolderBegin _ _ _ _) as [s2|error s2 pending];
    simpl in *; [|lia].
  destruct (report_counters s2) as [-> ->]. lia.
Qed.

(** Over a whole run of the deleter the report is the only line written
    to the log. *)
Lemma deleteFilesInner_logLines schedules pathsToDelete w :
  match _deleteFilesInnerAsync maxParallelism schedules pathsToDelete w with
  | Returned s =>
      logLines (terminal (world s)) =
      logLines (terminal w)
        ++ specifiedReport (deletedFiles s) (deletedFolders s)
  | Threw _ s => logLines (terminal (world s)) = logLines (terminal w)
  end.
Proof.
  pose proof (deleteFilesInner_counters schedules pathsToDelete w)
    as Hbounds.
  unfold _deleteFilesInnerAsync in *.
  pose proof (filePhase_logLines schedules.1 (filesToDelete pathsToDelete)
                {| world := w; deletedFiles := 0; deletedFolders := 0 |})
    as Hfiles.
  destruct (forEachAsync _ deleteFileBegin _ _ _ _) as [s1|error s1 pending];
    simpl in Hfiles; [|exact Hfiles].
  pose proof (folderPhase_logLines schedules.2
                (foldersToDelete pathsToDelete) s1) as Hfolders.
  destruct (forEachAsync _ deleteFolderBegin _ _ _ _) as [s2|error s2 pending];
    simpl in Hfolders; [|congruence].
  simpl in Hbounds. destruct (report_counters s2) as [Hrf Hrd].
  rewrite Hrf, Hrd in *.
  rewrite report_logLines by lia. congruence.
Qed.

(** C7. The reporter writes nothing when both counters are zero and
    otherwise exactly one line, "Deleted N file(s) and M folder(s)", each
    noun singular for a count of one and plural otherwise.  This holds of
    the closing [if] of the deleter on every outcome, and, over a whole
    run of the deleter, that line is the only line written to the log:
    a run that returns adds the report of its outcome, a run that throws
    adds nothing. *)
Theorem C7_report_wording schedules pathsToDelete w :
  (forall s,
      (0 <= deletedFiles s)%Z ->
      (0 <= deletedFolders s)%Z ->
      logLines (terminal (world (report s))) =
      logLines (terminal (world s))
        ++ specifiedReport (deletedFiles s) (deletedFolders s)) /\
  match _deleteFilesInnerAsync maxParallelism schedules pathsToDelete w with
  | Returned s =>
      logLines (terminal (world s)) =
      logLines (terminal w)
        ++ specifiedReport (deletedFiles s) (deletedFolders s)
  | Threw _ s => logLines (terminal (world s)) = logLines (terminal w)
  end.
Proof.
  split; [apply report_logLines | apply deleteFilesInner_logLines].
Qed.

(** C10. Each callback of the deleter, when it is entered, leaves both
    counters alone, and when its deletion completes leaves the counter
    of the other phase alone and adds one to its own counter or
    nothing.  So a run that starts from zero ends, whether it returns
    or throws, with [0 <= filesDeleted <= |filesToDelete|] and
    [0 <= foldersDeleted <= |foldersToDelete|]; and when a phase is
    rejected, the deletions it leaves in flight cannot push its counter
    past the size of its set either. *)
Theorem C10_counters_bounded schedules pathsToDelete w :
  (forall path s,
      deletedFiles (deleteFileBegin path s).1 = deletedFiles s /\
      deletedFolders (deleteFileBegin path s).1 = deletedFolders s /\
      deletedFiles (deleteFolderBegin path s).1 = deletedFiles s /\
      deletedFolders (deleteFolderBegin path s).1 = deletedFolders s /\
      deletedFolders (deleteFileSettle path s).2 = deletedFolders s /\
      (deletedFiles (deleteFileSettle path s).2 = deletedFiles s \/
       deletedFiles (deleteFileSettle path s).2 = (deletedFiles s + 1)%Z) /\
      deletedFiles (deleteFolderSettle path s).2 = deletedFiles s /\
      (deletedFolders (deleteFolderSettle path s).2 = deletedFolders s \/
       deletedFolders (deleteFolderSettle path s).2
       = (deletedFolders s + 1)%Z)) /\
  (let s := finalState (_deleteFilesInnerAsync maxParallelism schedules
                          pathsToDelete w) in
   (0 <= deletedFiles s
    <= Z.of_nat (length (filesToDelete pathsToDelete)))%Z /\
   (0 <= deletedFolders s
    <= Z.of_nat (length (foldersToDelete pathsToDelete)))%Z) /\
  (forall later remaining s0,
      match forEachAsync maxParallelism deleteFileBegin deleteFileSettle
              schedules.1 (filesToDelete pathsToDelete) s0 with
      | Resolved _ => True
      | Rejected _ s pending =>
          (deletedFiles
             (background deleteFileSettle later remaining pending s)
           <= deletedFiles s0
              + Z.of_nat (length (filesToDelete pathsToDelete)))%Z
      end /\
      match forEachAsync maxParallelism deleteFolderBegin
              deleteFolderSettle schedules.2
              (foldersToDelete pathsToDelete) s0 with
      | Resolved _ => True
      | Rejected _ s pending =>
          (deletedFolders
             (background deleteFolderSettle later remaining pending s)
           <= deletedFolders s0
              + Z.of_nat (length (foldersToDelete pathsToDelete)))%Z
      end).
Proof.
  split; [|split].
  - intros path s.
    destruct (deleteFileSettle_counters path s) as (Hf1 & Hf2).
    destruct (deleteFolderSettle_counters path s) as (Hd1 & Hd2).
    repeat split; try reflexivity; try assumption; tauto.
  - apply deleteFilesInner_counters.
  - intros later remaining s0. split.
    + pose proof (filePhase_counters schedules.1
                    (filesToDelete pathsToDelete) s0) as Hphase.
      destruct (forEachAsync _ _ _ _ _ _) as [s|error s pending];
        [exact I|].
      pose proof (background_bounds deleteFileSettle deletedFiles
                    deletedFolders deleteFileSettle_counters
                    later remaining pending s) as Hback.
      lia.
    + pose proof (folderPhase_counters schedules.2
                    (foldersToDelete pathsToDelete) s0) as Hphase.
      destruct (forEachAsync _ _ _ _ _ _) as [s|error s pending];
        [exact I|].
      pose proof (background_bounds deleteFolderSettle deletedFolders
                    deletedFiles deleteFolderSettle_counters
                    later remaining pending s) as Hback.
      lia.
Qed.
End DeleterFacts.

(** ** What a deletion phase does to the disk *)

Section RemovalPhase.
Variable concurrency : nat.
Variable begin : string -> DeleterState -> DeleterState * string.
Variable settle : string -> DeleterState -> option Error * DeleterState.

(** Entering the callback hands the path itself to the filesystem and
    leaves the disk alone. *)
Hypothesis begin_disk : forall path s,
  (begin path s).2 = path /\
  disk (world (begin path s).1) = disk (world s).

(** A completed deletion leaves the disk as it was or removes its
    target; when the callback does not throw, the target is gone. *)
Hypothesis settle_disk : forall path s,
  (disk (world (settle path s).2) = disk (world s) \/
   disk (world (settle path s).2) = removeEntry path (disk (world s))) /\
  ((settle path s).1 = None ->
   entries (disk (world (settle path s).2)) !! path = None).

Lemma removeEntry_shrinks path fs q :
  entries (removeEntry path fs) !! q = None \/
  entries (removeEntry path fs) !! q = entries fs !! q.
Proof.
  simpl. destruct (decide (path = q)) as [->|Hne].
  - left. apply lookup_delete_eq.
  - right. now apply lookup_delete_ne.
Qed.

Lemma settle_shrinks path s q :
  entries (disk (world (settle path s).2)) !! q = None \/
  entries (disk (world (settle path s).2)) !! q =
    entries (disk (world s)) !! q.
Proof.
  destruct (settle_disk path s) as [[-> | ->] _].
  - now right.
  - apply removeEntry_shrinks.
Qed.

Lemma settle_frame path s q :
  q <> path ->
  entries (disk (world (settle path s).2)) !! q =
    entries (disk (world s)) !! q.
Proof.
  intros Hne. destruct (settle_disk path s) as [[-> | ->] _].
  - reflexivity.
  - simpl. now apply lookup_delete_ne.
Qed.

Lemma settle_denied path s :
  denied (disk (world (settle path s).2)) = denied (disk (world s)).
Proof. now destruct (settle_disk path s) as [[-> | ->] _]. Qed.

(** The paths still queued or in flight are paths of the batch; a path
    of the batch that is neither is gone from the disk. *)
Definition removalInv (paths : list string) (s0 : DeleterState)
    (queue inflight : list string) (s : DeleterState) : Prop :=
  (forall p, p ∈ inflight ++ queue -> p ∈ paths) /\
  (forall p, p ∈ paths ->
     p ∈ inflight ++ queue \/ entries (disk (world s)) !! p = None) /\
  (forall q, q ∉ paths ->
     entries (disk (world s)) !! q = entries (disk (world s0)) !! q) /\
  (forall q, entries (disk (world s)) !! q = None \/
     entries (disk (world s)) !! q = entries (disk (world s0)) !! q) /\
  denied (disk (world s)) = denied (disk (world s0)).

Lemma removalInv_begin paths s0 x queue inflight s :
  removalInv paths s0 (x :: queue) inflight s ->
  removalInv paths s0 queue (inflight ++ [(begin x s).2]) (begin x s).1.
Proof.
  intros HI. destruct (begin_disk x s) as [-> Hdisk].
  unfold removalInv in *. rewrite Hdisk, <- app_assoc. exact HI.
Qed.

Lemma removalInv_settle paths s0 queue inflight s i op :
  removalInv paths s0 queue inflight s ->
  inflight !! i = Some op ->
  (settle op s).1 = None ->
  removalInv paths s0 queue (delete i inflight) (settle op s).2.
Proof.
  intros (Hsub & Hgone & Hframe & Hshrink & Hdenied) Hop Hok.
  assert (op ∈ paths) as Hin.
  { apply Hsub, elem_of_app. left. eapply list_elem_of_lookup_2, Hop. }
  repeat split.
  - intros p Hp. apply Hsub. rewrite elem_of_app in *.
    destruct Hp as [Hp|Hp]; [left|now right].
    eapply list_elem_of_delete_inv, Hp.
  - intros p Hp. destruct (decide (p = op)) as [->|Hne].
    + right. now apply (proj2 (settle_disk op s)).
    + destruct (Hgone p Hp) as [Hpend|Habsent].
      * left. rewrite elem_of_app in *.
        destruct Hpend as [Hpend|Hpend]; [left|now right].
        now apply (elem_of_delete_other _ _ _ op).
      * right. destruct (settle_shrinks op s p) as [H|H]; congruence.
  - intros q Hq. rewrite settle_frame; [now apply Hframe|].
    intros ->. contradiction.
  - intros q. destruct (settle_shrinks op s q) as [H|H]; [now left|].
    rewrite H. apply Hshrink.
  - now rewrite settle_denied.
Qed.

(** Whatever the schedule: the phase touches no path outside the batch,
    never adds an entry, leaves the permissions alone, and, when it
    resolves, every path of the batch is gone. *)
Lemma removalPhase_disk schedule paths s0 :
  let promise := forEachAsync concurrency begin settle schedule paths s0 in
  let s := promiseState promise in
  (forall q, q ∉ paths ->
     entries (disk (world s)) !! q = entries (disk (world s0)) !! q) /\
  (forall q, entries (disk (world s)) !! q = None \/
     entries (disk (world s)) !! q = entries (disk (world s0)) !! q) /\
  denied (disk (world s)) = denied (disk (world s0)) /\
  match promise with
  | Resolved _ => forall p, p ∈ paths -> entries (disk (world s)) !! p = None
  | Rejected _ _ _ => True
  end.
Proof.
  intros promise s.
  pose proof (forEachAsync_invariant concurrency begin settle
                (removalInv paths s0)) as Hinv.
  specialize (Hinv ltac:(intros; now apply removalInv_begin)
                   ltac:(intros; now apply removalInv_settle)
                   schedule paths s0).
  fold promise in Hinv. subst s.
  destruct promise as [s1|error s1 pending]; simpl.
  - destruct Hinv as (_ & Hgone & Hframe & Hshrink & Hdenied).
    { unfold removalInv. simpl. repeat split; eauto. }
    repeat split; try assumption.
    intros p Hp. destruct (Hgone p Hp) as [Hnil|Hnone]; [|exact Hnone].
    now apply elem_of_nil in Hnil.
  - destruct Hinv as (queue & inflight & s2 & i & op & HI & Hop & Hset & _).
    { unfold removalInv. simpl. repeat split; eauto. }
    destruct HI as (Hsub & Hgone & Hframe & Hshrink & Hdenied).
    assert (op ∈ paths) as Hin.
    { apply Hsub, elem_of_app. left. eapply list_elem_of_lookup_2, Hop. }
    assert (s1 = (settle op s2).2) as -> by now rewrite Hset.
    repeat split; try exact I.
    + intros q Hq. rewrite settle_frame; [now apply Hframe|].
      intros ->. contradiction.
    + intros q. destruct (settle_shrinks op s2 q) as [H|H]; [now left|].
      rewrite H. apply Hshrink.
    + now rewrite settle_denied.
Qed.
End RemovalPhase.

Lemma deleteFileBegin_disk path s :
  (deleteFileBegin path s).2 = path /\
  disk (world (deleteFileBegin path s).1) = disk (world s).
Proof. split; reflexivity. Qed.

Lemma deleteFolderBegin_disk path s :
  (deleteFolderBegin path s).2 = path /\
  disk (world (deleteFolderBegin path s).1) = disk (world s).
Proof. split; reflexivity. Qed.

Lemma deleteFileSettle_disk path s :
  (disk (world (deleteFileSettle path s).2) = disk (world s) \/
   disk (world (deleteFileSettle path s).2) =
     removeEntry path (disk (world s))) /\
  ((deleteFileSettle path s).1 = None ->
   entries (disk (world (deleteFileSettle path s).2)) !! path = None).
Proof.
  pose proof (deleteFileAsync_inv path (disk (world s))) as Hinv.
  settle_file path s; rewrite Hfs in Hinv; simpl.
  - destruct Hinv as (_ & _ & ->). split; [now right|].
    intros _. apply lookup_delete_eq.
  - split; [now left|]. destruct (isNotExistError error); [|discriminate].
    now intros _.
Qed.

Lemma deleteFolderSettle_disk path s :
  (disk (world (deleteFolderSettle path s).2) = disk (world s) \/
   disk (world (deleteFolderSettle path s).2) =
     removeEntry path (disk (world s))) /\
  ((deleteFolderSettle path s).1 = None ->
   entries (disk (world (deleteFolderSettle path s).2)) !! path = None).
Proof.
  pose proof (deleteFolderAsync_inv path (disk (world s))) as Hinv.
  settle_folder path s; rewrite Hfs in Hinv; simpl.
  - destruct Hinv as (_ & _ & _ & ->). split; [now right|].
    intros _. apply lookup_delete_eq.
  - split; [now left|]. destruct (isNotExistError error); [|discriminate].
    now intros _.
Qed.

(** A callback rethrows only what is not a not-exist error. *)
Lemma deleteFileSettle_throws path s error s' :
  deleteFileSettle path s = (Some error, s') -> isNotExistError error = false.
Proof.
  settle_file path s; intros Heq; [discriminate|].
  destruct (isNotExistError error0) eqn:Hne; congruence.
Qed.

Lemma deleteFolderSettle_throws path s error s' :
  deleteFolderSettle path s = (Some error, s') -> isNotExistError error = false.
Proof.
  settle_folder path s; intros Heq; [discriminate|].
  destruct (isNotExistError error0) eqn:Hne; congruence.
Qed.

Section FanOutOfOne.
Context {A P S : Type}.
Variable concurrency : nat.
Variable begin : A -> S -> S * P.
Variable settle : P -> S -> option Error * S.

(** A batch of one entry: the callback is entered and completes. *)
Lemma forEachAsync_singleton schedule x s :
  forEachAsync concurrency begin settle schedule [x] s =
  match settle (begin x s).2 (begin x s).1 with
  | (Some error, s') => Rejected error s' []
  | (None, s') => Resolved s'
  end.
Proof.
  assert (forall op : P, pick schedule [op] = 0) as Hpick.
  { intros op. unfold pick. apply Nat.mod_1_r. }
  unfold forEachAsync. cbn -[pick]. rewrite hasCapacity_nil.
  destruct (begin x s) as [s1 op]. cbn -[pick]. rewrite Hpick. simpl.
  destruct (settle op s1) as [[error|] s2]; reflexivity.
Qed.

Lemma forEachAsync_nil schedule s :
  forEachAsync concurrency begin settle schedule [] s = Resolved s.
Proof. reflexivity. Qed.
End FanOutOfOne.

Section DeleterRuns.
Variable maxParallelism : nat.

(** Whoever throws out of a phase throws something other than a
    not-exist error. *)
Lemma filePhase_throws schedule files s error s' pending :
  forEachAsync maxParallelism deleteFileBegin deleteFileSettle
    schedule files s = Rejected error s' pending ->
  isNotExistError error = false.
Proof.
  intros Hrun.
  pose proof (forEachAsync_invariant maxParallelism deleteFileBegin
                deleteFileSettle (fun _ _ _ => True)) as Hinv.
  specialize (Hinv ltac:(auto) ltac:(auto) schedule files s I).
  rewrite Hrun in Hinv.
  destruct Hinv as (_ & _ & s0 & _ & op & _ & _ & Hset & _).
  eapply deleteFileSettle_throws, Hset.
Qed.

Lemma folderPhase_throws schedule folders s error s' pending :
  forEachAsync maxParallelism deleteFolderBegin deleteFolderSettle
    schedule folders s = Rejected error s' pending ->
  isNotExistError error = false.
Proof.
  intros Hrun.
  pose proof (forEachAsync_invariant maxParallelism deleteFolderBegin
                deleteFolderSettle (fun _ _ _ => True)) as Hinv.
  specialize (Hinv ltac:(auto) ltac:(auto) schedule folders s I).
  rewrite Hrun in Hinv.
  destruct Hinv as (_ & _ & s0 & _ & op & _ & _ & Hset & _).
  eapply deleteFolderSettle_throws, Hset.
Qed.

(** C2. A target that does not exist when its deletion completes makes
    the callback neither throw nor count: for a file and for a folder
    alike, the callback completes without an error and both counters
    (and the disk) are as before.  And no run of the deleter ever
    throws a not-exist error at its caller. *)
Theorem C2_missing_target_tolerated schedules pathsToDelete w :
  (forall path s,
      entries (disk (world s)) !! path = None ->
      (deleteFileSettle path s).1 = None /\
      deletedFiles (deleteFileSettle path s).2 = deletedFiles s /\
      deletedFolders (deleteFileSettle path s).2 = deletedFolders s /\
      disk (world (deleteFileSettle path s).2) = disk (world s) /\
      (deleteFolderSettle path s).1 = None /\
      deletedFiles (deleteFolderSettle path s).2 = deletedFiles s /\
      deletedFolders (deleteFolderSettle path s).2 = deletedFolders s /\
      disk (world (deleteFolderSettle path s).2) = disk (world s)) /\
  match _deleteFilesInnerAsync maxParallelism schedules pathsToDelete w with
  | Returned _ => True
  | Threw error _ => isNotExistError error = false
  end.
Proof.
  split.
  - intros path s Hmissing.
    unfold deleteFileSettle, deleteFolderSettle.
    rewrite (deleteFileAsync_missing _ _ Hmissing).
    rewrite (deleteFolderAsync_missing _ _ Hmissing).
    simpl. repeat split; reflexivity.
  - unfold _deleteFilesInnerAsync.
    destruct (forEachAsync _ deleteFileBegin _ _ _ _)
      as [s1|error s1 pending] eqn:Hfiles.
    + destruct (forEachAsync _ deleteFolderBegin _ _ _ _)
        as [s2|error s2 pending] eqn:Hfolders; [exact I|].
      eapply folderPhase_throws, Hfolders.
    + eapply filePhase_throws, Hfiles.
Qed.
End DeleterRuns.

Section AllPresent.
Variable maxParallelism : nat.

(** Every path still queued or in flight is a regular file that may be
    removed; each completed deletion has been counted. *)
Definition presentInv (total : nat) (s0 : DeleterState)
    (queue inflight : list string) (s : DeleterState) : Prop :=
  NoDup (inflight ++ queue) /\
  (forall p, p ∈ inflight ++ queue ->
     entries (disk (world s)) !! p = Some DirentFile /\
     p ∉ denied (disk (world s))) /\
  (deletedFiles s + Z.of_nat (length (inflight ++ queue))
   = deletedFiles s0 + Z.of_nat total)%Z /\
  deletedFolders s = deletedFolders s0.

(** When every file of the batch exists and may be removed, the file
    phase resolves under every schedule and counts each file once. *)
Lemma filePhase_all_present schedule files s0 :
  NoDup files ->
  (forall p, p ∈ files ->
     entries (disk (world s0)) !! p = Some DirentFile /\
     p ∉ denied (disk (world s0))) ->
  exists s,
    forEachAsync maxParallelism deleteFileBegin deleteFileSettle
      schedule files s0 = Resolved s /\
    deletedFiles s = (deletedFiles s0 + Z.of_nat (length files))%Z /\
    deletedFolders s = deletedFolders s0.
Proof.
  intros Hnodup Hpresent.
  pose proof (forEachAsync_invariant maxParallelism deleteFileBegin
                deleteFileSettle (presentInv (length files) s0)) as Hinv.
  assert (forall queue inflight s i op,
             presentInv (length files) s0 queue inflight s ->
             inflight !! i = Some op ->
             exists fs, deleteFileAsync op true (disk (world s)) = inr fs)
    as Hsucceeds.
  { intros queue inflight s i op (_ & Hall & _) Hop.
    destruct (Hall op) as [Hfile Hallowed].
    { apply elem_of_app. left. eapply list_elem_of_lookup_2, Hop. }
    unfold deleteFileAsync. rewrite Hfile.
    rewrite bool_decide_eq_false_2 by exact Hallowed. eauto. }
  specialize (Hinv ltac:(intros x queue inflight s HI _; unfold presentInv;
                         simpl; rewrite <- app_assoc; exact HI)).
  assert (presentInv (length files) s0 files [] s0) as Hinit.
  { unfold presentInv. simpl. split; [exact Hnodup|].
    split; [exact Hpresent|]. split; reflexivity. }
  lapply Hinv.
  - clear Hinv. intros Hinv. specialize (Hinv schedule files s0 Hinit).
    destruct (forEachAsync _ _ _ _ _ _) as [s|error s pending].
    + exists s. destruct Hinv as (_ & _ & Hcount & Hfolders).
      simpl in Hcount. split; [reflexivity|]. split; [lia|exact Hfolders].
    + destruct Hinv as (queue & inflight & s1 & i & op & HI & Hop & Hset & _).
      destruct (Hsucceeds _ _ _ _ _ HI Hop) as [fs Hfs].
      unfold deleteFileSettle in Hset. rewrite Hfs in Hset. discriminate.
  - clear Hinv Hinit. intros queue inflight s i op HI Hop _.
    destruct (Hsucceeds _ _ _ _ _ HI Hop) as [fs Hfs].
    pose proof (deleteFileAsync_inv op (disk (world s))) as Hfsinv.
    rewrite Hfs in Hfsinv. destruct Hfsinv as (_ & _ & ->).
    destruct HI as (Hnd & Hall & Hcount & Hfolders).
    destruct (delete_lookup_split _ _ _ Hop) as (l1 & l2 & -> & ->).
    unfold presentInv, deleteFileSettle. rewrite Hfs. simpl.
    rewrite <- !app_assoc in *. simpl in *.
    apply NoDup_app in Hnd as (Hnd1 & Hnot1 & Hnd2).
    apply NoDup_cons in Hnd2 as (Hnot2 & Hnd2).
    assert (forall p, p ∈ l1 ++ l2 ++ queue ->
              p ∈ l1 ++ op :: l2 ++ queue /\ p <> op) as Hother.
    { intros p Hp. rewrite elem_of_app in Hp.
      rewrite elem_of_app, elem_of_cons. split; [tauto|].
      intros ->. destruct Hp as [Hp|Hp]; [|contradiction].
      apply (Hnot1 op Hp). now left. }
    split; [|split; [|split]].
    + apply NoDup_app. split; [assumption|]. split; [|assumption].
      intros p Hp1 Hp2. apply (Hnot1 p Hp1). now right.
    + intros p Hp. destruct (Hother p Hp) as [Hin Hne].
      rewrite lookup_delete_ne by congruence. now apply Hall.
    + rewrite length_app in *. simpl in *. lia.
    + exact Hfolders.
Qed.
End AllPresent.

Section BuildScenario.
Import Scenario.
Variable maxParallelism : nat.

(** C1. The batch of the two files [/proj/build/a.txt] and
    [/proj/build/b.txt] and the folder [/proj/build]: when the three
    targets exist with their kinds, none is protected, and the folder
    holds nothing but the two files, the deleter returns under every
    schedule and every concurrency bound with two files and one folder
    deleted, and the only line it adds to the log is
    "Deleted 2 files and 1 folder". *)
Theorem C1_build_batch_outcome schedules w :
  entries (disk w) !! a_txt = Some DirentFile ->
  entries (disk w) !! b_txt = Some DirentFile ->
  entries (disk w) !! build = Some DirentDirectory ->
  a_txt ∉ denied (disk w) ->
  b_txt ∉ denied (disk w) ->
  build ∉ denied (disk w) ->
  (forall path dirent,
      entries (disk w) !! path = Some dirent ->
      isInside build path = true -> path = a_txt \/ path = b_txt) ->
  exists s,
    _deleteFilesInnerAsync maxParallelism schedules buildPaths w =
      Returned s /\
    deletedFiles s = 2%Z /\
    deletedFolders s = 1%Z /\
    logLines (terminal (world s)) =
      logLines (terminal w) ++ ["Deleted 2 files and 1 folder"].
Proof.
  intros Ha Hb Hbuild Hna Hnb Hnbuild Honly.
  pose proof (deleteFilesInner_logLines maxParallelism schedules
                buildPaths w) as Hlog.
  unfold _deleteFilesInnerAsync in *. simpl filesToDelete in *.
  simpl foldersToDelete in *.
  set (s0 := {| world := w; deletedFiles := 0%Z; deletedFolders := 0%Z |})
    in *.
  destruct (filePhase_all_present maxParallelism schedules.1
              [a_txt; b_txt] s0) as (s1 & Hrun & Hfiles & Hfolders).
  { repeat constructor; rewrite ?elem_of_cons, ?elem_of_nil;
      unfold a_txt, b_txt; intuition discriminate. }
  { intros p Hp. rewrite !elem_of_cons, elem_of_nil in Hp.
    destruct Hp as [->|[->|[]]]; split; assumption. }
  pose proof (removalPhase_disk maxParallelism deleteFileBegin
                deleteFileSettle deleteFileBegin_disk deleteFileSettle_disk
                schedules.1 [a_txt; b_txt] s0) as Hdisk.
  rewrite Hrun in *. simpl in Hdisk.
  destruct Hdisk as (Hframe & Hshrink & Hdenied & Hgone).
  rewrite forEachAsync_singleton in *.
  unfold deleteFolderBegin, deleteFolderSettle in *. simpl in *.
  assert (deleteFolderAsync build (disk (world s1)) =
          inr (removeEntry build (disk (world s1)))) as Hfolder.
  { unfold deleteFolderAsync. rewrite Hframe, Hbuild.
    - rewrite bool_decide_eq_false_2 by now rewrite Hdenied.
      assert (hasEntriesInside build (disk (world s1)) = false) as ->;
        [|reflexivity].
      apply hasEntriesInside_false. intros path dirent Hpath.
      destruct (isInside build path) eqn:Hin; [|reflexivity].
      destruct (Hshrink path) as [Hnone|Hsame]; [congruence|].
      rewrite Hsame in Hpath.
      assert (path ∈ [a_txt; b_txt]) as Hmem.
      { rewrite !elem_of_cons.
        destruct (Honly _ _ Hpath Hin); [now left | right; now left]. }
      rewrite (Hgone path Hmem) in Hsame. congruence.
    - rewrite !elem_of_cons, elem_of_nil. unfold a_txt, b_txt, build.
      intuition discriminate. }
  rewrite Hfolder in *. simpl in *.
  eexists. split; [reflexivity|].
  unfold report in *. simpl in *. rewrite Hfiles, Hfolders in *.
  simpl in *. repeat split. exact Hlog.
Qed.
End BuildScenario.

Lemma project_inside_build path dirent :
  entries Scenario.project !! path = Some dirent ->
  isInside Scenario.build path = true ->
  path = Scenario.a_txt \/ path = Scenario.b_txt.
Proof.
  unfold Scenario.project. simpl. intros Hlook Hin.
  rewrite lookup_insert in Hlook. case_decide as Hbuild.
  { subst path. vm_compute in Hin. discriminate. }
  rewrite lookup_insert in Hlook. case_decide as Ha; [now left|].
  rewrite lookup_insert in Hlook. case_decide as Hb; [now right|].
  rewrite lookup_insert in Hlook. case_decide as Hlocked.
  { subst path. vm_compute in Hin. discriminate. }
  rewrite lookup_empty in Hlook. discriminate.
Qed.

Lemma C1_build_batch_outcome_witness :
  exists s,
    _deleteFilesInnerAsync 100 ([1], []) Scenario.buildPaths
      (Scenario.fresh Scenario.project) = Returned s /\
    deletedFiles s = 2%Z /\
    deletedFolders s = 1%Z /\
    logLines (terminal (world s)) =
      logLines (terminal (Scenario.fresh Scenario.project))
        ++ ["Deleted 2 files and 1 folder"].
Proof.
  apply (C1_build_batch_outcome 100 ([1], [])
           (Scenario.fresh Scenario.project)).
  - reflexivity.
  - reflexivity.
  - reflexivity.
  - simpl. intros Hin. apply elem_of_singleton in Hin. discriminate.
  - simpl. intros Hin. apply elem_of_singleton in Hin. discriminate.
  - simpl. intros Hin. apply elem_of_singleton in Hin. discriminate.
  - apply project_inside_build.
Defined.

Lemma C2_missing_target_tolerated_witness :
  let s := {| world := Scenario.fresh Scenario.project;
              deletedFiles := 1%Z; deletedFolders := 0%Z |} in
  entries (disk (world s)) !! "/proj/build/gone.txt" = None /\
  (deleteFileSettle "/proj/build/gone.txt" s).1 = None /\
  deletedFiles (deleteFileSettle "/proj/build/gone.txt" s).2 = 1%Z /\
  (deleteFolderSettle "/proj/build/gone.txt" s).1 = None /\
  deletedFolders (deleteFolderSettle "/proj/build/gone.txt" s).2 = 0%Z.
Proof.
  intros s.
  assert (entries (disk (world s)) !! "/proj/build/gone.txt" = None)
    as Hmissing by reflexivity.
  split; [exact Hmissing|].
  pose proof (proj1 (C2_missing_target_tolerated 100 ([], [])
                       Scenario.buildPaths (Scenario.fresh Scenario.project))
                "/proj/build/gone.txt" s Hmissing) as Hclaim.
  tauto.
Defined.

(** ** The journal of a phase *)

Section JournalPhase.
Variable concurrency : nat.
Variable begin : string -> DeleterState -> DeleterState * string.
Variable settle : string -> DeleterState -> option Error * DeleterState.
(** The filesystem call the phase makes for a path. *)
Variable call : string -> FsCall.

Hypothesis call_inj : forall p q, call p = call q -> p = q.

Hypothesis begin_journal : forall path s,
  (begin path s).2 = path /\
  journal (world (begin path s).1) =
    journal (world s) ++ [Issued (call path)].

Hypothesis settle_journal : forall path s,
  exists failure,
    journal (world (settle path s).2) =
      journal (world s) ++ [Completed (call path) failure].

(** An event of this phase. *)
Definition ofPhase (event : FsEvent) : Prop :=
  exists path, event = Issued (call path) \/
               exists failure, event = Completed (call path) failure.

Definition journalInv (paths : list string) (s0 : DeleterState)
    (queue inflight : list string) (s : DeleterState) : Prop :=
  exists events,
    journal (world s) = journal (world s0) ++ events /\
    Forall ofPhase events /\
    (forall p, p ∈ paths ->
       p ∈ inflight ++ queue \/ completedIn events (call p)) /\
    (forall p, Issued (call p) ∈ events ->
       p ∈ inflight \/ completedIn events (call p)).

Lemma completedIn_app events more c :
  completedIn events c -> completedIn (events ++ more) c.
Proof. intros [f Hf]. exists f. apply elem_of_app. now left. Qed.

Lemma journalInv_begin paths s0 x queue inflight s :
  journalInv paths s0 (x :: queue) inflight s ->
  journalInv paths s0 queue (inflight ++ [(begin x s).2]) (begin x s).1.
Proof.
  intros (events & Hj & Hall & Hpaths & Hissued).
  destruct (begin_journal x s) as [-> Hjournal].
  exists (events ++ [Issued (call x)]). split; [|split; [|split]].
  - rewrite Hjournal, Hj. now rewrite app_assoc.
  - apply Forall_app. split; [exact Hall|].
    constructor; [|constructor]. exists x. now left.
  - intros p Hp. rewrite <- app_assoc. simpl.
    destruct (Hpaths p Hp) as [H|H]; [now left|right].
    now apply completedIn_app.
  - intros p Hp. rewrite elem_of_app in Hp. rewrite elem_of_app.
    destruct Hp as [Hp|Hp].
    + destruct (Hissued p Hp) as [H|H]; [left; now left|right].
      now apply completedIn_app.
    + apply list_elem_of_singleton in Hp. injection Hp as Hp.
      apply call_inj in Hp as ->. left. right. now left.
Qed.

Lemma journalInv_settle paths s0 queue inflight s i op :
  journalInv paths s0 queue inflight s ->
  inflight !! i = Some op ->
  journalInv paths s0 queue (delete i inflight) (settle op s).2.
Proof.
  intros (events & Hj & Hall & Hpaths & Hissued) Hop.
  destruct (settle_journal op s) as [failure Hjournal].
  exists (events ++ [Completed (call op) failure]).
  assert (completedIn (events ++ [Completed (call op) failure]) (call op))
    as Hdone.
  { exists failure. apply elem_of_app. right. now left. }
  split; [|split; [|split]].
  - rewrite Hjournal, Hj. now rewrite app_assoc.
  - apply Forall_app. split; [exact Hall|].
    constructor; [|constructor]. exists op. right. now exists failure.
  - intros p Hp. destruct (decide (p = op)) as [->|Hne]; [now right|].
    destruct (Hpaths p Hp) as [H|H].
    + left. rewrite elem_of_app in *. destruct H as [H|H]; [left|now right].
      now apply (elem_of_delete_other _ _ _ op).
    + right. now apply completedIn_app.
  - intros p Hp. destruct (decide (p = op)) as [->|Hne]; [now right|].
    rewrite elem_of_app in Hp. destruct Hp as [Hp|Hp].
    + destruct (Hissued p Hp) as [H|H].
      * left. now apply (elem_of_delete_other _ _ _ op).
      * right. now apply completedIn_app.
    + apply list_elem_of_singleton in Hp. discriminate.
Qed.

(** Under every schedule the phase appends only events of its own; when
    it resolves, the filesystem has answered for every path of the batch
    and for every call that was issued. *)
Lemma journalPhase schedule paths s0 :
  let promise := forEachAsync concurrency begin settle schedule paths s0 in
  exists events,
    journal (world (promiseState promise)) = journal (world s0) ++ events /\
    Forall ofPhase events /\
    match promise with
    | Resolved _ =>
        forall p, (p ∈ paths -> completedIn events (call p)) /\
                  (Issued (call p) ∈ events -> completedIn events (call p))
    | Rejected _ _ _ => True
    end.
Proof.
  intros promise.
  pose proof (forEachAsync_invariant concurrency begin settle
                (journalInv paths s0)) as Hinv.
  specialize (Hinv ltac:(intros; now apply journalInv_begin)
                   ltac:(intros; now apply journalInv_settle)
                   schedule paths s0).
  fold promise in Hinv.
  assert (journalInv paths s0 paths [] s0) as Hinit.
  { exists []. split; [now rewrite app_nil_r|]. split; [constructor|].
    split; [intros p Hp; now left|].
    intros p Hp. now apply elem_of_nil in Hp. }
  specialize (Hinv Hinit).
  destruct promise as [s|error s pending]; simpl.
  - destruct Hinv as (events & Hj & Hall & Hpaths & Hissued).
    exists events. repeat split; try assumption.
    + intros Hp. destruct (Hpaths p Hp) as [H|H]; [|exact H].
      now apply elem_of_nil in H.
    + intros Hp. destruct (Hissued p Hp) as [H|H]; [|exact H].
      now apply elem_of_nil in H.
  - destruct Hinv as (queue & inflight & s1 & i & op & HI & Hop & Hset & _).
    destruct (journalInv_settle _ _ _ _ _ _ _ HI Hop)
      as (events & Hj & Hall & _).
    rewrite Hset in Hj. exists events. repeat split; assumption.
Qed.
End JournalPhase.

Lemma deleteFileSettle_journal path s :
  exists failure,
    journal (world (deleteFileSettle path s).2) =
      journal (world s) ++ [Completed (CallDeleteFile path) failure].
Proof. settle_file path s; simpl; eauto. Qed.

Lemma deleteFolderSettle_journal path s :
  exists failure,
    journal (world (deleteFolderSettle path s).2) =
      journal (world s) ++ [Completed (CallDeleteFolder path) failure].
Proof. settle_folder path s; simpl; eauto. Qed.

Lemma ofPhase_file events :
  Forall (ofPhase CallDeleteFile) events ->
  Forall (fun event => isFileEvent event = true) events.
Proof.
  intros Hall. eapply Forall_impl; [exact Hall|].
  intros event [path [-> | [failure ->]]]; reflexivity.
Qed.

Lemma ofPhase_folder events :
  Forall (ofPhase CallDeleteFolder) events ->
  Forall (fun event => isFolderEvent event = true) events.
Proof.
  intros Hall. eapply Forall_impl; [exact Hall|].
  intros event [path [-> | [failure ->]]]; reflexivity.
Qed.

Lemma report_journal s : journal (world (report s)) = journal (world s).
Proof. unfold report. now destruct (_ || _). Qed.

Section Barrier.
Variable maxParallelism : nat.

(** C3. The journal of every run of the deleter, returned or thrown, is
    what it was before, then events of file deletions only, then events
    of folder deletions only.  And as soon as there is any folder event,
    hence before the first folder deletion is issued, the filesystem has
    answered for every path of [filesToDelete] and for every file
    deletion that was issued. *)
Theorem C3_file_phase_precedes_folder_phase schedules pathsToDelete w :
  exists fileEvents folderEvents,
    journal (world (finalState
      (_deleteFilesInnerAsync maxParallelism schedules pathsToDelete w))) =
      journal w ++ fileEvents ++ folderEvents /\
    Forall (fun event => isFileEvent event = true) fileEvents /\
    Forall (fun event => isFolderEvent event = true) folderEvents /\
    (folderEvents <> [] ->
     forall path,
       (path ∈ filesToDelete pathsToDelete ->
        completedIn fileEvents (CallDeleteFile path)) /\
       (Issued (CallDeleteFile path) ∈ fileEvents ->
        completedIn fileEvents (CallDeleteFile path))).
Proof.
  unfold _deleteFilesInnerAsync.
  set (s0 := {| world := w; deletedFiles := 0%Z; deletedFolders := 0%Z |}).
  destruct (journalPhase maxParallelism deleteFileBegin deleteFileSettle
              CallDeleteFile ltac:(congruence)
              ltac:(intros; split; reflexivity) deleteFileSettle_journal
              schedules.1 (filesToDelete pathsToDelete) s0)
    as (fileEvents & Hj1 & Hall1 & Hdone).
  apply ofPhase_file in Hall1.
  destruct (forEachAsync _ deleteFileBegin _ _ _ _) as [s1|error s1 pending];
    simpl in Hj1.
  - destruct (journalPhase maxParallelism deleteFolderBegin
                deleteFolderSettle CallDeleteFolder ltac:(congruence)
                ltac:(intros; split; reflexivity) deleteFolderSettle_journal
                schedules.2 (foldersToDelete pathsToDelete) s1)
      as (folderEvents & Hj2 & Hall2 & _).
    apply ofPhase_folder in Hall2.
    exists fileEvents, folderEvents.
    split; [|split; [exact Hall1|split; [exact Hall2|intros _; exact Hdone]]].
    destruct (forEachAsync _ deleteFolderBegin _ _ _ _)
      as [s2|error s2 pending]; simpl in *.
    + rewrite report_journal, Hj2, Hj1. now rewrite app_assoc.
    + rewrite Hj2, Hj1. now rewrite app_assoc.
  - exists fileEvents, []. simpl. rewrite app_nil_r.
    split; [exact Hj1|]. split; [exact Hall1|]. split; [constructor|].
    intros Hne. contradiction.
Qed.
End Barrier.

(** ** A failed file deletion *)

Section HardFailure.
Variable maxParallelism : nat.

(** The file phase resolves only over benign answers; it is rejected by
    the answer it has just recorded, a failure other than a missing
    target. *)
Lemma filePhase_failures schedule files s0 :
  match forEachAsync maxParallelism deleteFileBegin deleteFileSettle
          schedule files s0 with
  | Resolved s =>
      exists events,
        journal (world s) = journal (world s0) ++ events /\
        Forall benign events
  | Rejected error s _ =>
      exists events path,
        journal (world s) =
          journal (world s0) ++ events
            ++ [Completed (CallDeleteFile path) (Some error)] /\
        Forall benign events /\
        isNotExistError error = false
  end.
Proof.
  pose proof (forEachAsync_invariant maxParallelism deleteFileBegin
                deleteFileSettle
                (fun _ _ s =>
                   exists events,
                     journal (world s) = journal (world s0) ++ events /\
                     Forall benign events)) as Hinv.
  lapply Hinv; clear Hinv.
  - intros Hinv. lapply Hinv; clear Hinv.
    + intros Hinv. specialize (Hinv schedule files s0).
      lapply Hinv; clear Hinv.
      * intros Hinv.
        destruct (forEachAsync _ _ _ _ _ _) as [s|error s pending];
          [exact Hinv|].
        destruct Hinv as (_ & _ & s1 & _ & op & (events & Hj & Hall) & _
                          & Hset & _).
        exists events, op. revert Hset. settle_file op s1; intros Hset.
        -- discriminate.
        -- destruct (isNotExistError error0) eqn:Hkind; [discriminate|].
           injection Hset as -> <-. simpl. rewrite Hj.
           split; [now rewrite app_assoc|]. split; [exact Hall|exact Hkind].
      * exists []. split; [now rewrite app_nil_r|constructor].
    + intros _ _ s i op (events & Hj & Hall) _ Hok. revert Hok.
      settle_file op s; simpl; intros Hok.
      * exists (events ++ [Completed (CallDeleteFile op) None]).
        split; [rewrite Hj; now rewrite app_assoc|].
        apply Forall_app. split; [exact Hall|]. repeat constructor.
      * exists (events ++ [Completed (CallDeleteFile op) (Some error)]).
        split; [rewrite Hj; now rewrite app_assoc|].
        apply Forall_app. split; [exact Hall|].
        constructor; [|constructor]. simpl.
        now destruct (isNotExistError error).
  - intros x _ _ s (events & Hj & Hall) _. simpl.
    exists (events ++ [Issued (CallDeleteFile x)]).
    split; [rewrite Hj; now rewrite app_assoc|].
    apply Forall_app. split; [exact Hall|]. repeat constructor.
Qed.

(** The same of the folder phase. *)
Lemma folderPhase_failures schedule folders s0 :
  match forEachAsync maxParallelism deleteFolderBegin deleteFolderSettle
          schedule folders s0 with
  | Resolved s =>
      exists events,
        journal (world s) = journal (world s0) ++ events /\
        Forall benign events
  | Rejected error s _ =>
      exists events path,
        journal (world s) =
          journal (world s0) ++ events
            ++ [Completed (CallDeleteFolder path) (Some error)] /\
        Forall benign events /\
        isNotExistError error = false
  end.
Proof.
  pose proof (forEachAsync_invariant maxParallelism deleteFolderBegin
                deleteFolderSettle
                (fun _ _ s =>
                   exists events,
                     journal (world s) = journal (world s0) ++ events /\
                     Forall benign events)) as Hinv.
  lapply Hinv; clear Hinv.
  - intros Hinv. lapply Hinv; clear Hinv.
    + intros Hinv. specialize (Hinv schedule folders s0).
      lapply Hinv; clear Hinv.
      * intros Hinv.
        destruct (forEachAsync _ _ _ _ _ _) as [s|error s pending];
          [exact Hinv|].
        destruct Hinv as (_ & _ & s1 & _ & op & (events & Hj & Hall) & _
                          & Hset & _).
        exists events, op. revert Hset. settle_folder op s1; intros Hset.
        -- discriminate.
        -- destruct (isNotExistError error0) eqn:Hkind; [discriminate|].
           injection Hset as -> <-. simpl. rewrite Hj.
           split; [now rewrite app_assoc|]. split; [exact Hall|exact Hkind].
      * exists []. split; [now rewrite app_nil_r|constructor].
    + intros _ _ s i op (events & Hj & Hall) _ Hok. revert Hok.
      settle_folder op s; simpl; intros Hok.
      * exists (events ++ [Completed (CallDeleteFolder op) None]).
        split; [rewrite Hj; now rewrite app_assoc|].
        apply Forall_app. split; [exact Hall|]. repeat constructor.
      * exists (events ++ [Completed (CallDeleteFolder op) (Some error)]).
        split; [rewrite Hj; now rewrite app_assoc|].
        apply Forall_app. split; [exact Hall|].
        constructor; [|constructor]. simpl.
        now destruct (isNotExistError error).
  - intros x _ _ s (events & Hj & Hall) _. simpl.
    exists (events ++ [Issued (CallDeleteFolder x)]).
    split; [rewrite Hj; now rewrite app_assoc|].
    apply Forall_app. split; [exact Hall|]. repeat constructor.
Qed.

(** Once the first folder deletion is issued it stays in the journal. *)
Lemma folderPhase_first_issued schedule folder rest s0 :
  exists events,
    journal (world (promiseState
      (forEachAsync maxParallelism deleteFolderBegin deleteFolderSettle
         schedule (folder :: rest) s0))) = journal (world s0) ++ events /\
    Issued (CallDeleteFolder folder) ∈ events.
Proof.
  apply (forEachAsync_first maxParallelism deleteFolderBegin
           deleteFolderSettle
           (fun s => exists events,
                journal (world s) = journal (world s0) ++ events /\
                Issued (CallDeleteFolder folder) ∈ events)).
  - simpl. exists [Issued (CallDeleteFolder folder)].
    split; [reflexivity|now left].
  - intros y s (events & Hj & Hin). simpl.
    exists (events ++ [Issued (CallDeleteFolder y)]).
    split; [rewrite Hj; now rewrite app_assoc|].
    apply elem_of_app. now left.
  - intros op s (events & Hj & Hin).
    destruct (deleteFolderSettle_journal op s) as [failure ->].
    exists (events ++ [Completed (CallDeleteFolder op) failure]).
    split; [rewrite Hj; now rewrite app_assoc|].
    apply elem_of_app. now left.
Qed.

Lemma benign_not_hard events :
  Forall benign events -> ~ fileFailedHard events.
Proof.
  intros Hall (path & error & Hin & Hkind).
  rewrite Forall_forall in Hall. specialize (Hall _ Hin). simpl in Hall.
  congruence.
Qed.

Lemma folderEvents_not_hard events :
  Forall (fun event => isFolderEvent event = true) events ->
  ~ fileFailedHard events.
Proof.
  intros Hall (path & error & Hin & Hkind).
  rewrite Forall_forall in Hall. specialize (Hall _ Hin). discriminate.
Qed.

(** C4, amended.  The folder phase starts exactly when no file deletion
    failed hard.  If some file deletion of the run is answered with a
    failure other than a missing target, the deleter throws that very
    error, the one the filesystem answered with, and its journal holds
    no folder event.  If none is, the file phase has resolved and the
    first folder of [foldersToDelete] is issued. *)
Theorem C4_folder_phase_needs_clean_file_phase schedules pathsToDelete w :
  let run :=
    _deleteFilesInnerAsync maxParallelism schedules pathsToDelete w in
  exists events,
    journal (world (finalState run)) = journal w ++ events /\
    (forall path error,
       Completed (CallDeleteFile path) (Some error) ∈ events ->
       isNotExistError error = false ->
       (exists s, run = Threw error s) /\
       Forall (fun event => isFileEvent event = true) events) /\
    (~ fileFailedHard events ->
     forall folder rest,
       foldersToDelete pathsToDelete = folder :: rest ->
       Issued (CallDeleteFolder folder) ∈ events).
Proof.
  intros run. subst run. unfold _deleteFilesInnerAsync.
  set (s0 := {| world := w; deletedFiles := 0%Z; deletedFolders := 0%Z |}).
  pose proof (filePhase_failures schedules.1 (filesToDelete pathsToDelete)
                s0) as Hfail.
  destruct (journalPhase maxParallelism deleteFileBegin deleteFileSettle
              CallDeleteFile ltac:(congruence)
              ltac:(intros; split; reflexivity) deleteFileSettle_journal
              schedules.1 (filesToDelete pathsToDelete) s0)
    as (fileEvents & Hj1 & Hall1 & _).
  apply ofPhase_file in Hall1.
  destruct (forEachAsync _ deleteFileBegin _ _ _ _) as [s1|error s1 pending];
    simpl in Hj1.
  - destruct Hfail as (events1 & Hj1' & Hbenign).
    rewrite Hj1 in Hj1'. apply app_inv_head in Hj1'. subst events1.
    destruct (journalPhase maxParallelism deleteFolderBegin
                deleteFolderSettle CallDeleteFolder ltac:(congruence)
                ltac:(intros; split; reflexivity) deleteFolderSettle_journal
                schedules.2 (foldersToDelete pathsToDelete) s1)
      as (folderEvents & Hj2 & Hall2 & _).
    apply ofPhase_folder in Hall2.
    assert (journal (world (finalState
              match forEachAsync maxParallelism deleteFolderBegin
                      deleteFolderSettle schedules.2
                      (foldersToDelete pathsToDelete) s1 with
              | Resolved s'' => Returned (report s'')
              | Rejected error s'' _ => Threw error s''
              end)) = journal (world (promiseState
                (forEachAsync maxParallelism deleteFolderBegin
                   deleteFolderSettle schedules.2
                   (foldersToDelete pathsToDelete) s1)))) as Hfinal.
    { destruct (forEachAsync _ deleteFolderBegin _ _ _ _); simpl;
        [apply report_journal|reflexivity]. }
    exists (fileEvents ++ folderEvents). rewrite Hfinal.
    split; [rewrite Hj2, Hj1; now rewrite app_assoc|]. split.
    + intros path error Hin Hkind. exfalso.
      apply elem_of_app in Hin as [Hin|Hin].
      * apply (benign_not_hard _ Hbenign). now exists path, error.
      * apply (folderEvents_not_hard _ Hall2). now exists path, error.
    + intros _ folder rest Hfolders. rewrite Hfolders in *.
      destruct (folderPhase_first_issued schedules.2 folder rest s1)
        as (events & Hj & Hin).
      rewrite Hj2 in Hj. apply app_inv_head in Hj. subst events.
      apply elem_of_app. now right.
  - destruct Hfail as (events1 & path & Hj1' & Hbenign & Hkind).
    rewrite Hj1 in Hj1'. apply app_inv_head in Hj1'.
    exists fileEvents. simpl. split; [exact Hj1|]. split.
    + intros path' error' Hin Hkind'. split; [|exact Hall1].
      rewrite Hj1' in Hin.
      apply elem_of_app in Hin as [Hin|Hin].
      * exfalso. rewrite Forall_forall in Hbenign.
        specialize (Hbenign _ Hin). simpl in Hbenign. congruence.
      * apply list_elem_of_singleton in Hin. injection Hin as _ ->. eauto.
    + intros Hclean. exfalso. apply Hclean. subst fileEvents.
      exists path, error. split; [|exact Hkind].
      apply elem_of_app. right. now left.
Qed.
End HardFailure.

(** C4 as stated fails: with [/proj/locked.txt] protected, a file
    deletion fails hard, the file phase is rejected, and the folder
    [/proj/build], though listed in [foldersToDelete], is never handed
    to the filesystem. *)
Lemma C4_folder_phase_abandoned :
  ~ (forall maxParallelism schedules pathsToDelete w folder rest,
        let run :=
          _deleteFilesInnerAsync maxParallelism schedules pathsToDelete w in
        fileFailedHard (journal (world (finalState run))) ->
        foldersToDelete pathsToDelete = folder :: rest ->
        Issued (CallDeleteFolder folder)
          ∈ journal (world (finalState run))).
Proof.
  intros Hclaim.
  specialize (Hclaim 100 ([], []) Scenario.lockedPaths
                (Scenario.fresh Scenario.lockedProject)
                Scenario.build []).
  lapply Hclaim; clear Hclaim.
  - intros Hclaim. specialize (Hclaim eq_refl). vm_compute in Hclaim.
    repeat (apply elem_of_cons in Hclaim as [Hclaim|Hclaim];
            [discriminate|]).
    now apply elem_of_nil in Hclaim.
  - exists Scenario.locked_txt, (FsError EACCES Scenario.locked_txt).
    split; [|reflexivity]. vm_compute. right. left.
Qed.

Lemma C4_folder_phase_needs_clean_file_phase_witness :
  let run :=
    _deleteFilesInnerAsync 100 ([], []) Scenario.lockedPaths
      (Scenario.fresh Scenario.lockedProject) in
  let error := FsError EACCES Scenario.locked_txt in
  exists events,
    journal (world (finalState run)) = events /\
    Completed (CallDeleteFile Scenario.locked_txt) (Some error) ∈ events /\
    isNotExistError error = false /\
    (exists s, run = Threw error s) /\
    Forall (fun event => isFileEvent event = true) events.
Proof.
  intros run error.
  destruct (C4_folder_phase_needs_clean_file_phase 100 ([], [])
              Scenario.lockedPaths (Scenario.fresh Scenario.lockedProject))
    as (events & Hj & Hhard & _).
  fold run in Hj, Hhard. simpl in Hj. exists events. split; [exact Hj|].
  assert (Completed (CallDeleteFile Scenario.locked_txt) (Some error)
            ∈ events) as Hfailed.
  { rewrite <- Hj. vm_compute. right. left. }
  split; [exact Hfailed|]. split; [reflexivity|].
  exact (Hhard Scenario.locked_txt error Hfailed eq_refl).
Defined.

Lemma C3_file_phase_precedes_folder_phase_witness :
  exists fileEvents folderEvents,
    journal (world (finalState
      (_deleteFilesInnerAsync 100 ([1], []) Scenario.buildPaths
         (Scenario.fresh Scenario.project)))) = fileEvents ++ folderEvents /\
    folderEvents <> [] /\
    completedIn fileEvents (CallDeleteFile Scenario.a_txt) /\
    completedIn fileEvents (CallDeleteFile Scenario.b_txt).
Proof.
  destruct (C3_file_phase_precedes_folder_phase 100 ([1], [])
              Scenario.buildPaths (Scenario.fresh Scenario.project))
    as (fileEvents & folderEvents & Hj & Hfiles & Hfolders & Hbarrier).
  simpl in Hj. exists fileEvents, folderEvents. split; [exact Hj|].
  assert (folderEvents <> []) as Hstarted.
  { intros ->. rewrite app_nil_r in Hj. subst fileEvents.
    rewrite Forall_forall in Hfiles.
    specialize (Hfiles (Issued (CallDeleteFolder Scenario.build))).
    lapply Hfiles; [discriminate|].
    vm_compute. do 4 right. left. }
  split; [exact Hstarted|].
  split; apply (proj1 (Hbarrier Hstarted _)); simpl.
  - now left.
  - right. now left.
Defined.

Lemma C7_report_wording_witness :
  let s := {| world := Scenario.fresh Scenario.project;
              deletedFiles := 1%Z; deletedFolders := 0%Z |} in
  (0 <= deletedFiles s)%Z /\ (0 <= deletedFolders s)%Z /\
  logLines (terminal (world (report s))) = ["Deleted 1 file and 0 folders"].
Proof.
  intros s. split; [simpl; lia|]. split; [simpl; lia|].
  rewrite (proj1 (C7_report_wording 100 ([], []) Scenario.buildPaths
                    (Scenario.fresh Scenario.project)) s);
    [reflexivity | simpl; lia | simpl; lia].
Defined.

(** ** The resolver *)

Section ResolverFacts.
Context `{GlobSyntax}.
Variable maxParallelism : nat.
Variable rootFolderPath : string.

(** The selector fails with selection errors only. *)
Lemma compileGlobs_error patterns error :
  compileGlobs patterns = inl error ->
  exists pattern, error = SelectionError pattern.
Proof.
  induction patterns as [|p rest IH]; simpl; [discriminate|].
  destruct (compileGlob p); [|intros [= <-]; eauto].
  destruct (compileGlobs rest); [|discriminate].
  intros [= <-]. now apply IH.
Qed.

Lemma getFileSelectionSpecifierPathsAsync_error options fs error :
  getFileSelectionSpecifierPathsAsync options fs = inl error ->
  exists pattern, error = SelectionError pattern.
Proof.
  unfold getFileSelectionSpecifierPathsAsync.
  destruct (compileGlob _); [|intros [= <-]; eauto].
  destruct (compileGlobs _) eqn:Hglobs; [|discriminate].
  intros [= <-]. eapply compileGlobs_error, Hglobs.
Qed.

Lemma selectSettle_world options s :
  resolverWorld (selectSettle options s).2 = resolverWorld s.
Proof.
  unfold selectSettle. now destruct (getFileSelectionSpecifierPathsAsync _ _).
Qed.

Lemma selectSettle_operations options s :
  operations (selectSettle options s).2 = operations s.
Proof.
  unfold selectSettle. now destruct (getFileSelectionSpecifierPathsAsync _ _).
Qed.

Lemma selectSettle_throws options s error s' :
  selectSettle options s = (Some error, s') ->
  exists pattern, error = SelectionError pattern.
Proof.
  unfold selectSettle.
  destruct (getFileSelectionSpecifierPathsAsync _ _) eqn:Hselect;
    [|discriminate].
  intros [= <- _]. eapply getFileSelectionSpecifierPathsAsync_error, Hselect.
Qed.

(** The resolver leaves the world as it found it. *)
Lemma getPathsToDelete_world schedule deleteOperations heap w :
  resolverWorld (finalState
    (_getPathsToDeleteAsync maxParallelism schedule rootFolderPath
       deleteOperations heap w)) = w.
Proof.
  unfold _getPathsToDeleteAsync.
  pose proof (forEachAsync_preserved maxParallelism
                (selectBegin rootFolderPath) selectSettle
                (fun s => resolverWorld s = w) schedule deleteOperations
                {| resolverWorld := w; operations := heap;
                   result := {| filesToDelete := []; foldersToDelete := [] |} |})
    as Hkept.
  lapply Hkept; clear Hkept; [intros Hkept|now intros x s].
  lapply Hkept; clear Hkept;
    [intros Hkept|intros op s; now rewrite selectSettle_world].
  specialize (Hkept eq_refl).
  now destruct (forEachAsync _ _ _ _ _ _).
Qed.

Lemma getPathsToDelete_throws schedule deleteOperations heap w error s :
  _getPathsToDeleteAsync maxParallelism schedule rootFolderPath
    deleteOperations heap w = Threw error s ->
  exists pattern, error = SelectionError pattern.
Proof.
  unfold _getPathsToDeleteAsync.
  pose proof (forEachAsync_invariant maxParallelism
                (selectBegin rootFolderPath) selectSettle
                (fun _ _ _ => True)) as Hinv.
  specialize (Hinv ltac:(auto) ltac:(auto) schedule deleteOperations
                {| resolverWorld := w; operations := heap;
                   result := {| filesToDelete := []; foldersToDelete := [] |} |}
                I).
  destruct (forEachAsync _ _ _ _ _ _) as [s1|error1 s1 pending];
    [discriminate|].
  intros [= <- <-].
  destruct Hinv as (_ & _ & s0 & _ & op & _ & _ & Hset & _).
  eapply selectSettle_throws, Hset.
Qed.

(** C6. The resolver never touches the world: whether it returns or
    throws, the disk, the journal of filesystem calls and the terminal
    are what they were.  When it throws, what it throws is a selection
    error, [deleteFilesAsync] throws that same error, and the world the
    caller is left with is the one the run started from: no deletion
    was issued. *)
Theorem C6_selection_error_aborts_before_deletion
    schedules deleteOperations heap w :
  match _getPathsToDeleteAsync maxParallelism (selections schedules)
          rootFolderPath deleteOperations heap w with
  | Returned s => resolverWorld s = w
  | Threw error s =>
      resolverWorld s = w /\
      (exists pattern, error = SelectionError pattern) /\
      exists r,
        deleteFilesAsync maxParallelism schedules rootFolderPath
          deleteOperations heap w = Threw error r /\
        world (deletion r) = w /\
        deletedFiles (deletion r) = 0%Z /\
        deletedFolders (deletion r) = 0%Z
  end.
Proof.
  pose proof (getPathsToDelete_world (selections schedules) deleteOperations
                heap w) as Hworld.
  unfold deleteFilesAsync.
  destruct (_getPathsToDeleteAsync _ _ _ _ _ _) as [s|error s] eqn:Hrun;
    simpl in Hworld; [exact Hworld|].
  split; [exact Hworld|]. split.
  - eapply getPathsToDelete_throws, Hrun.
  - eexists. split; [reflexivity|]. simpl. auto.
Qed.

(** Each time the callback is entered for a reference, the object behind
    it is normalized once more. *)
Definition normalizedInv (heap : Heap) (deleteOperations : list nat)
    (queue : list nat)
    (inflight : list IGetFileSelectionSpecifierPathsOptions)
    (s : ResolverState) : Prop :=
  forall ref,
    exists times,
      times + count_occ Nat.eq_dec queue ref =
        count_occ Nat.eq_dec deleteOperations ref /\
      operations s ref =
        Nat.iter times (normalized rootFolderPath) (heap ref).

Lemma getPathsToDelete_operations schedule deleteOperations heap w :
  match _getPathsToDeleteAsync maxParallelism schedule rootFolderPath
          deleteOperations heap w with
  | Returned s =>
      forall ref,
        operations s ref =
          Nat.iter (count_occ Nat.eq_dec deleteOperations ref)
            (normalized rootFolderPath) (heap ref)
  | Threw _ s =>
      forall ref,
        exists times,
          times <= count_occ Nat.eq_dec deleteOperations ref /\
          operations s ref =
            Nat.iter times (normalized rootFolderPath) (heap ref)
  end.
Proof.
  unfold _getPathsToDeleteAsync.
  pose proof (forEachAsync_invariant maxParallelism
                (selectBegin rootFolderPath) selectSettle
                (normalizedInv heap deleteOperations)) as Hinv.
  lapply Hinv; clear Hinv.
  - intros Hinv. lapply Hinv; clear Hinv.
    + intros Hinv.
      specialize (Hinv schedule deleteOperations
                    {| resolverWorld := w; operations := heap;
                       result := {| filesToDelete := [];
                                    foldersToDelete := [] |} |}).
      lapply Hinv; clear Hinv.
      * intros Hinv.
        destruct (forEachAsync _ _ _ _ _ _) as [s|error s pending].
        -- intros ref. destruct (Hinv ref) as (times & Hcount & ->).
           simpl in Hcount. f_equal. lia.
        -- destruct Hinv as (queue & inflight & s1 & i & op & HI & _
                               & Hset & _).
           intros ref. destruct (HI ref) as (times & Hcount & Hop).
           exists times. split; [lia|].
           assert (s = (selectSettle op s1).2) as -> by now rewrite Hset.
           now rewrite selectSettle_operations.
      * intros ref. exists 0. split; reflexivity.
    + intros queue inflight s i op HI _ _ ref.
      rewrite selectSettle_operations. apply HI.
  - intros x queue inflight s HI _ ref.
    destruct (HI ref) as (times & Hcount & Hop). simpl in Hcount.
    unfold selectBegin, normalizeFileSelectionSpecifier, assign. simpl.
    destruct (Nat.eq_dec x ref) as [Heq|Hne].
    + subst ref. exists (Datatypes.S times). split; [lia|].
      rewrite Nat.eqb_refl. simpl. now rewrite Hop.
    + exists times. split; [lia|].
      apply Nat.eqb_neq in Hne. rewrite Nat.eqb_sym in Hne.
      now rewrite Hne.
Qed.

Lemma deleteFiles_callerOperations schedules deleteOperations heap w :
  callerOperations (finalState
    (deleteFilesAsync maxParallelism schedules rootFolderPath
       deleteOperations heap w)) =
  operations (finalState
    (_getPathsToDeleteAsync maxParallelism (selections schedules)
       rootFolderPath deleteOperations heap w)).
Proof.
  unfold deleteFilesAsync.
  destruct (_getPathsToDeleteAsync _ _ _ _ _ _) as [s|error s];
    [|reflexivity].
  now destruct (_deleteFilesInnerAsync _ _ _ _).
Qed.

(** C9. Entering the resolver's callback for a reference stores the
    normalized operation back under that reference and hands the stored
    object to the selector.  So after a run of [deleteFilesAsync] the
    caller's store holds, under every reference, the operation normalized
    once for each time the reference occurs in [deleteOperations] (not at
    all when it does not occur), provided the resolver returned; if the
    resolver threw, it holds the operation normalized at most that many
    times. *)
Theorem C9_operations_normalized_in_place
    schedules deleteOperations heap w :
  (forall ref s,
      operations (selectBegin rootFolderPath ref s).1 ref =
        normalized rootFolderPath (operations s ref) /\
      fileGlobSpecifier (selectBegin rootFolderPath ref s).2 =
        operations (selectBegin rootFolderPath ref s).1 ref) /\
  let after :=
    callerOperations (finalState
      (deleteFilesAsync maxParallelism schedules rootFolderPath
         deleteOperations heap w)) in
  match _getPathsToDeleteAsync maxParallelism (selections schedules)
          rootFolderPath deleteOperations heap w with
  | Returned _ =>
      forall ref,
        after ref =
          Nat.iter (count_occ Nat.eq_dec deleteOperations ref)
            (normalized rootFolderPath) (heap ref)
  | Threw _ _ =>
      forall ref,
        exists times,
          times <= count_occ Nat.eq_dec deleteOperations ref /\
          after ref = Nat.iter times (normalized rootFolderPath) (heap ref)
  end.
Proof.
  split.
  - intros ref s.
    unfold selectBegin, normalizeFileSelectionSpecifier, assign. simpl.
    rewrite Nat.eqb_refl. split; reflexivity.
  - intros after. subst after. rewrite deleteFiles_callerOperations.
    pose proof (getPathsToDelete_operations (selections schedules)
                  deleteOperations heap w) as Hops.
    destruct (_getPathsToDeleteAsync _ _ _ _ _ _) as [s|error s];
      exact Hops.
Qed.
End ResolverFacts.

(** The caller's build operation after a run: its pattern has been
    rewritten in the caller's own object. *)
Example caller_operation_rewritten :
  let run :=
    @deleteFilesAsync Scenario.toyGlob 100
      {| selections := []; fileDeletions := []; folderDeletions := [] |}
      "/proj" [0] Scenario.callerHeap (Scenario.fresh Scenario.project) in
  pattern (Scenario.callerHeap 0) = "build/**" /\
  pattern (callerOperations (finalState run) 0) = "/proj/build/**".
Proof. split; reflexivity. Qed.

(** ** The two sets *)

Lemma elem_of_setAdd value set x :
  x ∈ setAdd value set <-> x ∈ set \/ x = value.
Proof.
  unfold setAdd. case_bool_decide as Hin.
  - split; [now left|]. intros [Hx| ->]; assumption.
  - rewrite elem_of_app, list_elem_of_singleton. reflexivity.
Qed.

Lemma NoDup_setAdd value set : NoDup set -> NoDup (setAdd value set).
Proof.
  intros Hnd. unfold setAdd. case_bool_decide as Hin; [exact Hnd|].
  apply NoDup_app. split; [exact Hnd|]. split.
  - intros x Hx Hx'. apply list_elem_of_singleton in Hx'. now subst.
  - apply NoDup_singleton.
Qed.

Lemma addSourcePaths_files sourcePaths r path :
  path ∈ filesToDelete (fold_left addSourcePath sourcePaths r) <->
  path ∈ filesToDelete r \/
  exists dirent, (path, dirent) ∈ sourcePaths /\ isDirectory dirent = false.
Proof.
  revert r. induction sourcePaths as [|[p d] rest IH]; intros r; simpl.
  - split; [now left|]. intros [Hr|(dirent & Hin & _)]; [exact Hr|].
    now apply elem_of_nil in Hin.
  - rewrite IH. unfold addSourcePath.
    destruct (isDirectory d) eqn:Hd; simpl.
    + split.
      * intros [Hr|(dirent & Hin & Hkind)]; [now left|right].
        exists dirent. split; [now right|exact Hkind].
      * intros [Hr|(dirent & Hin & Hkind)]; [now left|right].
        apply elem_of_cons in Hin as [[= -> ->]|Hin]; [congruence|].
        now exists dirent.
    + rewrite elem_of_setAdd. split.
      * intros [[Hr| ->]|(dirent & Hin & Hkind)].
        -- now left.
        -- right. exists d. split; [now left|exact Hd].
        -- right. exists dirent. split; [now right|exact Hkind].
      * intros [Hr|(dirent & Hin & Hkind)]; [left; now left|].
        apply elem_of_cons in Hin as [[= -> ->]|Hin]; [left; now right|].
        right. now exists dirent.
Qed.

Lemma addSourcePaths_folders sourcePaths r path :
  path ∈ foldersToDelete (fold_left addSourcePath sourcePaths r) <->
  path ∈ foldersToDelete r \/
  exists dirent, (path, dirent) ∈ sourcePaths /\ isDirectory dirent = true.
Proof.
  revert r. induction sourcePaths as [|[p d] rest IH]; intros r; simpl.
  - split; [now left|]. intros [Hr|(dirent & Hin & _)]; [exact Hr|].
    now apply elem_of_nil in Hin.
  - rewrite IH. unfold addSourcePath.
    destruct (isDirectory d) eqn:Hd; simpl.
    + rewrite elem_of_setAdd. split.
      * intros [[Hr| ->]|(dirent & Hin & Hkind)].
        -- now left.
        -- right. exists d. split; [now left|exact Hd].
        -- right. exists dirent. split; [now right|exact Hkind].
      * intros [Hr|(dirent & Hin & Hkind)]; [left; now left|].
        apply elem_of_cons in Hin as [[= -> ->]|Hin]; [left; now right|].
        right. now exists dirent.
    + split.
      * intros [Hr|(dirent & Hin & Hkind)]; [now left|right].
        exists dirent. split; [now right|exact Hkind].
      * intros [Hr|(dirent & Hin & Hkind)]; [now left|right].
        apply elem_of_cons in Hin as [[= -> ->]|Hin]; [congruence|].
        now exists dirent.
Qed.

Lemma addSourcePaths_NoDup sourcePaths r :
  NoDup (filesToDelete r) -> NoDup (foldersToDelete r) ->
  NoDup (filesToDelete (fold_left addSourcePath sourcePaths r)) /\
  NoDup (foldersToDelete (fold_left addSourcePath sourcePaths r)).
Proof.
  revert r. induction sourcePaths as [|[p d] rest IH]; intros r Hf Hd; simpl.
  - now split.
  - apply IH; unfold addSourcePath; destruct (isDirectory d); simpl;
      try assumption; now apply NoDup_setAdd.
Qed.

Section SelectionFacts.
Context `{GlobSyntax}.

(** The selector reports existing paths with the kind they have. *)
Lemma selection_entries options fs path dirent :
  (path, dirent) ∈ selection options fs ->
  entries fs !! path = Some dirent.
Proof.
  unfold selection, getFileSelectionSpecifierPathsAsync.
  destruct (compileGlob _) as [included|];
    [|intros Hin; now apply elem_of_nil in Hin].
  destruct (compileGlobs _) as [error|excluded];
    [intros Hin; now apply elem_of_nil in Hin|].
  intros Hin. apply list_elem_of_In, filter_In in Hin as [Hin _].
  now apply list_elem_of_In, elem_of_map_to_list in Hin.
Qed.
End SelectionFacts.

Section ResolverSets.
Context `{GlobSyntax}.
Variable maxParallelism : nat.
Variable rootFolderPath : string.

Lemma handedOver_operations s1 s2 deleteOperations :
  operations s1 = operations s2 ->
  handedOver rootFolderPath s1 deleteOperations =
  handedOver rootFolderPath s2 deleteOperations.
Proof.
  revert s1 s2. induction deleteOperations as [|ref rest IH];
    intros s1 s2 Hops; simpl; [reflexivity|].
  rewrite Hops. f_equal. apply IH. reflexivity.
Qed.

(** The selector is called, for each reference, with the operation
    normalized once, twice, ... up to the number of times the reference
    occurs. *)
Lemma handedOver_elem s deleteOperations options :
  options ∈ handedOver rootFolderPath s deleteOperations <->
  exists ref times,
    1 <= times <= count_occ Nat.eq_dec deleteOperations ref /\
    options =
      {| fileGlobSpecifier :=
           Nat.iter times (normalized rootFolderPath) (operations s ref);
         includeFolders := true |}.
Proof.
  revert s. induction deleteOperations as [|ref0 rest IH]; intros s.
  - simpl. split; [intros Hin; now apply elem_of_nil in Hin|].
    intros (ref & times & Htimes & _). lia.
  - cbn [handedOver]. unfold selectBegin at 1.
    unfold normalizeFileSelectionSpecifier, assign.
    rewrite Nat.eqb_refl. rewrite elem_of_cons, IH. clear IH.
    cbn [operations]. split.
    + intros [->|(ref & times & Htimes & ->)].
      * exists ref0, 1. rewrite count_occ_cons_eq by reflexivity.
        split; [lia|reflexivity].
      * destruct (Nat.eq_dec ref0 ref) as [Heq|Hne].
        -- subst ref. exists ref0, (Datatypes.S times).
           rewrite count_occ_cons_eq by reflexivity.
           rewrite Nat.eqb_refl, Nat.iter_succ_r. split; [lia|reflexivity].
        -- exists ref, times. rewrite count_occ_cons_neq by exact Hne.
           split; [lia|].
           apply Nat.eqb_neq in Hne. rewrite Nat.eqb_sym in Hne.
           now rewrite Hne.
    + intros (ref & times & Htimes & ->).
      destruct (Nat.eq_dec ref0 ref) as [Heq|Hne].
      * subst ref. rewrite count_occ_cons_eq in Htimes by reflexivity.
        destruct times as [|[|times]]; [lia|now left|].
        right. exists ref0, (Datatypes.S times).
        rewrite Nat.eqb_refl, <- Nat.iter_succ_r. split; [lia|reflexivity].
      * rewrite count_occ_cons_neq in Htimes by exact Hne.
        right. exists ref, times. split; [lia|].
        apply Nat.eqb_neq in Hne. rewrite Nat.eqb_sym in Hne.
        now rewrite Hne.
Qed.

(** Which calls the selector receives does not depend on the order of
    the operations. *)
Lemma handedOver_Permutation s s' deleteOperations deleteOperations' options :
  operations s = operations s' ->
  Permutation deleteOperations deleteOperations' ->
  options ∈ handedOver rootFolderPath s deleteOperations ->
  options ∈ handedOver rootFolderPath s' deleteOperations'.
Proof.
  intros Hops Hperm. rewrite !handedOver_elem.
  intros (ref & times & Htimes & ->). exists ref, times.
  rewrite (Permutation_count_occ Nat.eq_dec) in Hperm.
  rewrite <- Hperm, <- Hops. now split.
Qed.

Lemma selectedAs_calls directory calls calls' fs path :
  (forall options, options ∈ calls -> options ∈ calls') ->
  selectedAs directory calls fs path -> selectedAs directory calls' fs path.
Proof.
  intros Hsub (options & dirent & Hin & Hsel & Hkind).
  exists options, dirent. auto.
Qed.

(** A path is reported with one kind only. *)
Lemma selectedAs_exclusive calls calls' fs path :
  selectedAs false calls fs path -> selectedAs true calls' fs path -> False.
Proof.
  intros (o1 & d1 & _ & Hsel1 & Hkind1) (o2 & d2 & _ & Hsel2 & Hkind2).
  apply selection_entries in Hsel1, Hsel2. congruence.
Qed.

(** The calls that were answered, the calls in flight and the calls
    still to be made are together the calls of the run; the two sets hold
    what the answered calls reported. *)
Definition selectedInv (w : World) (s0 : ResolverState)
    (deleteOperations : list nat) (queue : list nat)
    (inflight : list IGetFileSelectionSpecifierPathsOptions)
    (s : ResolverState) : Prop :=
  resolverWorld s = w /\
  NoDup (filesToDelete (result s)) /\
  NoDup (foldersToDelete (result s)) /\
  exists answered,
    Permutation (answered ++ inflight ++ handedOver rootFolderPath s queue)
      (handedOver rootFolderPath s0 deleteOperations) /\
    (forall options, options ∈ answered ->
       exists sourcePaths,
         getFileSelectionSpecifierPathsAsync options (disk w) =
           inr sourcePaths) /\
    (forall path,
       path ∈ filesToDelete (result s) <->
       selectedAs false answered (disk w) path) /\
    (forall path,
       path ∈ foldersToDelete (result s) <->
       selectedAs true answered (disk w) path).

Lemma selectedInv_begin w s0 deleteOperations x queue inflight s :
  selectedInv w s0 deleteOperations (x :: queue) inflight s ->
  selectedInv w s0 deleteOperations queue
    (inflight ++ [(selectBegin rootFolderPath x s).2])
    (selectBegin rootFolderPath x s).1.
Proof.
  intros (Hw & Hnf & Hnd & answered & Hperm & Hok & Hfiles & Hfolders).
  split; [exact Hw|]. split; [exact Hnf|]. split; [exact Hnd|].
  exists answered. split; [|auto].
  cbn [handedOver] in Hperm.
  destruct (selectBegin rootFolderPath x s) as [s' options]. simpl.
  now rewrite <- app_assoc.
Qed.

Lemma selectedAs_cons directory options answered fs path :
  selectedAs directory (options :: answered) fs path <->
  selectedAs directory answered fs path \/
  exists dirent, (path, dirent) ∈ selection options fs /\
                 isDirectory dirent = directory.
Proof.
  split.
  - intros (o & dirent & Hin & Hsel & Hkind).
    apply elem_of_cons in Hin as [->|Hin].
    + right. now exists dirent.
    + left. now exists o, dirent.
  - intros [(o & dirent & Hin & Hsel & Hkind)|(dirent & Hsel & Hkind)].
    + exists o, dirent. split; [now right|auto].
    + exists options, dirent. split; [now left|auto].
Qed.

Lemma selectedInv_settle w s0 deleteOperations queue inflight s i options :
  selectedInv w s0 deleteOperations queue inflight s ->
  inflight !! i = Some options ->
  (selectSettle options s).1 = None ->
  selectedInv w s0 deleteOperations queue (delete i inflight)
    (selectSettle options s).2.
Proof.
  intros (Hw & Hnf & Hnd & answered & Hperm & Hok & Hfiles & Hfolders)
         Hop Hnone.
  destruct (delete_lookup_split _ _ _ Hop) as (l1 & l2 & -> & ->).
  unfold selectSettle in *. rewrite Hw in *.
  destruct (getFileSelectionSpecifierPathsAsync options (disk w))
    as [error|sourcePaths] eqn:Hselect; [discriminate|]. simpl.
  destruct (addSourcePaths_NoDup sourcePaths (result s) Hnf Hnd)
    as [Hnf' Hnd'].
  split; [reflexivity|]. split; [exact Hnf'|]. split; [exact Hnd'|].
  exists (options :: answered).
  assert (selection options (disk w) = sourcePaths) as Hsel.
  { unfold selection. now rewrite Hselect. }
  split; [|split; [|split]].
  - rewrite <- Hperm.
    rewrite (handedOver_operations _ s queue) by reflexivity.
    simpl. rewrite <- !app_assoc. simpl.
    rewrite (Permutation_middle answered). apply Permutation_app_head.
    now rewrite Permutation_middle.
  - intros o Ho. apply elem_of_cons in Ho as [->|Ho]; eauto.
  - intros path. cbn [result].
    rewrite addSourcePaths_files, selectedAs_cons, Hsel.
    now rewrite Hfiles.
  - intros path. cbn [result].
    rewrite addSourcePaths_folders, selectedAs_cons, Hsel.
    now rewrite Hfolders.
Qed.

(** What the resolver returns, under every schedule: two duplicate-free
    sets that hold exactly the paths some call of the selector reported,
    folders in one and everything else in the other; and it returns
    exactly when every call of the selector is answered. *)
Lemma getPathsToDelete_sets schedule deleteOperations heap w :
  let s0 :=
    {| resolverWorld := w; operations := heap;
       result := {| filesToDelete := []; foldersToDelete := [] |} |} in
  let calls := handedOver rootFolderPath s0 deleteOperations in
  match _getPathsToDeleteAsync maxParallelism schedule rootFolderPath
          deleteOperations heap w with
  | Returned s =>
      NoDup (filesToDelete (result s)) /\
      NoDup (foldersToDelete (result s)) /\
      (forall options, options ∈ calls ->
         exists sourcePaths,
           getFileSelectionSpecifierPathsAsync options (disk w) =
             inr sourcePaths) /\
      (forall path,
         path ∈ filesToDelete (result s) <->
         selectedAs false calls (disk w) path) /\
      (forall path,
         path ∈ foldersToDelete (result s) <->
         selectedAs true calls (disk w) path)
  | Threw error _ =>
      exists options,
        options ∈ calls /\
        getFileSelectionSpecifierPathsAsync options (disk w) = inl error
  end.
Proof.
  intros s0 calls. unfold _getPathsToDeleteAsync. fold s0.
  pose proof (forEachAsync_invariant maxParallelism
                (selectBegin rootFolderPath) selectSettle
                (selectedInv w s0 deleteOperations)) as Hinv.
  specialize (Hinv ltac:(intros; now apply selectedInv_begin)
                   ltac:(intros; now apply selectedInv_settle)
                   schedule deleteOperations s0).
  lapply Hinv; clear Hinv.
  - intros Hinv.
    destruct (forEachAsync _ _ _ _ _ _) as [s|error s pending].
    + destruct Hinv as (Hw & Hnf & Hnd & answered & Hperm & Hok & Hfiles
                        & Hfolders).
      simpl in Hperm. rewrite !app_nil_r in Hperm.
      assert (forall options, options ∈ answered <-> options ∈ calls)
        as Hsame by (intros options; now rewrite Hperm).
      split; [exact Hnf|]. split; [exact Hnd|]. split; [|split].
      * intros options Hin. apply Hok, Hsame, Hin.
      * intros path. rewrite Hfiles.
        split; apply selectedAs_calls; intros o; apply Hsame.
      * intros path. rewrite Hfolders.
        split; apply selectedAs_calls; intros o; apply Hsame.
    + destruct Hinv as (queue & inflight & s1 & i & options & HI & Hop
                        & Hset & _).
      destruct HI as (Hw & _ & _ & answered & Hperm & _).
      exists options. split.
      * unfold calls. rewrite <- Hperm. rewrite !elem_of_app.
        right. left. eapply list_elem_of_lookup_2, Hop.
      * unfold selectSettle in Hset. rewrite Hw in Hset.
        destruct (getFileSelectionSpecifierPathsAsync options (disk w));
          [|discriminate].
        now injection Hset as -> _.
  - split; [reflexivity|]. split; [constructor|]. split; [constructor|].
    exists []. simpl. split; [reflexivity|].
    split; [intros o Ho; now apply elem_of_nil in Ho|].
    split; intros path; (split; [intros Hin; now apply elem_of_nil in Hin|]);
      intros (o & d & Hin & _); now apply elem_of_nil in Hin.
Qed.
End ResolverSets.

Section ResolverOrder.
Context `{GlobSyntax}.
Variable maxParallelism : nat.
Variable rootFolderPath : string.

(** C5. Whenever the resolver returns, under whatever schedule: neither
    set holds a path twice; a path is in [foldersToDelete] exactly when
    some call of the selector reported it as a directory and in
    [filesToDelete] exactly when some call reported it as something else;
    no path is in both.  And the result does not depend on the order of
    processing: for every reordering of the operations and every other
    schedule the resolver returns as well, with the same paths in each of
    the two sets. *)
Theorem C5_resolved_sets_deduplicated
    schedule schedule' deleteOperations deleteOperations' heap w :
  let calls :=
    handedOver rootFolderPath
      {| resolverWorld := w; operations := heap;
         result := {| filesToDelete := []; foldersToDelete := [] |} |}
      deleteOperations in
  match _getPathsToDeleteAsync maxParallelism schedule rootFolderPath
          deleteOperations heap w with
  | Threw _ _ => True
  | Returned s =>
      NoDup (filesToDelete (result s)) /\
      NoDup (foldersToDelete (result s)) /\
      (forall path,
          (path ∈ filesToDelete (result s) <->
           selectedAs false calls (disk w) path) /\
          (path ∈ foldersToDelete (result s) <->
           selectedAs true calls (disk w) path) /\
          ~ (path ∈ filesToDelete (result s) /\
             path ∈ foldersToDelete (result s))) /\
      (Permutation deleteOperations deleteOperations' ->
       exists s',
         _getPathsToDeleteAsync maxParallelism schedule' rootFolderPath
           deleteOperations' heap w = Returned s' /\
         forall path,
           (path ∈ filesToDelete (result s) <->
            path ∈ filesToDelete (result s')) /\
           (path ∈ foldersToDelete (result s) <->
            path ∈ foldersToDelete (result s')))
  end.
Proof.
  intros calls.
  pose proof (getPathsToDelete_sets maxParallelism rootFolderPath schedule
                deleteOperations heap w) as Hrun.
  destruct (_getPathsToDeleteAsync _ schedule _ _ _ _) as [s|error s];
    [|exact I].
  simpl in Hrun. fold calls in Hrun.
  destruct Hrun as (Hnf & Hnd & Hok & Hfiles & Hfolders).
  split; [exact Hnf|]. split; [exact Hnd|]. split.
  - intros path. split; [apply Hfiles|]. split; [apply Hfolders|].
    intros [Hf Hd]. apply Hfiles in Hf. apply Hfolders in Hd.
    eapply selectedAs_exclusive; eassumption.
  - intros Hperm.
    pose proof (getPathsToDelete_sets maxParallelism rootFolderPath schedule'
                  deleteOperations' heap w) as Hrun'.
    simpl in Hrun'.
    set (calls' := handedOver rootFolderPath _ deleteOperations') in Hrun'.
    assert (forall options, options ∈ calls <-> options ∈ calls') as Hsame.
    { intros options. split; apply handedOver_Permutation;
        try reflexivity; [exact Hperm|now symmetry]. }
    destruct (_getPathsToDeleteAsync _ schedule' _ _ _ _) as [s'|error s'].
    + exists s'. split; [reflexivity|].
      destruct Hrun' as (_ & _ & _ & Hfiles' & Hfolders').
      intros path. rewrite Hfiles, Hfiles', Hfolders, Hfolders'.
      split; split; apply selectedAs_calls; intros o; apply Hsame.
    + destruct Hrun' as (options & Hin & Hfails).
      apply Hsame, Hok in Hin as [sourcePaths Hanswered]. congruence.
Qed.
End ResolverOrder.

Lemma C5_resolved_sets_deduplicated_witness :
  exists s s',
    @_getPathsToDeleteAsync Scenario.toyGlob 2 [1] "/proj" [0; 2; 0]
      Scenario.callerHeap (Scenario.fresh Scenario.project) = Returned s /\
    @_getPathsToDeleteAsync Scenario.toyGlob 2 [] "/proj" [2; 0; 0]
      Scenario.callerHeap (Scenario.fresh Scenario.project) = Returned s' /\
    Permutation [0; 2; 0] [2; 0; 0] /\
    filesToDelete (result s) = [Scenario.a_txt; Scenario.b_txt] /\
    forall path,
      path ∈ filesToDelete (result s) <-> path ∈ filesToDelete (result s').
Proof.
  assert (Permutation [0; 2; 0] [2; 0; 0]) as Hperm by apply perm_swap.
  pose proof (@C5_resolved_sets_deduplicated Scenario.toyGlob 2 "/proj"
                [1] [] [0; 2; 0] [2; 0; 0] Scenario.callerHeap
                (Scenario.fresh Scenario.project)) as Hclaim.
  destruct (@_getPathsToDeleteAsync Scenario.toyGlob 2 [1] "/proj" [0; 2; 0]
              Scenario.callerHeap (Scenario.fresh Scenario.project))
    as [s|error s] eqn:Hrun; [|vm_compute in Hrun; discriminate].
  destruct Hclaim as (_ & _ & _ & Horder).
  destruct (Horder Hperm) as (s' & Hrun' & Hsame).
  exists s, s'. split; [reflexivity|]. split; [exact Hrun'|].
  split; [exact Hperm|]. split; [|intros path; apply Hsame].
  vm_compute in Hrun. injection Hrun as <-. reflexivity.
Defined.

(** ** Normalizing twice *)

Lemma resolvePath_absolute base path :
  isAbsolute path = true -> resolvePath base path = path.
Proof. intros Habs. unfold resolvePath. now rewrite Habs. Qed.

Lemma isAbsolute_inv path :
  isAbsolute path = true -> exists rest, path = String "/" rest.
Proof.
  destruct path as [|ch rest]; unfold isAbsolute;
    cbn -[Ascii.ascii_dec]; [discriminate|].
  destruct (Ascii.ascii_dec "/" ch) as [<-|]; [eauto|discriminate].
Qed.

Lemma isAbsolute_resolvePath base path :
  isAbsolute base = true -> isAbsolute (resolvePath base path) = true.
Proof.
  intros Hbase. unfold resolvePath.
  destruct (isAbsolute path) eqn:Hpath; [exact Hpath|].
  apply isAbsolute_inv in Hbase as [rest ->]. unfold isAbsolute.
  change (String "/" rest +:+ "/" +:+ path)
    with (String "/" (rest +:+ "/" +:+ path)).
  cbn -[Ascii.ascii_dec].
  destruct (Ascii.ascii_dec "/" "/"); [|congruence].
  now destruct (rest +:+ "/" +:+ path).
Qed.

(** Against an absolute root folder a normalized operation is already
    normal. *)
Lemma normalized_idempotent rootPath specifier :
  isAbsolute rootPath = true ->
  normalized rootPath (normalized rootPath specifier) =
  normalized rootPath specifier.
Proof.
  intros Habs. unfold normalized. simpl.
  set (root := resolvePath rootPath (rootFolder specifier)).
  assert (isAbsolute root = true) as Hroot
    by now apply isAbsolute_resolvePath.
  rewrite (resolvePath_absolute rootPath root Hroot).
  f_equal.
  - apply resolvePath_absolute. now apply isAbsolute_resolvePath.
  - rewrite map_map. apply map_ext. intros p.
    apply resolvePath_absolute. now apply isAbsolute_resolvePath.
Qed.

Lemma normalized_iter rootPath specifier times :
  isAbsolute rootPath = true ->
  1 <= times ->
  Nat.iter times (normalized rootPath) specifier =
  normalized rootPath specifier.
Proof.
  intros Habs Htimes. destruct times as [|times]; [lia|]. clear Htimes.
  induction times as [|times IH]; [reflexivity|].
  rewrite Nat.iter_succ, IH. now apply normalized_idempotent.
Qed.

Section SelectorUniform.
Context `{GlobSyntax}.

(** Whether the selector fails depends on the specifier alone; when it
    does not fail it filters the entries of the disk path by path. *)
Lemma selector_uniform options :
  (exists error, forall fs,
      getFileSelectionSpecifierPathsAsync options fs = inl error) \/
  (exists keep, forall fs,
      getFileSelectionSpecifierPathsAsync options fs =
        inr (List.filter keep (map_to_list (entries fs)))).
Proof.
  unfold getFileSelectionSpecifierPathsAsync.
  destruct (compileGlob _) as [included|]; [|left; eauto].
  destruct (compileGlobs _) as [error|excluded]; [left; eauto|].
  right. eauto.
Qed.

(** What the selector reports on a disk that has only lost entries, it
    reported before. *)
Lemma selection_shrunk options fs fs' path dirent :
  (forall q, entries fs' !! q = None \/ entries fs' !! q = entries fs !! q) ->
  (path, dirent) ∈ selection options fs' ->
  (path, dirent) ∈ selection options fs.
Proof.
  intros Hshrink. unfold selection.
  destruct (selector_uniform options) as [[error Hfail]|[keep Hkeep]].
  - rewrite !Hfail. auto.
  - rewrite !Hkeep. intros Hin.
    apply list_elem_of_In, filter_In in Hin as [Hin Hkept].
    apply list_elem_of_In, filter_In. split; [|exact Hkept].
    apply list_elem_of_In, elem_of_map_to_list.
    apply list_elem_of_In, elem_of_map_to_list in Hin.
    destruct (Hshrink path) as [Hnone|Hsame]; congruence.
Qed.
End SelectorUniform.

(** ** Running twice *)

Lemma report_disk s : disk (world (report s)) = disk (world s).
Proof. unfold report. now destruct (_ || _). Qed.

Section Idempotence.
Context `{GlobSyntax}.
Variable maxParallelism : nat.
Variable rootFolderPath : string.

(** The deleter never adds an entry, and when it returns every path of
    the batch is gone. *)
Lemma deleteFilesInner_disk schedules pathsToDelete w :
  let run :=
    _deleteFilesInnerAsync maxParallelism schedules pathsToDelete w in
  (forall q,
      entries (disk (world (finalState run))) !! q = None \/
      entries (disk (world (finalState run))) !! q = entries (disk w) !! q) /\
  match run with
  | Returned s =>
      forall p,
        p ∈ filesToDelete pathsToDelete \/ p ∈ foldersToDelete pathsToDelete ->
        entries (disk (world s)) !! p = None
  | Threw _ _ => True
  end.
Proof.
  intros run. subst run. unfold _deleteFilesInnerAsync.
  set (s0 := {| world := w; deletedFiles := 0%Z; deletedFolders := 0%Z |}).
  pose proof (removalPhase_disk maxParallelism deleteFileBegin
                deleteFileSettle deleteFileBegin_disk deleteFileSettle_disk
                schedules.1 (filesToDelete pathsToDelete) s0) as Hfiles.
  simpl in Hfiles.
  destruct (forEachAsync _ deleteFileBegin _ _ _ _) as [s1|error s1 pending];
    simpl in Hfiles; destruct Hfiles as (_ & Hshrink1 & _ & Hgone1);
    [|split; [exact Hshrink1|exact I]].
  pose proof (removalPhase_disk maxParallelism deleteFolderBegin
                deleteFolderSettle deleteFolderBegin_disk
                deleteFolderSettle_disk
                schedules.2 (foldersToDelete pathsToDelete) s1) as Hfolders.
  simpl in Hfolders.
  assert (forall s q,
             entries (disk (world s)) !! q = None \/
             entries (disk (world s)) !! q = entries (disk (world s1)) !! q ->
             entries (disk (world s)) !! q = None \/
             entries (disk (world s)) !! q = entries (disk w) !! q) as Htrans.
  { intros s q [Hnone|Hsame]; [now left|].
    rewrite Hsame. apply Hshrink1. }
  destruct (forEachAsync _ deleteFolderBegin _ _ _ _) as [s2|error s2 pending];
    simpl in Hfolders; destruct Hfolders as (_ & Hshrink2 & _ & Hgone2);
    simpl.
  - rewrite report_disk. split; [intros q; apply Htrans, Hshrink2|].
    intros p [Hp|Hp]; [|now apply Hgone2].
    destruct (Hshrink2 p) as [Hnone|Hsame]; [exact Hnone|].
    rewrite Hsame. now apply Hgone1.
  - split; [intros q; apply Htrans, Hshrink2|exact I].
Qed.

(** With nothing to delete the deleter returns at once and says
    nothing. *)
Lemma deleteFilesInner_nothing schedules w :
  _deleteFilesInnerAsync maxParallelism schedules
    {| filesToDelete := []; foldersToDelete := [] |} w =
  Returned {| world := w; deletedFiles := 0%Z; deletedFolders := 0%Z |}.
Proof. reflexivity. Qed.

Lemma nothing_selected (l : list string) : (forall p, p ∉ l) -> l = [].
Proof.
  destruct l as [|p l]; [reflexivity|]. intros Hnone.
  exfalso. apply (Hnone p). now left.
Qed.
End Idempotence.

Section RunTwice.
Context `{GlobSyntax}.
Variable maxParallelism : nat.
Variable rootFolderPath : string.
Hypothesis root_absolute : isAbsolute rootFolderPath = true.

(** After a run whose resolver returned, the selector is called again
    with specifiers it has already been called with. *)
Lemma handedOver_again schedule deleteOperations heap w s :
  _getPathsToDeleteAsync maxParallelism schedule rootFolderPath
    deleteOperations heap w = Returned s ->
  forall options w' r',
    options ∈ handedOver rootFolderPath
                {| resolverWorld := w'; operations := operations s;
                   result := r' |} deleteOperations ->
    forall w0 r0,
      options ∈ handedOver rootFolderPath
                  {| resolverWorld := w0; operations := heap; result := r0 |}
                  deleteOperations.
Proof.
  intros Hrun options w' r' Hin w0 r0.
  pose proof (getPathsToDelete_operations maxParallelism rootFolderPath
                schedule deleteOperations heap w) as Hops.
  rewrite Hrun in Hops.
  apply handedOver_elem in Hin as (ref & times & Htimes & ->).
  apply handedOver_elem. exists ref, 1. split; [lia|].
  cbn [operations]. rewrite Hops.
  rewrite (normalized_iter _ _ times) by (assumption || lia).
  rewrite (normalized_iter _ (heap ref)) by (assumption || lia).
  now rewrite normalized_idempotent.
Qed.

(** C8. Against an absolute root folder: when a run of
    [deleteFilesAsync] has returned, running it again, under whatever
    schedules, on the same operation objects as that run left them and
    on the world that run left, returns as well, with zero files and zero
    folders deleted, and leaves the world untouched: nothing is handed
    to the filesystem and nothing is written. *)
Theorem C8_second_run_deletes_nothing
    schedules schedules' deleteOperations heap w r :
  deleteFilesAsync maxParallelism schedules rootFolderPath
    deleteOperations heap w = Returned r ->
  exists r',
    deleteFilesAsync maxParallelism schedules' rootFolderPath
      deleteOperations (callerOperations r) (world (deletion r)) =
      Returned r' /\
    deletedFiles (deletion r') = 0%Z /\
    deletedFolders (deletion r') = 0%Z /\
    world (deletion r') = world (deletion r).
Proof.
  unfold deleteFilesAsync at 1.
  pose proof (getPathsToDelete_sets maxParallelism rootFolderPath
                (selections schedules) deleteOperations heap w) as Hsets.
  pose proof (getPathsToDelete_world maxParallelism rootFolderPath
                (selections schedules) deleteOperations heap w) as Hworld.
  pose proof (handedOver_again (selections schedules) deleteOperations
                heap w) as Hagain.
  destruct (_getPathsToDeleteAsync _ (selections schedules) _ _ _ _)
    as [s1|error s1]; [|discriminate].
  simpl in Hsets, Hworld. subst w.
  destruct Hsets as (_ & _ & Hok & Hfiles & Hfolders).
  pose proof (deleteFilesInner_disk maxParallelism
                (fileDeletions schedules, folderDeletions schedules)
                (result s1) (resolverWorld s1)) as Hdisk.
  destruct (_deleteFilesInnerAsync _ _ _ _) as [d|error d]; [|discriminate].
  simpl in Hdisk. destruct Hdisk as (Hshrink & Hgone).
  intros [= <-]. simpl.
  specialize (Hagain s1 eq_refl).
  set (calls := handedOver rootFolderPath
                  {| resolverWorld := resolverWorld s1; operations := heap;
                     result := {| filesToDelete := [];
                                  foldersToDelete := [] |} |}
                  deleteOperations) in *.
  pose proof (getPathsToDelete_sets maxParallelism rootFolderPath
                (selections schedules') deleteOperations (operations s1)
                (world d)) as Hsets'.
  pose proof (getPathsToDelete_world maxParallelism rootFolderPath
                (selections schedules') deleteOperations (operations s1)
                (world d)) as Hworld'.
  simpl in Hsets'.
  set (calls' := handedOver rootFolderPath _ deleteOperations) in Hsets'.
  assert (forall options, options ∈ calls' -> options ∈ calls) as Hsub.
  { intros options Hin. eapply Hagain, Hin. }
  assert (forall directory path,
             ~ selectedAs directory calls' (disk (world d)) path) as Hnone.
  { intros directory path (options & dirent & Hin & Hsel & Hkind).
    pose proof (selection_entries _ _ _ _ Hsel) as Hexists.
    apply (selection_shrunk _ (disk (resolverWorld s1))) in Hsel;
      [|exact Hshrink].
    assert (entries (disk (world d)) !! path = None) as Hgone'.
    { apply Hgone. destruct (isDirectory dirent) eqn:Hdir.
      - right. apply Hfolders. exists options, dirent. auto.
      - left. apply Hfiles. exists options, dirent. auto. }
    congruence. }
  unfold deleteFilesAsync.
  destruct (_getPathsToDeleteAsync _ (selections schedules') _ _ _ _)
    as [s2|error s2].
  - simpl in Hworld'. destruct Hsets' as (_ & _ & _ & Hfiles' & Hfolders').
    destruct s2 as [w2 heap2 [files2 folders2]]. simpl in *. subst w2.
    assert (files2 = []) as ->.
    { apply nothing_selected. intros p Hp. apply Hfiles' in Hp.
      eapply Hnone, Hp. }
    assert (folders2 = []) as ->.
    { apply nothing_selected. intros p Hp. apply Hfolders' in Hp.
      eapply Hnone, Hp. }
    rewrite deleteFilesInner_nothing. eexists. split; [reflexivity|].
    simpl. auto.
  - exfalso. destruct Hsets' as (options & Hin & Hfails).
    apply Hsub, Hok in Hin as [sourcePaths Hanswered].
    destruct (selector_uniform options) as [[e He]|[keep Hkeep]].
    + rewrite He in Hanswered. discriminate.
    + rewrite Hkeep in Hfails. discriminate.
Qed.
End RunTwice.

Lemma C8_second_run_deletes_nothing_witness :
  let schedules :=
    {| selections := []; fileDeletions := [1]; folderDeletions := [] |} in
  let again :=
    {| selections := [0]; fileDeletions := []; folderDeletions := [2] |} in
  exists r r',
    isAbsolute "/proj" = true /\
    @deleteFilesAsync Scenario.toyGlob 100 schedules "/proj" [0; 2]
      Scenario.callerHeap (Scenario.fresh Scenario.project) = Returned r /\
    deletedFiles (deletion r) = 2%Z /\
    deletedFolders (deletion r) = 1%Z /\
    @deleteFilesAsync Scenario.toyGlob 100 again "/proj" [0; 2]
      (callerOperations r) (world (deletion r)) = Returned r' /\
    deletedFiles (deletion r') = 0%Z /\
    deletedFolders (deletion r') = 0%Z.
Proof.
  intros schedules again.
  assert (isAbsolute "/proj" = true) as Habsolute by (vm_compute; reflexivity).
  destruct (@deleteFilesAsync Scenario.toyGlob 100 schedules "/proj" [0; 2]
              Scenario.callerHeap (Scenario.fresh Scenario.project))
    as [r|error r] eqn:Hrun; [|vm_compute in Hrun; discriminate].
  destruct (@C8_second_run_deletes_nothing Scenario.toyGlob 100 "/proj"
              Habsolute schedules again [0; 2] Scenario.callerHeap
              (Scenario.fresh Scenario.project) r Hrun)
    as (r' & Hagain & Hfiles & Hfolders & _).
  exists r, r'. split; [exact Habsolute|]. split; [reflexivity|].
  assert (deletedFiles (deletion r) = 2%Z /\ deletedFolders (deletion r) = 1%Z)
    as [Hf Hd].
  { vm_compute in Hrun. injection Hrun as <-. split; reflexivity. }
  auto.
Defined.

(** A specifier whose exclusion pattern does not parse: the run throws
    the selection error and the project is as it was. *)
Lemma C6_selection_error_aborts_before_deletion_witness :
  exists r,
    @deleteFilesAsync Scenario.toyGlob 100
      {| selections := []; fileDeletions := []; folderDeletions := [] |}
      "/proj" [0; 3] Scenario.callerHeap (Scenario.fresh Scenario.project)
    = Threw (SelectionError "/proj/*.[") r /\
    world (deletion r) = Scenario.fresh Scenario.project.
Proof.
  pose proof (@C6_selection_error_aborts_before_deletion Scenario.toyGlob
                100 "/proj"
                {| selections := []; fileDeletions := [];
                   folderDeletions := [] |}
                [0; 3] Scenario.callerHeap (Scenario.fresh Scenario.project))
    as Hclaim.
  destruct (@_getPathsToDeleteAsync Scenario.toyGlob 100 _ "/proj" [0; 3]
              Scenario.callerHeap (Scenario.fresh Scenario.project))
    as [s|error s] eqn:Hrun; [vm_compute in Hrun; discriminate|].
  destruct Hclaim as (_ & _ & r & Hthrew & Hworld & _).
  exists r. split; [|exact Hworld].
  rewrite Hthrew. f_equal. vm_compute in Hrun. now injection Hrun as <- _.
Defined.

(** * Further properties of the deleter *)

Section DeleterDisk.
Variable maxParallelism : nat.

(** The two phases of the deleter, one after the other, on the disk. *)
Lemma deleteFilesInner_frame schedules pathsToDelete w :
  let s :=
    finalState (_deleteFilesInnerAsync maxParallelism schedules
                  pathsToDelete w) in
  (forall q,
      q ∉ filesToDelete pathsToDelete ->
      q ∉ foldersToDelete pathsToDelete ->
      entries (disk (world s)) !! q = entries (disk w) !! q) /\
  (forall q,
      entries (disk (world s)) !! q = None \/
      entries (disk (world s)) !! q = entries (disk w) !! q) /\
  denied (disk (world s)) = denied (disk w).
Proof.
  intros s. subst s. unfold _deleteFilesInnerAsync.
  set (s0 := {| world := w; deletedFiles := 0%Z; deletedFolders := 0%Z |}).
  pose proof (removalPhase_disk maxParallelism deleteFileBegin
                deleteFileSettle deleteFileBegin_disk deleteFileSettle_disk
                schedules.1 (filesToDelete pathsToDelete) s0) as Hfiles.
  simpl in Hfiles.
  destruct (forEachAsync _ deleteFileBegin _ _ _ _) as [s1|error s1 pending];
    simpl in Hfiles; destruct Hfiles as (Hframe1 & Hshrink1 & Hdenied1 & _).
  - pose proof (removalPhase_disk maxParallelism deleteFolderBegin
                  deleteFolderSettle deleteFolderBegin_disk
                  deleteFolderSettle_disk
                  schedules.2 (foldersToDelete pathsToDelete) s1) as Hfolders.
    simpl in Hfolders.
    assert (forall s2,
               (forall q, q ∉ foldersToDelete pathsToDelete ->
                  entries (disk (world s2)) !! q =
                    entries (disk (world s1)) !! q) /\
               (forall q, entries (disk (world s2)) !! q = None \/
                  entries (disk (world s2)) !! q =
                    entries (disk (world s1)) !! q) /\
               denied (disk (world s2)) = denied (disk (world s1)) ->
               (forall q, q ∉ filesToDelete pathsToDelete ->
                  q ∉ foldersToDelete pathsToDelete ->
                  entries (disk (world s2)) !! q = entries (disk w) !! q) /\
               (forall q, entries (disk (world s2)) !! q = None \/
                  entries (disk (world s2)) !! q = entries (disk w) !! q) /\
               denied (disk (world s2)) = denied (disk w)) as Hcompose.
    { intros s2 (Hframe2 & Hshrink2 & Hdenied2). split; [|split].
      - intros q Hq1 Hq2. rewrite Hframe2 by exact Hq2. now apply Hframe1.
      - intros q. destruct (Hshrink2 q) as [Hnone|Hsame]; [now left|].
        rewrite Hsame. apply Hshrink1.
      - congruence. }
    destruct (forEachAsync _ deleteFolderBegin _ _ _ _)
      as [s2|error s2 pending]; simpl in Hfolders;
      destruct Hfolders as (Hframe2 & Hshrink2 & Hdenied2 & _); simpl.
    + rewrite report_disk. now apply Hcompose.
    + now apply Hcompose.
  - simpl. split; [|split; assumption].
    intros q Hq _. now apply Hframe1.
Qed.

(** X1. Whatever the schedule, and whether it returns or throws, the
    deleter leaves every path outside the two sets of its batch exactly as
    it was, never creates an entry, and never changes which paths are
    protected. *)
Theorem X1_deleter_touches_only_its_batch schedules pathsToDelete w :
  let s :=
    finalState (_deleteFilesInnerAsync maxParallelism schedules
                  pathsToDelete w) in
  (forall q,
      q ∉ filesToDelete pathsToDelete ->
      q ∉ foldersToDelete pathsToDelete ->
      entries (disk (world s)) !! q = entries (disk w) !! q) /\
  (forall q,
      entries (disk (world s)) !! q = None \/
      entries (disk (world s)) !! q = entries (disk w) !! q) /\
  denied (disk (world s)) = denied (disk w).
Proof.
  intros s. subst s.
  destruct (deleteFilesInner_frame schedules pathsToDelete w)
    as (Hframe & Hshrink & Hdenied).
  split; [exact Hframe|]. split; [exact Hshrink|exact Hdenied].
Qed.
End DeleterDisk.

Lemma X1_deleter_touches_only_its_batch_witness :
  let s :=
    finalState (_deleteFilesInnerAsync 2 ([1], []) Scenario.buildPaths
                  (Scenario.fresh Scenario.project)) in
  (Scenario.locked_txt ∉ filesToDelete Scenario.buildPaths) /\
  (Scenario.locked_txt ∉ foldersToDelete Scenario.buildPaths) /\
  entries (disk (world s)) !! Scenario.locked_txt = Some DirentFile.
Proof.
  intros s.
  assert (Scenario.locked_txt ∉ filesToDelete Scenario.buildPaths) as Hfiles.
  { simpl. rewrite !elem_of_cons, elem_of_nil.
    unfold Scenario.locked_txt, Scenario.a_txt, Scenario.b_txt.
    intuition discriminate. }
  assert (Scenario.locked_txt ∉ foldersToDelete Scenario.buildPaths)
    as Hfolders.
  { simpl. rewrite !elem_of_cons, elem_of_nil.
    unfold Scenario.locked_txt, Scenario.build. intuition discriminate. }
  split; [exact Hfiles|]. split; [exact Hfolders|].
  subst s.
  rewrite (proj1 (X1_deleter_touches_only_its_batch 2 ([1], [])
                    Scenario.buildPaths (Scenario.fresh Scenario.project))
             Scenario.locked_txt Hfiles Hfolders).
  reflexivity.
Defined.

Lemma size_delete_present (m : gmap string Dirent) path dirent :
  m !! path = Some dirent -> size m = Datatypes.S (size (delete path m)).
Proof.
  intros Hlook.
  assert (size (<[path:=dirent]> (delete path m)) =
          Datatypes.S (size (delete path m))) as Hsize
    by apply map_size_insert_None, lookup_delete_eq.
  rewrite insert_delete_eq, insert_id in Hsize by exact Hlook.
  exact Hsize.
Qed.

(** The entries on the disk and the two counters, taken together. *)
Definition accounted (s : DeleterState) : Z :=
  (Z.of_nat (size (entries (disk (world s))))
   + deletedFiles s + deletedFolders s)%Z.

Lemma deleteFileSettle_accounted path s :
  accounted (deleteFileSettle path s).2 = accounted s.
Proof.
  pose proof (deleteFileAsync_inv path (disk (world s))) as Hinv.
  unfold accounted. settle_file path s; rewrite Hfs in Hinv; simpl.
  - destruct Hinv as (Hfile & _ & ->). simpl.
    rewrite (size_delete_present _ _ _ Hfile). lia.
  - reflexivity.
Qed.

Lemma deleteFolderSettle_accounted path s :
  accounted (deleteFolderSettle path s).2 = accounted s.
Proof.
  pose proof (deleteFolderAsync_inv path (disk (world s))) as Hinv.
  unfold accounted. settle_folder path s; rewrite Hfs in Hinv; simpl.
  - destruct Hinv as (Hfolder & _ & _ & ->). simpl.
    rewrite (size_delete_present _ _ _ Hfolder). lia.
  - reflexivity.
Qed.

Lemma report_accounted s : accounted (report s) = accounted s.
Proof. unfold report. now destruct (_ || _). Qed.

Section DeleterAccounts.
Variable maxParallelism : nat.

(** X2. The counters count removals and nothing else.  A run of the
    deleter that returns has lost exactly [deletedFiles + deletedFolders]
    entries of the disk it started from, under every schedule.  In a run
    that throws, every removal that was counted is an entry the disk has
    lost; the disk may have lost more, since the removals still in
    flight are counted by nobody. *)
Theorem X2_counters_count_removed_entries schedules pathsToDelete w :
  let lost (s : DeleterState) :=
    (Z.of_nat (size (entries (disk w)))
     - Z.of_nat (size (entries (disk (world s)))))%Z in
  match _deleteFilesInnerAsync maxParallelism schedules pathsToDelete w with
  | Returned s => lost s = (deletedFiles s + deletedFolders s)%Z
  | Threw _ s => (deletedFiles s + deletedFolders s <= lost s)%Z
  end.
Proof.
  intros lost. subst lost. unfold _deleteFilesInnerAsync.
  set (s0 := {| world := w; deletedFiles := 0%Z; deletedFolders := 0%Z |}).
  assert (accounted s0 = Z.of_nat (size (entries (disk w)))) as Hstart
    by (unfold accounted; simpl; lia).
  pose proof (forEachAsync_preserved maxParallelism deleteFileBegin
                deleteFileSettle (fun s => accounted s = accounted s0)
                schedules.1 (filesToDelete pathsToDelete) s0) as Hfiles.
  lapply Hfiles; clear Hfiles; [intros Hfiles|now intros x s].
  lapply Hfiles; clear Hfiles;
    [intros Hfiles|intros op s; now rewrite deleteFileSettle_accounted].
  specialize (Hfiles eq_refl).
  destruct (forEachAsync _ deleteFileBegin _ _ _ _) as [s1|error s1 pending];
    simpl in Hfiles; [|unfold accounted in *; lia].
  pose proof (forEachAsync_preserved maxParallelism deleteFolderBegin
                deleteFolderSettle (fun s => accounted s = accounted s0)
                schedules.2 (foldersToDelete pathsToDelete) s1) as Hfolders.
  lapply Hfolders; clear Hfolders; [intros Hfolders|now intros x s].
  lapply Hfolders; clear Hfolders;
    [intros Hfolders|intros op s; now rewrite deleteFolderSettle_accounted].
  specialize (Hfolders Hfiles).
  destruct (forEachAsync _ deleteFolderBegin _ _ _ _) as [s2|error s2 pending];
    simpl in Hfolders.
  - rewrite <- (report_accounted s2) in Hfolders.
    unfold accounted in *. lia.
  - unfold accounted in *. lia.
Qed.
End DeleterAccounts.

(** ** The verbose trace *)

(** The verbose line of a deleted file and of a deleted folder. *)
Definition deletedFileLine (path : string) : string :=
  "Deleted " +:+ dquote +:+ path +:+ dquote +:+ ".".

Definition deletedFolderLine (path : string) : string :=
  "Deleted folder " +:+ dquote +:+ path +:+ dquote +:+ ".".

Section TracingPhase.
Variable concurrency : nat.
Variable begin : string -> DeleterState -> DeleterState * string.
Variable settle : string -> DeleterState -> option Error * DeleterState.
Variable counter : DeleterState -> Z.
Variable line : string -> string.

Hypothesis begin_trace : forall path s,
  (begin path s).2 = path /\
  terminal (world (begin path s).1) = terminal (world s) /\
  counter (begin path s).1 = counter s.

(** A completed deletion either writes nothing and counts nothing, or
    writes the line of its path and counts one. *)
Hypothesis settle_trace : forall path s,
  (terminal (world (settle path s).2) = terminal (world s) /\
   counter (settle path s).2 = counter s) \/
  (terminal (world (settle path s).2) =
     writeVerboseLine (terminal (world s)) (line path) /\
   counter (settle path s).2 = (counter s + 1)%Z).

Definition tracingInv (paths : list string) (s0 : DeleterState)
    (queue inflight : list string) (s : DeleterState) : Prop :=
  (forall p, p ∈ inflight ++ queue -> p ∈ paths) /\
  exists lines,
    terminal (world s) =
      terminal (world s0) ++ map (fun l => (SeverityVerbose, l)) lines /\
    Z.of_nat (length lines) = (counter s - counter s0)%Z /\
    Forall (fun l => exists p, p ∈ paths /\ l = line p) lines.

Lemma tracingInv_settle paths s0 queue inflight s i op :
  tracingInv paths s0 queue inflight s ->
  inflight !! i = Some op ->
  tracingInv paths s0 queue (delete i inflight) (settle op s).2.
Proof.
  intros (Hsub & lines & Hterm & Hlen & Hshape) Hop.
  assert (op ∈ paths) as Hin.
  { apply Hsub, elem_of_app. left. eapply list_elem_of_lookup_2, Hop. }
  split.
  - intros p Hp. apply Hsub. rewrite elem_of_app in *.
    destruct Hp as [Hp|Hp]; [left|now right].
    eapply list_elem_of_delete_inv, Hp.
  - destruct (settle_trace op s) as [[Ht Hc]|[Ht Hc]].
    + exists lines. rewrite Ht, Hc. auto.
    + exists (lines ++ [line op]). rewrite Ht, Hc, Hterm.
      unfold writeVerboseLine. rewrite map_app, <- app_assoc. simpl.
      split; [reflexivity|]. split.
      * rewrite length_app. simpl. lia.
      * apply Forall_app. split; [exact Hshape|].
        constructor; [eauto|constructor].
Qed.

(** Under every schedule, and whether the phase resolves or is
    rejected: it writes verbose lines only, one for each unit its counter
    has grown by, each the line of a path of its batch. *)
Lemma tracingPhase schedule paths s0 :
  let s :=
    promiseState (forEachAsync concurrency begin settle schedule paths s0) in
  exists lines,
    terminal (world s) =
      terminal (world s0) ++ map (fun l => (SeverityVerbose, l)) lines /\
    Z.of_nat (length lines) = (counter s - counter s0)%Z /\
    Forall (fun l => exists p, p ∈ paths /\ l = line p) lines.
Proof.
  intros s. subst s.
  pose proof (forEachAsync_invariant concurrency begin settle
                (tracingInv paths s0)) as Hinv.
  lapply Hinv; clear Hinv.
  - intros Hinv. lapply Hinv; clear Hinv.
    + intros Hinv. specialize (Hinv schedule paths s0).
      lapply Hinv; clear Hinv.
      * intros Hinv.
        destruct (forEachAsync _ _ _ _ _ _) as [s|error s pending]; simpl.
        -- apply Hinv.
        -- destruct Hinv as (queue & inflight & s1 & i & op & HI & Hop
                             & Hset & _).
           pose proof (tracingInv_settle _ _ _ _ _ _ _ HI Hop) as [_ Hlines].
           now rewrite Hset in Hlines.
      * split; [now intros p Hp|]. exists []. simpl.
        rewrite app_nil_r. split; [reflexivity|]. split; [lia|constructor].
    + intros queue inflight s i op HI Hop _.
      now apply tracingInv_settle.
  - intros x queue inflight s (Hsub & lines & Hterm & Hlen & Hshape) _.
    destruct (begin_trace x s) as (-> & Ht & Hc).
    split; [now rewrite <- app_assoc|].
    exists lines. rewrite Ht, Hc. auto.
Qed.

(** The operations a rejected phase leaves in flight are entries of its
    batch. *)
Lemma tracingPhase_pending schedule paths s0 :
  match forEachAsync concurrency begin settle schedule paths s0 with
  | Resolved _ => True
  | Rejected _ _ pending => forall p, p ∈ pending -> p ∈ paths
  end.
Proof.
  pose proof (forEachAsync_invariant concurrency begin settle
                (fun queue inflight _ =>
                   forall p, p ∈ inflight ++ queue -> p ∈ paths)) as Hinv.
  lapply Hinv; clear Hinv.
  - intros Hinv. lapply Hinv; clear Hinv.
    + intros Hinv. specialize (Hinv schedule paths s0).
      lapply Hinv; clear Hinv; [|now intros p Hp].
      intros Hinv.
      destruct (forEachAsync _ _ _ _ _ _) as [s|error s pending]; [exact I|].
      destruct Hinv as (queue & inflight & s1 & i & op & HI & Hop & _ & ->).
      intros p Hp. apply HI, elem_of_app. left.
      eapply list_elem_of_delete_inv, Hp.
    + intros queue inflight s i op HI Hop _ p Hp. apply HI.
      rewrite elem_of_app in *. destruct Hp as [Hp|Hp]; [left|now right].
      eapply list_elem_of_delete_inv, Hp.
  - intros x queue inflight s HI _ p Hp.
    destruct (begin_trace x s) as (Hx & _). rewrite Hx in Hp.
    apply HI. now rewrite <- app_assoc in Hp.
Qed.

Lemma tracingInv_background schedule remaining paths s0 pending s :
  tracingInv paths s0 [] pending s ->
  exists pending',
    tracingInv paths s0 [] pending'
      (background settle schedule remaining pending s).
Proof.
  revert schedule pending s.
  induction remaining as [|n IH]; intros schedule pending s HI; simpl.
  - now exists pending.
  - destruct (pending !! pick schedule pending) as [op|] eqn:Hop.
    + apply IH. now apply tracingInv_settle.
    + now exists pending.
Qed.

(** After a rejection the operations left in flight go on as before: as
    they are answered they write verbose lines only, one for each unit
    the counter grows by, each the line of a path of the batch. *)
Lemma tracingBackground schedule remaining (paths pending : list string) s :
  (forall p, p ∈ pending -> p ∈ paths) ->
  let s' := background settle schedule remaining pending s in
  exists lines,
    terminal (world s') =
      terminal (world s) ++ map (fun l => (SeverityVerbose, l)) lines /\
    Z.of_nat (length lines) = (counter s' - counter s)%Z /\
    Forall (fun l => exists p, p ∈ paths /\ l = line p) lines.
Proof.
  intros Hsub s'. subst s'.
  assert (tracingInv paths s [] pending s) as HI.
  { split; [intros p Hp; rewrite app_nil_r in Hp; auto|].
    exists []. simpl. rewrite app_nil_r.
    split; [reflexivity|]. split; [lia|constructor]. }
  destruct (tracingInv_background schedule remaining _ _ _ _ HI)
    as (pending' & _ & Hlines).
  exact Hlines.
Qed.
End TracingPhase.

Lemma deleteFileSettle_trace path s :
  (terminal (world (deleteFileSettle path s).2) = terminal (world s) /\
   deletedFiles (deleteFileSettle path s).2 = deletedFiles s) \/
  (terminal (world (deleteFileSettle path s).2) =
     writeVerboseLine (terminal (world s)) (deletedFileLine path) /\
   deletedFiles (deleteFileSettle path s).2 = (deletedFiles s + 1)%Z).
Proof. settle_file path s; simpl; [right|left]; split; reflexivity. Qed.

Lemma deleteFolderSettle_trace path s :
  (terminal (world (deleteFolderSettle path s).2) = terminal (world s) /\
   deletedFolders (deleteFolderSettle path s).2 = deletedFolders s) \/
  (terminal (world (deleteFolderSettle path s).2) =
     writeVerboseLine (terminal (world s)) (deletedFolderLine path) /\
   deletedFolders (deleteFolderSettle path s).2 = (deletedFolders s + 1)%Z).
Proof. settle_folder path s; simpl; [right|left]; split; reflexivity. Qed.

Section DeleterTrace.
Variable maxParallelism : nat.

(** X3. Everything a run of the deleter writes to the terminal, under
    every schedule.  Up to the moment it returns or throws: first one
    verbose line [Deleted "path".] for each file it counted, then one
    verbose line [Deleted folder "path".] for each folder it counted,
    each for a path of the respective set, and last, only when the run
    returns with a positive counter, the summary line.  A target that
    was missing, and a deletion that failed, leave no line at all.  And
    after a throw: the deletions the rejected phase has left in flight
    go on writing as they are answered, again verbose lines only, one
    for each removal they count, each for a path of the set of that
    phase; the summary line is never written. *)
Theorem X3_terminal_of_a_run schedules pathsToDelete w :
  let run :=
    _deleteFilesInnerAsync maxParallelism schedules pathsToDelete w in
  let s := finalState run in
  (exists fileLines folderLines,
    terminal (world s) =
      terminal w
        ++ map (fun l => (SeverityVerbose, l)) fileLines
        ++ map (fun l => (SeverityVerbose, l)) folderLines
        ++ match run with
           | Returned _ =>
               if (deletedFiles s >? 0)%Z || (deletedFolders s >? 0)%Z
               then [(SeverityLog,
                      summaryLine (deletedFiles s) (deletedFolders s))]
               else []
           | Threw _ _ => []
           end /\
    Z.of_nat (length fileLines) = deletedFiles s /\
    Z.of_nat (length folderLines) = deletedFolders s /\
    Forall (fun l => exists p, p ∈ filesToDelete pathsToDelete /\
                               l = deletedFileLine p) fileLines /\
    Forall (fun l => exists p, p ∈ foldersToDelete pathsToDelete /\
                               l = deletedFolderLine p) folderLines) /\
  (forall later remaining s0,
      match forEachAsync maxParallelism deleteFileBegin deleteFileSettle
              schedules.1 (filesToDelete pathsToDelete) s0 with
      | Resolved _ => True
      | Rejected _ thrown pending =>
          let s' := background deleteFileSettle later remaining pending
                      thrown in
          exists lines,
            terminal (world s') =
              terminal (world thrown)
                ++ map (fun l => (SeverityVerbose, l)) lines /\
            Z.of_nat (length lines) =
              (deletedFiles s' - deletedFiles thrown)%Z /\
            Forall (fun l => exists p, p ∈ filesToDelete pathsToDelete /\
                                       l = deletedFileLine p) lines
      end /\
      match forEachAsync maxParallelism deleteFolderBegin
              deleteFolderSettle schedules.2
              (foldersToDelete pathsToDelete) s0 with
      | Resolved _ => True
      | Rejected _ thrown pending =>
          let s' := background deleteFolderSettle later remaining pending
                      thrown in
          exists lines,
            terminal (world s') =
              terminal (world thrown)
                ++ map (fun l => (SeverityVerbose, l)) lines /\
            Z.of_nat (length lines) =
              (deletedFolders s' - deletedFolders thrown)%Z /\
            Forall (fun l => exists p, p ∈ foldersToDelete pathsToDelete /\
                                       l = deletedFolderLine p) lines
      end).
Proof.
  intros run s. split; [|intros later remaining s0; split].
  2: { pose proof (tracingPhase_pending maxParallelism deleteFileBegin
                     deleteFileSettle deletedFiles
                     ltac:(intros; repeat split; reflexivity)
                     schedules.1 (filesToDelete pathsToDelete) s0) as Hsub.
       destruct (forEachAsync _ _ _ _ _ _) as [s1|error s1 pending];
         [exact I|].
       apply (tracingBackground deleteFileSettle deletedFiles
                deletedFileLine deleteFileSettle_trace later remaining
                (filesToDelete pathsToDelete) pending s1 Hsub). }
  2: { pose proof (tracingPhase_pending maxParallelism deleteFolderBegin
                     deleteFolderSettle deletedFolders
                     ltac:(intros; repeat split; reflexivity)
                     schedules.2 (foldersToDelete pathsToDelete) s0) as Hsub.
       destruct (forEachAsync _ _ _ _ _ _) as [s1|error s1 pending];
         [exact I|].
       apply (tracingBackground deleteFolderSettle deletedFolders
                deletedFolderLine deleteFolderSettle_trace later remaining
                (foldersToDelete pathsToDelete) pending s1 Hsub). }
  subst s run. unfold _deleteFilesInnerAsync.
  set (s0 := {| world := w; deletedFiles := 0%Z; deletedFolders := 0%Z |}).
  destruct (tracingPhase maxParallelism deleteFileBegin deleteFileSettle
              deletedFiles deletedFileLine
              ltac:(intros; repeat split; reflexivity) deleteFileSettle_trace
              schedules.1 (filesToDelete pathsToDelete) s0)
    as (fileLines & Hterm1 & Hlen1 & Hshape1).
  pose proof (filePhase_counters maxParallelism schedules.1
                (filesToDelete pathsToDelete) s0) as Hcount1.
  destruct (forEachAsync _ deleteFileBegin _ _ _ _) as [s1|error s1 pending];
    simpl in Hterm1, Hlen1.
  - destruct Hcount1 as (_ & Hother1). simpl in Hother1.
    destruct (tracingPhase maxParallelism deleteFolderBegin
                deleteFolderSettle deletedFolders deletedFolderLine
                ltac:(intros; repeat split; reflexivity)
                deleteFolderSettle_trace
                schedules.2 (foldersToDelete pathsToDelete) s1)
      as (folderLines & Hterm2 & Hlen2 & Hshape2).
    pose proof (folderPhase_counters maxParallelism schedules.2
                  (foldersToDelete pathsToDelete) s1) as Hcount2.
    exists fileLines, folderLines.
    destruct (forEachAsync _ deleteFolderBegin _ _ _ _)
      as [s2|error s2 pending]; simpl in Hterm2, Hlen2; simpl.
    + destruct Hcount2 as (_ & Hother2).
      destruct (report_counters s2) as [Hrf Hrd]. rewrite Hrf, Hrd.
      split; [|repeat split; try assumption; lia].
      unfold report.
      destruct ((deletedFiles s2 >? 0)%Z || (deletedFolders s2 >? 0)%Z);
        simpl; unfold writeLine; rewrite Hterm2, Hterm1;
        now rewrite <- ?app_assoc, ?app_nil_r.
    + destruct Hcount2 as (_ & _ & Hother2).
      split; [|repeat split; try assumption; lia].
      rewrite Hterm2, Hterm1. now rewrite <- ?app_assoc, ?app_nil_r.
  - destruct Hcount1 as (_ & _ & Hother1). simpl in Hother1.
    exists fileLines, []. simpl. rewrite app_nil_r.
    split; [exact Hterm1|]. repeat split; try assumption; try lia.
    constructor.
Qed.
End DeleterTrace.

(** ** Each path once, in iteration order *)

Lemma issuedCalls_app e1 e2 :
  issuedCalls (e1 ++ e2) = issuedCalls e1 ++ issuedCalls e2.
Proof. unfold issuedCalls. apply omap_app. Qed.

Lemma completedCalls_app e1 e2 :
  completedCalls (e1 ++ e2) = completedCalls e1 ++ completedCalls e2.
Proof. unfold completedCalls. apply omap_app. Qed.

Section OrderedPhase.
Variable concurrency : nat.
Variable begin : string -> DeleterState -> DeleterState * string.
Variable settle : string -> DeleterState -> option Error * DeleterState.
Variable call : string -> FsCall.

Hypothesis begin_journal : forall path s,
  (begin path s).2 = path /\
  journal (world (begin path s).1) =
    journal (world s) ++ [Issued (call path)].

(** The answer is recorded; what the callback throws is the failure the
    filesystem answered with. *)
Hypothesis settle_journal : forall path s,
  exists failure,
    journal (world (settle path s).2) =
      journal (world s) ++ [Completed (call path) failure] /\
    forall error, (settle path s).1 = Some error -> failure = Some error.

(** What is known of an error, the path it was thrown for and the state
    it was thrown in. *)
Variable blame : string -> Error -> DeleterState -> Prop.

Hypothesis settle_blame : forall path s error s',
  settle path s = (Some error, s') -> blame path error s'.

Definition orderedInv (paths : list string) (s0 : DeleterState)
    (queue inflight : list string) (s : DeleterState) : Prop :=
  (forall p, p ∈ inflight ++ queue -> p ∈ paths) /\
  exists events,
    journal (world s) = journal (world s0) ++ events /\
    issuedCalls events ++ map call queue = map call paths /\
    Permutation (completedCalls events ++ map call inflight)
      (issuedCalls events).

Lemma orderedInv_begin paths s0 x queue inflight s :
  orderedInv paths s0 (x :: queue) inflight s ->
  orderedInv paths s0 queue (inflight ++ [(begin x s).2]) (begin x s).1.
Proof.
  intros (Hsub & events & Hj & Hissued & Hperm).
  destruct (begin_journal x s) as [-> Hjournal].
  split; [now rewrite <- app_assoc|].
  exists (events ++ [Issued (call x)]). split; [|split].
  - rewrite Hjournal, Hj. now rewrite app_assoc.
  - rewrite issuedCalls_app, <- app_assoc. exact Hissued.
  - rewrite issuedCalls_app, completedCalls_app, map_app. simpl.
    rewrite app_nil_r, app_assoc. now rewrite Hperm.
Qed.

Lemma orderedInv_settle paths s0 queue inflight s i op :
  orderedInv paths s0 queue inflight s ->
  inflight !! i = Some op ->
  op ∈ paths /\
  exists events failure,
    journal (world (settle op s).2) =
      journal (world s0) ++ events ++ [Completed (call op) failure] /\
    (forall error, (settle op s).1 = Some error -> failure = Some error) /\
    issuedCalls events ++ map call queue = map call paths /\
    Permutation
      (completedCalls (events ++ [Completed (call op) failure])
         ++ map call (delete i inflight))
      (issuedCalls (events ++ [Completed (call op) failure])).
Proof.
  intros (Hsub & events & Hj & Hissued & Hperm) Hop.
  split.
  { apply Hsub, elem_of_app. left. eapply list_elem_of_lookup_2, Hop. }
  destruct (settle_journal op s) as (failure & Hjournal & Hthrown).
  exists events, failure. split; [|split; [exact Hthrown|split]].
  - rewrite Hjournal, Hj. now rewrite app_assoc.
  - exact Hissued.
  - destruct (delete_lookup_split _ _ _ Hop) as (l1 & l2 & -> & ->).
    rewrite issuedCalls_app, completedCalls_app. simpl.
    rewrite app_nil_r, <- Hperm, !map_app. simpl.
    rewrite <- !app_assoc. apply Permutation_app_head. simpl.
    now rewrite Permutation_middle.
Qed.

(** Under every schedule: the calls are issued in the iteration order of
    the batch, each entry once; when the phase resolves every entry has
    been issued and answered once; when it is rejected, the last event is
    the failed answer for a path of the batch, with the error thrown. *)
Lemma orderedPhase schedule paths s0 :
  match forEachAsync concurrency begin settle schedule paths s0 with
  | Resolved s =>
      exists events,
        journal (world s) = journal (world s0) ++ events /\
        issuedCalls events = map call paths /\
        Permutation (completedCalls events) (map call paths)
  | Rejected error s pending =>
      exists events path rest,
        journal (world s) =
          journal (world s0) ++ events
            ++ [Completed (call path) (Some error)] /\
        path ∈ paths /\
        blame path error s /\
        issuedCalls events ++ rest = map call paths /\
        Permutation
          (completedCalls events ++ call path :: map call pending)
          (issuedCalls events)
  end.
Proof.
  pose proof (forEachAsync_invariant concurrency begin settle
                (orderedInv paths s0)) as Hinv.
  lapply Hinv; clear Hinv; [|intros; now apply orderedInv_begin].
  intros Hinv. lapply Hinv; clear Hinv.
  - intros Hinv. specialize (Hinv schedule paths s0).
    lapply Hinv; clear Hinv.
    + intros Hinv.
      destruct (forEachAsync _ _ _ _ _ _) as [s|error s pending].
      * destruct Hinv as (_ & events & Hj & Hissued & Hperm).
        simpl in Hissued, Hperm. rewrite app_nil_r in Hissued, Hperm.
        exists events. split; [exact Hj|]. split; [exact Hissued|].
        now rewrite Hperm, Hissued.
      * destruct Hinv as (queue & inflight & s1 & i & op & HI & Hop
                          & Hset & ->).
        destruct (orderedInv_settle _ _ _ _ _ _ _ HI Hop)
          as (Hin & events & failure & Hj & Hthrown & Hissued & Hperm).
        rewrite Hset in Hj, Hthrown. simpl in Hj, Hthrown.
        rewrite (Hthrown error eq_refl) in *.
        exists events, op, (map call queue).
        split; [exact Hj|]. split; [exact Hin|].
        split; [eapply settle_blame, Hset|]. split; [exact Hissued|].
        rewrite issuedCalls_app, completedCalls_app in Hperm. simpl in Hperm.
        rewrite app_nil_r in Hperm. rewrite <- Hperm.
        rewrite <- app_assoc. reflexivity.
    + split; [now intros p Hp|]. exists []. simpl.
      rewrite app_nil_r. auto.
  - intros queue inflight s i op HI Hop _.
    destruct (orderedInv_settle _ _ _ _ _ _ _ HI Hop)
      as (Hin & events & failure & Hj & _ & Hissued & Hperm).
    destruct HI as (Hsub & _).
    split.
    + intros p Hp. apply Hsub. rewrite elem_of_app in *.
      destruct Hp as [Hp|Hp]; [left|now right].
      eapply list_elem_of_delete_inv, Hp.
    + exists (events ++ [Completed (call op) failure]).
      split; [exact Hj|].
      split; [|exact Hperm].
      rewrite issuedCalls_app. simpl. now rewrite app_nil_r.
Qed.
End OrderedPhase.

Lemma deleteFileSettle_ordered path s :
  exists failure,
    journal (world (deleteFileSettle path s).2) =
      journal (world s) ++ [Completed (CallDeleteFile path) failure] /\
    forall error,
      (deleteFileSettle path s).1 = Some error -> failure = Some error.
Proof.
  settle_file path s; simpl.
  - exists None. split; [reflexivity|discriminate].
  - exists (Some error). split; [reflexivity|].
    destruct (isNotExistError error); [discriminate|].
    now intros e [= <-].
Qed.

Lemma deleteFolderSettle_ordered path s :
  exists failure,
    journal (world (deleteFolderSettle path s).2) =
      journal (world s) ++ [Completed (CallDeleteFolder path) failure] /\
    forall error,
      (deleteFolderSettle path s).1 = Some error -> failure = Some error.
Proof.
  settle_folder path s; simpl.
  - exists None. split; [reflexivity|discriminate].
  - exists (Some error). split; [reflexivity|].
    destruct (isNotExistError error); [discriminate|].
    now intros e [= <-].
Qed.

(** What a callback throws is no missing target. *)
Lemma deleteFileSettle_blame path s error s' :
  deleteFileSettle path s = (Some error, s') ->
  isNotExistError error = false.
Proof.
  settle_file path s; [discriminate|].
  destruct (isNotExistError error0) eqn:Hkind; [discriminate|].
  now intros [= <- <-].
Qed.

Lemma deleteFolderSettle_blame path s error s' :
  deleteFolderSettle path s = (Some error, s') ->
  isNotExistError error = false.
Proof.
  settle_folder path s; [discriminate|].
  destruct (isNotExistError error0) eqn:Hkind; [discriminate|].
  now intros [= <- <-].
Qed.

Section DeleterJournal.
Variable maxParallelism : nat.

Lemma filePhase_ordered schedule files s0 :
  match forEachAsync maxParallelism deleteFileBegin deleteFileSettle
          schedule files s0 with
  | Resolved s =>
      exists events,
        journal (world s) = journal (world s0) ++ events /\
        issuedCalls events = map CallDeleteFile files /\
        Permutation (completedCalls events) (map CallDeleteFile files)
  | Rejected error s pending =>
      exists events path rest,
        journal (world s) =
          journal (world s0) ++ events
            ++ [Completed (CallDeleteFile path) (Some error)] /\
        path ∈ files /\
        isNotExistError error = false /\
        issuedCalls events ++ rest = map CallDeleteFile files /\
        Permutation
          (completedCalls events
             ++ CallDeleteFile path :: map CallDeleteFile pending)
          (issuedCalls events)
  end.
Proof.
  apply (orderedPhase maxParallelism deleteFileBegin deleteFileSettle
           CallDeleteFile ltac:(intros; split; reflexivity)
           deleteFileSettle_ordered
           (fun path error _ => isNotExistError error = false)
           deleteFileSettle_blame).
Qed.

Lemma folderPhase_ordered schedule folders s0 :
  match forEachAsync maxParallelism deleteFolderBegin deleteFolderSettle
          schedule folders s0 with
  | Resolved s =>
      exists events,
        journal (world s) = journal (world s0) ++ events /\
        issuedCalls events = map CallDeleteFolder folders /\
        Permutation (completedCalls events) (map CallDeleteFolder folders)
  | Rejected error s pending =>
      exists events path rest,
        journal (world s) =
          journal (world s0) ++ events
            ++ [Completed (CallDeleteFolder path) (Some error)] /\
        path ∈ folders /\
        isNotExistError error = false /\
        issuedCalls events ++ rest = map CallDeleteFolder folders /\
        Permutation
          (completedCalls events
             ++ CallDeleteFolder path :: map CallDeleteFolder pending)
          (issuedCalls events)
  end.
Proof.
  apply (orderedPhase maxParallelism deleteFolderBegin deleteFolderSettle
           CallDeleteFolder ltac:(intros; split; reflexivity)
           deleteFolderSettle_ordered
           (fun path error _ => isNotExistError error = false)
           deleteFolderSettle_blame).
Qed.

Lemma elem_of_callsOf call pathsToDelete :
  call ∈ callsOf pathsToDelete <->
  (exists path,
      call = CallDeleteFile path /\ path ∈ filesToDelete pathsToDelete) \/
  (exists path,
      call = CallDeleteFolder path /\ path ∈ foldersToDelete pathsToDelete).
Proof.
  unfold callsOf. rewrite elem_of_app, !list_elem_of_fmap.
  split; (intros [(path & Hcall & Hin)|(path & Hcall & Hin)];
          [left|right]; now exists path).
Qed.

(** What the deleter throws, read off the journal. *)
Lemma deleteFilesInner_thrown schedules pathsToDelete w :
  match _deleteFilesInnerAsync maxParallelism schedules pathsToDelete w with
  | Returned _ => True
  | Threw error s =>
      isNotExistError error = false /\
      exists events call,
        journal (world s) =
          journal w ++ events ++ [Completed call (Some error)] /\
        call ∈ callsOf pathsToDelete /\
        Forall benign events
  end.
Proof.
  unfold _deleteFilesInnerAsync.
  set (s0 := {| world := w; deletedFiles := 0%Z; deletedFolders := 0%Z |}).
  pose proof (filePhase_ordered schedules.1 (filesToDelete pathsToDelete) s0)
    as Hfiles.
  pose proof (filePhase_failures maxParallelism schedules.1
                (filesToDelete pathsToDelete) s0) as Hbenign1.
  destruct (forEachAsync _ deleteFileBegin _ _ _ _) as [s1|error s1 pending].
  - destruct Hfiles as (events1 & Hj1 & _).
    destruct Hbenign1 as (events1' & Hj1' & Hall1).
    rewrite Hj1 in Hj1'. apply app_inv_head in Hj1'. subst events1'.
    pose proof (folderPhase_ordered schedules.2
                  (foldersToDelete pathsToDelete) s1) as Hfolders.
    pose proof (folderPhase_failures maxParallelism schedules.2
                  (foldersToDelete pathsToDelete) s1) as Hbenign2.
    destruct (forEachAsync _ deleteFolderBegin _ _ _ _)
      as [s2|error s2 pending]; [exact I|].
    destruct Hfolders as (events2 & path & rest & Hj2 & Hin & Hkind & _).
    destruct Hbenign2 as (events2' & path' & Hj2' & Hall2 & _).
    rewrite Hj2 in Hj2'. apply app_inv_head in Hj2'.
    apply app_inj_tail in Hj2' as [<- _].
    split; [exact Hkind|].
    exists (events1 ++ events2), (CallDeleteFolder path).
    split; [rewrite Hj2, Hj1; simpl; now rewrite <- !app_assoc|].
    split; [|apply Forall_app; now split].
    apply elem_of_callsOf. right. now exists path.
  - destruct Hfiles as (events1 & path & rest & Hj1 & Hin & Hkind & _).
    destruct Hbenign1 as (events1' & path' & Hj1' & Hall1 & _).
    rewrite Hj1 in Hj1'. apply app_inv_head in Hj1'.
    apply app_inj_tail in Hj1' as [<- _].
    split; [exact Hkind|].
    exists events1, (CallDeleteFile path).
    split; [exact Hj1|]. split; [|exact Hall1].
    apply elem_of_callsOf. left. now exists path.
Qed.

(** X4. What the deleter throws is never made up, never wrapped and
    never late: under every schedule, when it throws, the last event of
    the journal is the answer to a deletion of the batch, a file of
    [filesToDelete] or a folder of [foldersToDelete]; that answer is the
    error thrown and is no missing target; and every answer recorded
    before it was a success or a missing target, so the run throws at the
    first failure it is told of. *)
Theorem X4_thrown_error_is_the_last_answer schedules pathsToDelete w :
  match _deleteFilesInnerAsync maxParallelism schedules pathsToDelete w with
  | Returned _ => True
  | Threw error s =>
      isNotExistError error = false /\
      exists events call,
        journal (world s) =
          journal w ++ events ++ [Completed call (Some error)] /\
        ((exists path, call = CallDeleteFile path /\
                       path ∈ filesToDelete pathsToDelete) \/
         (exists path, call = CallDeleteFolder path /\
                       path ∈ foldersToDelete pathsToDelete)) /\
        Forall benign events
  end.
Proof.
  pose proof (deleteFilesInner_thrown schedules pathsToDelete w) as Hthrown.
  destruct (_deleteFilesInnerAsync _ _ _ _) as [s|error s]; [exact I|].
  destruct Hthrown as (Hkind & events & call & Hj & Hin & Hall).
  split; [exact Hkind|]. exists events, call.
  split; [exact Hj|]. split; [|exact Hall].
  now apply elem_of_callsOf.
Qed.

(** X5. No deletion is retried, skipped or reordered at its start: under
    every schedule the calls the deleter hands to the filesystem are
    issued in the order files first, then folders, each set in its
    iteration order, one call for each entry.  When the run returns,
    every entry of the batch has been issued once and answered once; when
    it throws, the calls issued are an initial part of that sequence. *)
Theorem X5_each_path_attempted_once_in_order schedules pathsToDelete w :
  let run :=
    _deleteFilesInnerAsync maxParallelism schedules pathsToDelete w in
  exists events,
    journal (world (finalState run)) = journal w ++ events /\
    match run with
    | Returned _ =>
        issuedCalls events = callsOf pathsToDelete /\
        Permutation (completedCalls events) (callsOf pathsToDelete)
    | Threw _ _ =>
        exists rest, issuedCalls events ++ rest = callsOf pathsToDelete
    end.
Proof.
  intros run. subst run. unfold _deleteFilesInnerAsync, callsOf.
  set (s0 := {| world := w; deletedFiles := 0%Z; deletedFolders := 0%Z |}).
  pose proof (filePhase_ordered schedules.1 (filesToDelete pathsToDelete) s0)
    as Hfiles.
  destruct (forEachAsync _ deleteFileBegin _ _ _ _) as [s1|error s1 pending].
  - destruct Hfiles as (events1 & Hj1 & Hissued1 & Hperm1).
    pose proof (folderPhase_ordered schedules.2
                  (foldersToDelete pathsToDelete) s1) as Hfolders.
    destruct (forEachAsync _ deleteFolderBegin _ _ _ _)
      as [s2|error s2 pending]; simpl.
    + destruct Hfolders as (events2 & Hj2 & Hissued2 & Hperm2).
      exists (events1 ++ events2). rewrite report_journal.
      split; [rewrite Hj2, Hj1; simpl; now rewrite <- app_assoc|].
      rewrite issuedCalls_app, completedCalls_app, Hissued1, Hissued2.
      split; [reflexivity|]. now rewrite Hperm1, Hperm2.
    + destruct Hfolders as (events2 & path & rest & Hj2 & _ & _ & Hissued2
                            & _).
      exists (events1 ++ events2
                ++ [Completed (CallDeleteFolder path) (Some error)]).
      split; [rewrite Hj2, Hj1; simpl; now rewrite <- !app_assoc|].
      exists rest. rewrite !issuedCalls_app. simpl.
      rewrite app_nil_r, Hissued1, <- Hissued2. now rewrite <- app_assoc.
  - destruct Hfiles as (events1 & path & rest & Hj1 & _ & _ & Hissued1 & _).
    simpl.
    exists (events1 ++ [Completed (CallDeleteFile path) (Some error)]).
    split; [exact Hj1|].
    exists (rest ++ map CallDeleteFolder (foldersToDelete pathsToDelete)).
    rewrite issuedCalls_app. simpl.
    rewrite app_nil_r, <- Hissued1. now rewrite <- app_assoc.
Qed.
End DeleterJournal.

(** ** A batch of missing targets *)

(** Nothing but the journal has changed. *)
Definition quiet (s0 s : DeleterState) : Prop :=
  disk (world s) = disk (world s0) /\
  terminal (world s) = terminal (world s0) /\
  deletedFiles s = deletedFiles s0 /\
  deletedFolders s = deletedFolders s0.

Section MissingPhase.
Variable concurrency : nat.
Variable begin : string -> DeleterState -> DeleterState * string.
Variable settle : string -> DeleterState -> option Error * DeleterState.

Hypothesis begin_quiet : forall path s,
  (begin path s).2 = path /\ quiet s (begin path s).1.

Hypothesis settle_missing : forall path s,
  entries (disk (world s)) !! path = None ->
  (settle path s).1 = None /\ quiet s (settle path s).2.

Lemma quiet_trans s0 s1 s2 : quiet s0 s1 -> quiet s1 s2 -> quiet s0 s2.
Proof.
  unfold quiet. intros (? & ? & ? & ?) (? & ? & ? & ?).
  repeat split; congruence.
Qed.

(** When no path of the batch exists, the phase resolves under every
    schedule and has changed nothing but the journal. *)
Lemma missingPhase schedule paths s0 :
  (forall p, p ∈ paths -> entries (disk (world s0)) !! p = None) ->
  exists s,
    forEachAsync concurrency begin settle schedule paths s0 = Resolved s /\
    quiet s0 s.
Proof.
  intros Hmissing.
  pose proof (forEachAsync_invariant concurrency begin settle
                (fun queue inflight s =>
                   (forall p, p ∈ inflight ++ queue -> p ∈ paths) /\
                   quiet s0 s)) as Hinv.
  assert (forall queue inflight s i op,
             (forall p, p ∈ inflight ++ queue -> p ∈ paths) /\ quiet s0 s ->
             inflight !! i = Some op ->
             entries (disk (world s)) !! op = None) as Hgone.
  { intros queue inflight s i op [Hsub (Hdisk & _)] Hop.
    rewrite Hdisk. apply Hmissing, Hsub, elem_of_app. left.
    eapply list_elem_of_lookup_2, Hop. }
  lapply Hinv; clear Hinv.
  - intros Hinv. lapply Hinv; clear Hinv.
    + intros Hinv. specialize (Hinv schedule paths s0).
      lapply Hinv; clear Hinv.
      * intros Hinv.
        destruct (forEachAsync _ _ _ _ _ _) as [s|error s pending].
        -- exists s. split; [reflexivity|apply Hinv].
        -- destruct Hinv as (queue & inflight & s1 & i & op & HI & Hop
                             & Hset & _).
           destruct (settle_missing op s1 (Hgone _ _ _ _ _ HI Hop))
             as [Hok _].
           rewrite Hset in Hok. discriminate.
      * split; [now intros p Hp|]. unfold quiet. auto.
    + intros queue inflight s i op HI Hop _.
      destruct (settle_missing op s (Hgone _ _ _ _ _ HI Hop)) as [_ Hquiet].
      destruct HI as [Hsub Hq]. split.
      * intros p Hp. apply Hsub. rewrite elem_of_app in *.
        destruct Hp as [Hp|Hp]; [left|now right].
        eapply list_elem_of_delete_inv, Hp.
      * eapply quiet_trans; eassumption.
  - intros x queue inflight s [Hsub Hq] _.
    destruct (begin_quiet x s) as [-> Hquiet].
    split; [now rewrite <- app_assoc|].
    eapply quiet_trans; eassumption.
Qed.
End MissingPhase.

Section DeleterMissing.
Variable maxParallelism : nat.

(** X6. A batch none of whose paths exists: under every schedule the
    deleter returns, with both counters at zero, the disk as it was, and
    the terminal as it was: no verbose line and no summary line. *)
Theorem X6_batch_of_missing_targets schedules pathsToDelete w :
  (forall p,
      p ∈ filesToDelete pathsToDelete \/ p ∈ foldersToDelete pathsToDelete ->
      entries (disk w) !! p = None) ->
  exists s,
    _deleteFilesInnerAsync maxParallelism schedules pathsToDelete w =
      Returned s /\
    deletedFiles s = 0%Z /\
    deletedFolders s = 0%Z /\
    disk (world s) = disk w /\
    terminal (world s) = terminal w.
Proof.
  intros Hmissing. unfold _deleteFilesInnerAsync.
  set (s0 := {| world := w; deletedFiles := 0%Z; deletedFolders := 0%Z |}).
  destruct (missingPhase maxParallelism deleteFileBegin deleteFileSettle
              ltac:(intros; unfold quiet; simpl; auto)) with
    (schedule := schedules.1) (paths := filesToDelete pathsToDelete)
    (s0 := s0) as (s1 & -> & Hd1 & Ht1 & Hf1 & Hg1).
  { intros path s Hnone. unfold deleteFileSettle, quiet.
    rewrite (deleteFileAsync_missing _ _ Hnone). simpl. auto. }
  { intros p Hp. apply Hmissing. now left. }
  destruct (missingPhase maxParallelism deleteFolderBegin deleteFolderSettle
              ltac:(intros; unfold quiet; simpl; auto)) with
    (schedule := schedules.2) (paths := foldersToDelete pathsToDelete)
    (s0 := s1) as (s2 & -> & Hd2 & Ht2 & Hf2 & Hg2).
  { intros path s Hnone. unfold deleteFolderSettle, quiet.
    rewrite (deleteFolderAsync_missing _ _ Hnone). simpl. auto. }
  { intros p Hp. rewrite Hd1. apply Hmissing. now right. }
  simpl in *. exists s2. unfold report.
  rewrite Hf2, Hg2, Hf1, Hg1. simpl.
  repeat split; congruence.
Qed.
End DeleterMissing.

Lemma X6_batch_of_missing_targets_witness :
  let batch :=
    {| filesToDelete := [Scenario.a_txt; Scenario.b_txt];
       foldersToDelete := ["/proj/dist"] |} in
  let w := Scenario.fresh Scenario.lockedProject in
  (forall p,
      p ∈ filesToDelete batch \/ p ∈ foldersToDelete batch ->
      entries (disk w) !! p = None) /\
  exists s,
    _deleteFilesInnerAsync 3 ([1; 0], [0]) batch w = Returned s /\
    deletedFiles s = 0%Z /\ deletedFolders s = 0%Z /\
    terminal (world s) = [].
Proof.
  intros batch w.
  assert (forall p,
             p ∈ filesToDelete batch \/ p ∈ foldersToDelete batch ->
             entries (disk w) !! p = None) as Hmissing.
  { simpl. intros p Hp. rewrite !elem_of_cons, !elem_of_nil in Hp.
    destruct Hp as [[->|[->|[]]]|[->|[]]]; reflexivity. }
  split; [exact Hmissing|].
  destruct (X6_batch_of_missing_targets 3 ([1; 0], [0]) batch w Hmissing)
    as (s & Hrun & Hfiles & Hfolders & _ & Hterminal).
  exists s. auto.
Defined.

(** ** Bounded concurrency *)

(** At every moment of [events] the calls issued and not yet answered
    are at most [limit]. *)
Definition withinLimit (limit : Z) (events : list FsEvent) : Prop :=
  forall earlier later,
    events = earlier ++ later -> (0 <= outstanding earlier <= limit)%Z.

Lemma outstanding_app e1 e2 :
  outstanding (e1 ++ e2) = (outstanding e1 + outstanding e2)%Z.
Proof.
  unfold outstanding. rewrite issuedCalls_app, completedCalls_app.
  rewrite !length_app. lia.
Qed.

Lemma withinLimit_nil limit : (0 <= limit)%Z -> withinLimit limit [].
Proof.
  intros Hlimit earlier later Heq. symmetry in Heq.
  apply app_eq_nil in Heq as [-> _]. unfold outstanding. simpl. lia.
Qed.

Lemma withinLimit_snoc limit events event :
  withinLimit limit events ->
  (0 <= outstanding (events ++ [event]) <= limit)%Z ->
  withinLimit limit (events ++ [event]).
Proof.
  intros Hwithin Hnow earlier later Heq. symmetry in Heq.
  apply app_eq_inv in Heq as [(k & -> & Hk)|(k & -> & _)].
  - destruct k as [|e k].
    + rewrite app_nil_r. apply (Hwithin events []). now rewrite app_nil_r.
    + injection Hk as <- Hk. symmetry in Hk.
      apply app_eq_nil in Hk as [-> _]. exact Hnow.
  - now apply (Hwithin earlier k).
Qed.

Lemma withinLimit_app limit events1 events2 :
  withinLimit limit events1 ->
  outstanding events1 = 0%Z ->
  withinLimit limit events2 ->
  withinLimit limit (events1 ++ events2).
Proof.
  intros Hfirst Hdone Hsecond earlier later Heq. symmetry in Heq.
  apply app_eq_inv in Heq as [(k & -> & Hk)|(k & -> & _)].
  - rewrite outstanding_app, Hdone. simpl. now apply (Hsecond k later).
  - now apply (Hfirst earlier k).
Qed.

Section BoundedPhase.
Variable concurrency : nat.
Variable begin : string -> DeleterState -> DeleterState * string.
Variable settle : string -> DeleterState -> option Error * DeleterState.
Variable call : string -> FsCall.

Hypothesis concurrency_positive : 0 < concurrency.

Hypothesis begin_journal : forall path s,
  journal (world (begin path s).1) =
    journal (world s) ++ [Issued (call path)].

Hypothesis settle_journal : forall path s,
  exists failure,
    journal (world (settle path s).2) =
      journal (world s) ++ [Completed (call path) failure].

Definition boundedInv (s0 : DeleterState) (queue inflight : list string)
    (s : DeleterState) : Prop :=
  exists events,
    journal (world s) = journal (world s0) ++ events /\
    outstanding events = Z.of_nat (length inflight) /\
    withinLimit (Z.of_nat concurrency) events.

Lemma boundedInv_settle s0 queue inflight s i op :
  boundedInv s0 queue inflight s ->
  inflight !! i = Some op ->
  boundedInv s0 queue (delete i inflight) (settle op s).2.
Proof.
  intros (events & Hj & Hout & Hwithin) Hop.
  destruct (settle_journal op s) as [failure Hjournal].
  apply lookup_lt_Some in Hop as Hlt.
  pose proof (Hwithin events [] ltac:(now rewrite app_nil_r)) as Hnow.
  assert (outstanding (events ++ [Completed (call op) failure]) =
          Z.of_nat (length (delete i inflight))) as Hout'.
  { rewrite outstanding_app, Hout, length_delete by eauto.
    unfold outstanding. simpl. lia. }
  exists (events ++ [Completed (call op) failure]).
  split; [rewrite Hjournal, Hj; now rewrite app_assoc|].
  split; [exact Hout'|].
  apply withinLimit_snoc; [exact Hwithin|].
  rewrite Hout', length_delete by eauto. lia.
Qed.

(** Under every schedule, at every moment of the phase at most
    [concurrency] calls are issued and not answered; when the phase
    resolves none is. *)
Lemma boundedPhase schedule paths s0 :
  let promise := forEachAsync concurrency begin settle schedule paths s0 in
  exists events,
    journal (world (promiseState promise)) = journal (world s0) ++ events /\
    withinLimit (Z.of_nat concurrency) events /\
    match promise with
    | Resolved _ => outstanding events = 0%Z
    | Rejected _ _ _ => True
    end.
Proof.
  intros promise. subst promise.
  pose proof (forEachAsync_invariant concurrency begin settle
                (boundedInv s0)) as Hinv.
  lapply Hinv; clear Hinv.
  - intros Hinv. lapply Hinv; clear Hinv;
      [|intros; now apply boundedInv_settle].
    intros Hinv. specialize (Hinv schedule paths s0).
    lapply Hinv; clear Hinv.
    + intros Hinv.
      destruct (forEachAsync _ _ _ _ _ _) as [s|error s pending]; simpl.
      * destruct Hinv as (events & Hj & Hout & Hwithin).
        exists events. auto.
      * destruct Hinv as (queue & inflight & s1 & i & op & HI & Hop
                          & Hset & _).
        destruct (boundedInv_settle _ _ _ _ _ _ HI Hop)
          as (events & Hj & _ & Hwithin).
        rewrite Hset in Hj. exists events. auto.
    + exists []. rewrite app_nil_r. split; [reflexivity|].
      split; [reflexivity|]. apply withinLimit_nil. lia.
  - intros x queue inflight s (events & Hj & Hout & Hwithin) Hcap.
    unfold hasCapacity in Hcap.
    assert (length inflight < concurrency) as Hroom.
    { apply orb_true_iff in Hcap as [Hzero|Hlt].
      - apply Nat.eqb_eq in Hzero. lia.
      - now apply Nat.ltb_lt in Hlt. }
    assert (outstanding (events ++ [Issued (call x)]) =
            Z.of_nat (length (inflight ++ [(begin x s).2]))) as Hout'.
    { rewrite outstanding_app, Hout, length_app.
      unfold outstanding. simpl. lia. }
    exists (events ++ [Issued (call x)]).
    split; [rewrite begin_journal, Hj; now rewrite app_assoc|].
    split; [exact Hout'|].
    apply withinLimit_snoc; [exact Hwithin|].
    rewrite Hout', length_app. simpl. lia.
Qed.
End BoundedPhase.

Section DeleterBound.
Variable maxParallelism : nat.
Hypothesis maxParallelism_positive : 0 < maxParallelism.

(** X7. With a positive [maxParallelism], at no moment of a run of the
    deleter, under any schedule, are more than [maxParallelism] deletions
    handed to the filesystem and not yet answered, files and folders
    alike. *)
Theorem X7_at_most_maxParallelism_in_flight schedules pathsToDelete w :
  exists events,
    journal (world (finalState
      (_deleteFilesInnerAsync maxParallelism schedules pathsToDelete w))) =
      journal w ++ events /\
    forall earlier later,
      events = earlier ++ later ->
      (0 <= outstanding earlier <= Z.of_nat maxParallelism)%Z.
Proof.
  unfold _deleteFilesInnerAsync.
  set (s0 := {| world := w; deletedFiles := 0%Z; deletedFolders := 0%Z |}).
  destruct (boundedPhase maxParallelism deleteFileBegin deleteFileSettle
              CallDeleteFile maxParallelism_positive
              ltac:(reflexivity) deleteFileSettle_journal
              schedules.1 (filesToDelete pathsToDelete) s0)
    as (events1 & Hj1 & Hwithin1 & Hdone1).
  destruct (forEachAsync _ deleteFileBegin _ _ _ _) as [s1|error s1 pending];
    simpl in Hj1; [|exists events1; split; assumption].
  destruct (boundedPhase maxParallelism deleteFolderBegin deleteFolderSettle
              CallDeleteFolder maxParallelism_positive
              ltac:(reflexivity) deleteFolderSettle_journal
              schedules.2 (foldersToDelete pathsToDelete) s1)
    as (events2 & Hj2 & Hwithin2 & _).
  exists (events1 ++ events2). split.
  - destruct (forEachAsync _ deleteFolderBegin _ _ _ _)
      as [s2|error s2 pending]; simpl in *;
      rewrite ?report_journal, Hj2, Hj1; now rewrite app_assoc.
  - now apply withinLimit_app.
Qed.
End DeleterBound.

Lemma X7_at_most_maxParallelism_in_flight_witness :
  0 < 2 /\
  exists events,
    journal (world (finalState
      (_deleteFilesInnerAsync 2 ([1], []) Scenario.buildPaths
         (Scenario.fresh Scenario.project)))) = events /\
    (0 <= outstanding (take 2 events) <= 2)%Z.
Proof.
  assert (0 < 2) as Hpositive by lia.
  split; [exact Hpositive|].
  destruct (X7_at_most_maxParallelism_in_flight 2 Hpositive ([1], [])
              Scenario.buildPaths (Scenario.fresh Scenario.project))
    as (events & Hj & Hbound).
  exists events. split; [exact Hj|].
  apply (Hbound (take 2 events) (drop 2 events)).
  symmetry. apply take_drop.
Defined.

(** * Further properties of the whole run *)

Section ExistingPhase.
Variable concurrency : nat.
Variable begin : string -> DeleterState -> DeleterState * string.
Variable settle : string -> DeleterState -> option Error * DeleterState.
Variable counter : DeleterState -> Z.

Hypothesis begin_existing : forall path s,
  (begin path s).2 = path /\
  disk (world (begin path s).1) = disk (world s) /\
  counter (begin path s).1 = counter s.

(** A deletion whose target exists and whose callback does not throw
    removes the target and counts it. *)
Hypothesis settle_existing : forall path s,
  is_Some (entries (disk (world s)) !! path) ->
  (settle path s).1 = None ->
  disk (world (settle path s).2) = removeEntry path (disk (world s)) /\
  counter (settle path s).2 = (counter s + 1)%Z.

Definition existingInv (total : nat) (s0 : DeleterState)
    (queue inflight : list string) (s : DeleterState) : Prop :=
  NoDup (inflight ++ queue) /\
  (forall p, p ∈ inflight ++ queue ->
     is_Some (entries (disk (world s)) !! p)) /\
  (counter s + Z.of_nat (length (inflight ++ queue))
   = counter s0 + Z.of_nat total)%Z.

(** When every path of the batch exists and none is listed twice, a
    phase that resolves has counted every path of the batch. *)
Lemma existingPhase schedule paths s0 :
  NoDup paths ->
  (forall p, p ∈ paths -> is_Some (entries (disk (world s0)) !! p)) ->
  match forEachAsync concurrency begin settle schedule paths s0 with
  | Resolved s => counter s = (counter s0 + Z.of_nat (length paths))%Z
  | Rejected _ _ _ => True
  end.
Proof.
  intros Hnodup Hexist.
  pose proof (forEachAsync_invariant concurrency begin settle
                (existingInv (length paths) s0)) as Hinv.
  lapply Hinv; clear Hinv.
  - intros Hinv. lapply Hinv; clear Hinv.
    + intros Hinv. specialize (Hinv schedule paths s0).
      lapply Hinv; clear Hinv.
      * intros Hinv.
        destruct (forEachAsync _ _ _ _ _ _) as [s|error s pending];
          [|exact I].
        destruct Hinv as (_ & _ & Hcount). simpl in Hcount. lia.
      * split; [exact Hnodup|]. split; [exact Hexist|reflexivity].
    + intros queue inflight s i op (Hnd & Hall & Hcount) Hop Hok.
      destruct (delete_lookup_split _ _ _ Hop) as (l1 & l2 & -> & ->).
      destruct (settle_existing op s) as [Hdisk Hcounter]; [|exact Hok|].
      { apply Hall. rewrite !elem_of_app, elem_of_cons. auto. }
      unfold existingInv. rewrite Hdisk, Hcounter.
      rewrite <- !app_assoc in *. simpl in *.
      apply NoDup_app in Hnd as (Hnd1 & Hnot1 & Hnd2).
      apply NoDup_cons in Hnd2 as (Hnot2 & Hnd2).
      assert (forall p, p ∈ l1 ++ l2 ++ queue ->
                p ∈ l1 ++ op :: l2 ++ queue /\ p <> op) as Hother.
      { intros p Hp. rewrite elem_of_app in Hp.
        rewrite elem_of_app, elem_of_cons. split; [tauto|].
        intros ->. destruct Hp as [Hp|Hp]; [|contradiction].
        apply (Hnot1 op Hp). now left. }
      split; [|split].
      * apply NoDup_app. split; [assumption|]. split; [|assumption].
        intros p Hp1 Hp2. apply (Hnot1 p Hp1). now right.
      * intros p Hp. destruct (Hother p Hp) as [Hin Hne].
        rewrite lookup_delete_ne by congruence. now apply Hall.
      * rewrite length_app in *. simpl in *. lia.
  - intros x queue inflight s (Hnd & Hall & Hcount) _.
    destruct (begin_existing x s) as (-> & Hdisk & Hcounter).
    unfold existingInv. rewrite Hdisk, Hcounter, <- app_assoc.
    auto.
Qed.
End ExistingPhase.

Lemma deleteFileSettle_existing path s :
  is_Some (entries (disk (world s)) !! path) ->
  (deleteFileSettle path s).1 = None ->
  disk (world (deleteFileSettle path s).2) =
    removeEntry path (disk (world s)) /\
  deletedFiles (deleteFileSettle path s).2 = (deletedFiles s + 1)%Z.
Proof.
  intros [dirent Hexists].
  pose proof (deleteFileAsync_inv path (disk (world s))) as Hinv.
  settle_file path s; rewrite Hfs in Hinv; simpl.
  - destruct Hinv as (_ & _ & ->). auto.
  - destruct (isNotExistError error); [congruence|discriminate].
Qed.

Lemma deleteFolderSettle_existing path s :
  is_Some (entries (disk (world s)) !! path) ->
  (deleteFolderSettle path s).1 = None ->
  disk (world (deleteFolderSettle path s).2) =
    removeEntry path (disk (world s)) /\
  deletedFolders (deleteFolderSettle path s).2 = (deletedFolders s + 1)%Z.
Proof.
  intros [dirent Hexists].
  pose proof (deleteFolderAsync_inv path (disk (world s))) as Hinv.
  settle_folder path s; rewrite Hfs in Hinv; simpl.
  - destruct Hinv as (_ & _ & _ & ->). auto.
  - destruct (isNotExistError error); [congruence|discriminate].
Qed.

Section DeleterCountsAll.
Variable maxParallelism : nat.

(** A batch of targets that all exist, none listed twice and none in both
    sets: a run that returns has counted every entry of both sets. *)
Lemma deleteFilesInner_counts_all schedules pathsToDelete w s :
  NoDup (filesToDelete pathsToDelete) ->
  NoDup (foldersToDelete pathsToDelete) ->
  (forall p,
      p ∈ filesToDelete pathsToDelete -> p ∉ foldersToDelete pathsToDelete) ->
  (forall p,
      p ∈ filesToDelete pathsToDelete \/ p ∈ foldersToDelete pathsToDelete ->
      is_Some (entries (disk w) !! p)) ->
  _deleteFilesInnerAsync maxParallelism schedules pathsToDelete w =
    Returned s ->
  deletedFiles s = Z.of_nat (length (filesToDelete pathsToDelete)) /\
  deletedFolders s = Z.of_nat (length (foldersToDelete pathsToDelete)).
Proof.
  intros Hndf Hndd Hdisjoint Hexist. unfold _deleteFilesInnerAsync.
  set (s0 := {| world := w; deletedFiles := 0%Z; deletedFolders := 0%Z |}).
  pose proof (existingPhase maxParallelism deleteFileBegin deleteFileSettle
                deletedFiles ltac:(intros; repeat split; reflexivity)
                deleteFileSettle_existing schedules.1
                (filesToDelete pathsToDelete) s0 Hndf) as Hfiles.
  lapply Hfiles; clear Hfiles;
    [intros Hfiles|intros p Hp; apply Hexist; now left].
  pose proof (filePhase_counters maxParallelism schedules.1
                (filesToDelete pathsToDelete) s0) as Hcount1.
  pose proof (removalPhase_disk maxParallelism deleteFileBegin
                deleteFileSettle deleteFileBegin_disk deleteFileSettle_disk
                schedules.1 (filesToDelete pathsToDelete) s0) as Hdisk1.
  simpl in Hdisk1.
  destruct (forEachAsync _ deleteFileBegin _ _ _ _) as [s1|error s1 pending];
    [|discriminate].
  simpl in Hfiles, Hdisk1. destruct Hcount1 as (_ & Hother1).
  destruct Hdisk1 as (Hframe1 & _).
  pose proof (existingPhase maxParallelism deleteFolderBegin
                deleteFolderSettle deletedFolders
                ltac:(intros; repeat split; reflexivity)
                deleteFolderSettle_existing schedules.2
                (foldersToDelete pathsToDelete) s1 Hndd) as Hfolders.
  lapply Hfolders; clear Hfolders.
  - intros Hfolders.
    pose proof (folderPhase_counters maxParallelism schedules.2
                  (foldersToDelete pathsToDelete) s1) as Hcount2.
    destruct (forEachAsync _ deleteFolderBegin _ _ _ _)
      as [s2|error s2 pending]; [|discriminate].
    destruct Hcount2 as (_ & Hother2).
    intros [= <-]. destruct (report_counters s2) as [-> ->].
    simpl in *. split; lia.
  - intros p Hp. rewrite Hframe1.
    + apply Hexist. now right.
    + intros Hin. now apply (Hdisjoint p Hin).
Qed.

(** X8. When every target of the batch exists, no path is listed twice
    and none is in both sets, a run of the deleter that returns has
    deleted everything it was given: [deletedFiles] is the size of
    [filesToDelete], [deletedFolders] the size of [foldersToDelete], and
    no path of the batch is left on the disk. *)
Theorem X8_returned_run_deletes_the_whole_batch
    schedules pathsToDelete w s :
  NoDup (filesToDelete pathsToDelete) ->
  NoDup (foldersToDelete pathsToDelete) ->
  (forall p,
      p ∈ filesToDelete pathsToDelete -> p ∉ foldersToDelete pathsToDelete) ->
  (forall p,
      p ∈ filesToDelete pathsToDelete \/ p ∈ foldersToDelete pathsToDelete ->
      is_Some (entries (disk w) !! p)) ->
  _deleteFilesInnerAsync maxParallelism schedules pathsToDelete w =
    Returned s ->
  deletedFiles s = Z.of_nat (length (filesToDelete pathsToDelete)) /\
  deletedFolders s = Z.of_nat (length (foldersToDelete pathsToDelete)) /\
  forall p,
    p ∈ filesToDelete pathsToDelete \/ p ∈ foldersToDelete pathsToDelete ->
    entries (disk (world s)) !! p = None.
Proof.
  intros Hndf Hndd Hdisjoint Hexist Hrun.
  destruct (deleteFilesInner_counts_all schedules pathsToDelete w s
              Hndf Hndd Hdisjoint Hexist Hrun) as [Hfiles Hfolders].
  split; [exact Hfiles|]. split; [exact Hfolders|].
  pose proof (deleteFilesInner_disk maxParallelism schedules pathsToDelete w)
    as Hdisk.
  rewrite Hrun in Hdisk. simpl in Hdisk. apply Hdisk.
Qed.
End DeleterCountsAll.

Lemma X8_returned_run_deletes_the_whole_batch_witness :
  exists s,
    _deleteFilesInnerAsync 2 ([1], []) Scenario.buildPaths
      (Scenario.fresh Scenario.project) = Returned s /\
    deletedFiles s = 2%Z /\ deletedFolders s = 1%Z /\
    entries (disk (world s)) !! Scenario.build = None.
Proof.
  destruct (_deleteFilesInnerAsync 2 ([1], []) Scenario.buildPaths
              (Scenario.fresh Scenario.project)) as [s|error s] eqn:Hrun;
    [|vm_compute in Hrun; discriminate].
  exists s. split; [reflexivity|].
  destruct (X8_returned_run_deletes_the_whole_batch 2 ([1], [])
              Scenario.buildPaths (Scenario.fresh Scenario.project) s)
    as (Hfiles & Hfolders & Hgone).
  - repeat constructor; rewrite ?elem_of_cons, ?elem_of_nil;
      unfold Scenario.a_txt, Scenario.b_txt; intuition discriminate.
  - repeat constructor. apply not_elem_of_nil.
  - simpl. intros p Hp Hq. apply list_elem_of_singleton in Hq. subst p.
    rewrite !elem_of_cons, elem_of_nil in Hp.
    unfold Scenario.a_txt, Scenario.b_txt, Scenario.build in Hp.
    intuition discriminate.
  - simpl. intros p Hp. rewrite !elem_of_cons, !elem_of_nil in Hp.
    destruct Hp as [[->|[->|[]]]|[->|[]]]; eexists; reflexivity.
  - exact Hrun.
  - split; [exact Hfiles|]. split; [exact Hfolders|].
    apply Hgone. right. now left.
Defined.

Section WholeRun.
Context `{GlobSyntax}.
Variable maxParallelism : nat.
Variable rootFolderPath : string.

(** The two sets the resolver returns are a batch of existing targets,
    none listed twice and none in both sets. *)
Lemma getPathsToDelete_batch schedule deleteOperations heap w s :
  _getPathsToDeleteAsync maxParallelism schedule rootFolderPath
    deleteOperations heap w = Returned s ->
  NoDup (filesToDelete (result s)) /\
  NoDup (foldersToDelete (result s)) /\
  (forall p,
      p ∈ filesToDelete (result s) -> p ∉ foldersToDelete (result s)) /\
  (forall p,
      p ∈ filesToDelete (result s) \/ p ∈ foldersToDelete (result s) ->
      is_Some (entries (disk w) !! p)).
Proof.
  intros Hrun.
  pose proof (getPathsToDelete_sets maxParallelism rootFolderPath schedule
                deleteOperations heap w) as Hsets.
  rewrite Hrun in Hsets. simpl in Hsets.
  destruct Hsets as (Hnf & Hnd & _ & Hfiles & Hfolders).
  split; [exact Hnf|]. split; [exact Hnd|]. split.
  - intros p Hf Hd. apply Hfiles in Hf. apply Hfolders in Hd.
    eapply selectedAs_exclusive; eassumption.
  - intros p [Hp|Hp]; [apply Hfiles in Hp|apply Hfolders in Hp];
      destruct Hp as (options & dirent & _ & Hsel & _);
      apply selection_entries in Hsel; eauto.
Qed.

(** X9. A run of [deleteFilesAsync] removes nothing the selector did not
    report: under every schedule, and whether the run returns or throws,
    a path that no call of the selector reported for the operations of
    the run keeps its entry; no entry is ever created, and the protected
    paths stay the same. *)
Theorem X9_only_selected_paths_are_removed
    schedules deleteOperations heap w :
  let after :=
    disk (world (deletion (finalState
      (deleteFilesAsync maxParallelism schedules rootFolderPath
         deleteOperations heap w)))) in
  let calls :=
    handedOver rootFolderPath
      {| resolverWorld := w; operations := heap;
         result := {| filesToDelete := []; foldersToDelete := [] |} |}
      deleteOperations in
  (forall q,
      ~ selectedAs false calls (disk w) q ->
      ~ selectedAs true calls (disk w) q ->
      entries after !! q = entries (disk w) !! q) /\
  (forall q,
      entries after !! q = None \/ entries after !! q = entries (disk w) !! q) /\
  denied after = denied (disk w).
Proof.
  intros after calls. subst after. unfold deleteFilesAsync.
  pose proof (getPathsToDelete_sets maxParallelism rootFolderPath
                (selections schedules) deleteOperations heap w) as Hsets.
  pose proof (getPathsToDelete_world maxParallelism rootFolderPath
                (selections schedules) deleteOperations heap w) as Hworld.
  destruct (_getPathsToDeleteAsync _ _ _ _ _ _) as [s|error s];
    simpl in Hsets, Hworld; fold calls in Hsets.
  - destruct Hsets as (_ & _ & _ & Hfiles & Hfolders).
    pose proof (deleteFilesInner_frame maxParallelism
                  (fileDeletions schedules, folderDeletions schedules)
                  (result s) (resolverWorld s)) as Hframe.
    simpl in Hframe. rewrite Hworld in Hframe.
    destruct Hframe as (Hframe & Hshrink & Hdenied).
    assert (disk (world (deletion (finalState
              match _deleteFilesInnerAsync maxParallelism
                      (fileDeletions schedules, folderDeletions schedules)
                      (result s) (resolverWorld s) with
              | Returned d =>
                  Returned {| callerOperations := operations s;
                              deletion := d |}
              | Threw error d =>
                  Threw error {| callerOperations := operations s;
                                 deletion := d |}
              end))) =
            disk (world (finalState
              (_deleteFilesInnerAsync maxParallelism
                 (fileDeletions schedules, folderDeletions schedules)
                 (result s) w)))) as ->.
    { rewrite Hworld. now destruct (_deleteFilesInnerAsync _ _ _ _). }
    split; [|split; assumption].
    intros q Hnf Hnd. apply Hframe.
    + intros Hin. now apply Hnf, Hfiles.
    + intros Hin. now apply Hnd, Hfolders.
  - simpl. rewrite Hworld. auto.
Qed.

(** X10. A run of [deleteFilesAsync] that returns has deleted exactly
    what the resolver selected: the resolver returned two sets, the
    counters are the sizes of those sets, and every path of either set
    is gone from the disk. *)
Theorem X10_returned_run_deletes_what_was_selected
    schedules deleteOperations heap w r :
  deleteFilesAsync maxParallelism schedules rootFolderPath
    deleteOperations heap w = Returned r ->
  exists s,
    _getPathsToDeleteAsync maxParallelism (selections schedules)
      rootFolderPath deleteOperations heap w = Returned s /\
    deletedFiles (deletion r) =
      Z.of_nat (length (filesToDelete (result s))) /\
    deletedFolders (deletion r) =
      Z.of_nat (length (foldersToDelete (result s))) /\
    forall p,
      p ∈ filesToDelete (result s) \/ p ∈ foldersToDelete (result s) ->
      entries (disk (world (deletion r))) !! p = None.
Proof.
  unfold deleteFilesAsync.
  pose proof (getPathsToDelete_batch (selections schedules)
                deleteOperations heap w) as Hbatch.
  pose proof (getPathsToDelete_world maxParallelism rootFolderPath
                (selections schedules) deleteOperations heap w) as Hworld.
  destruct (_getPathsToDeleteAsync _ _ _ _ _ _) as [s|error s];
    [|discriminate].
  simpl in Hworld. specialize (Hbatch s eq_refl).
  destruct Hbatch as (Hnf & Hnd & Hdisjoint & Hexist).
  rewrite Hworld.
  pose proof (deleteFilesInner_counts_all maxParallelism
                (fileDeletions schedules, folderDeletions schedules)
                (result s) w) as Hcounts.
  pose proof (deleteFilesInner_disk maxParallelism
                (fileDeletions schedules, folderDeletions schedules)
                (result s) w) as Hdisk.
  destruct (_deleteFilesInnerAsync _ _ _ _) as [d|error d]; [|discriminate].
  intros [= <-]. exists s. split; [reflexivity|]. simpl.
  destruct (Hcounts d Hnf Hnd Hdisjoint Hexist eq_refl) as [Hf Hd].
  split; [exact Hf|]. split; [exact Hd|]. apply Hdisk.
Qed.
End WholeRun.

Lemma locked_not_selected directory :
  ~ @selectedAs Scenario.toyGlob directory
      (handedOver "/proj"
         {| resolverWorld := Scenario.fresh Scenario.project;
            operations := Scenario.callerHeap;
            result := {| filesToDelete := []; foldersToDelete := [] |} |}
         [0])
      Scenario.project Scenario.locked_txt.
Proof.
  intros (options & dirent & Hin & Hsel & _).
  simpl in Hin. apply list_elem_of_singleton in Hin. subst options.
  vm_compute in Hsel.
  repeat (apply elem_of_cons in Hsel as [Hsel|Hsel]; [discriminate|]).
  now apply elem_of_nil in Hsel.
Qed.

Lemma X9_only_selected_paths_are_removed_witness :
  let schedules :=
    {| selections := []; fileDeletions := [1]; folderDeletions := [] |} in
  entries (disk (world (deletion (finalState
    (@deleteFilesAsync Scenario.toyGlob 2 schedules "/proj" [0]
       Scenario.callerHeap (Scenario.fresh Scenario.project))))))
    !! Scenario.locked_txt = Some DirentFile.
Proof.
  intros schedules.
  rewrite (proj1 (@X9_only_selected_paths_are_removed Scenario.toyGlob 2
                    "/proj" schedules [0] Scenario.callerHeap
                    (Scenario.fresh Scenario.project))
             Scenario.locked_txt
             (locked_not_selected false) (locked_not_selected true)).
  reflexivity.
Defined.

Lemma X10_returned_run_deletes_what_was_selected_witness :
  let schedules :=
    {| selections := [1]; fileDeletions := [1]; folderDeletions := [] |} in
  exists r s,
    @deleteFilesAsync Scenario.toyGlob 2 schedules "/proj" [0; 2]
      Scenario.callerHeap (Scenario.fresh Scenario.project) = Returned r /\
    @_getPathsToDeleteAsync Scenario.toyGlob 2 [1] "/proj" [0; 2]
      Scenario.callerHeap (Scenario.fresh Scenario.project) = Returned s /\
    deletedFiles (deletion r) = Z.of_nat (length (filesToDelete (result s))) /\
    deletedFolders (deletion r) =
      Z.of_nat (length (foldersToDelete (result s))).
Proof.
  intros schedules.
  destruct (@deleteFilesAsync Scenario.toyGlob 2 schedules "/proj" [0; 2]
              Scenario.callerHeap (Scenario.fresh Scenario.project))
    as [r|error r] eqn:Hrun; [|vm_compute in Hrun; discriminate].
  destruct (@X10_returned_run_deletes_what_was_selected Scenario.toyGlob 2
              "/proj" schedules [0; 2] Scenario.callerHeap
              (Scenario.fresh Scenario.project) r Hrun)
    as (s & Hresolved & Hfiles & Hfolders & _).
  exists r, s. auto.
Defined.

Section RunErrors.
Context `{GlobSyntax}.
Variable maxParallelism : nat.
Variable rootFolderPath : string.

(** X11. The two kinds of error a run of [deleteFilesAsync] can end
    with.  Either the resolver threw: the error is a selection error and
    the caller's world is untouched.  Or the deleter threw: the resolver
    had returned, and the error is the answer the filesystem gave, last
    in the journal, to the deletion of a path the resolver put in one of
    its sets; it is no missing target, and every answer before it was a
    success or a missing target. *)
Theorem X11_errors_of_a_run schedules deleteOperations heap w :
  match deleteFilesAsync maxParallelism schedules rootFolderPath
          deleteOperations heap w with
  | Returned _ => True
  | Threw error r =>
      ((exists pattern, error = SelectionError pattern) /\
       world (deletion r) = w) \/
      (isNotExistError error = false /\
       exists s events call,
         _getPathsToDeleteAsync maxParallelism (selections schedules)
           rootFolderPath deleteOperations heap w = Returned s /\
         journal (world (deletion r)) =
           journal w ++ events ++ [Completed call (Some error)] /\
         ((exists path, call = CallDeleteFile path /\
                        path ∈ filesToDelete (result s)) \/
          (exists path, call = CallDeleteFolder path /\
                        path ∈ foldersToDelete (result s))) /\
         Forall benign events)
  end.
Proof.
  unfold deleteFilesAsync.
  pose proof (getPathsToDelete_world maxParallelism rootFolderPath
                (selections schedules) deleteOperations heap w) as Hworld.
  destruct (_getPathsToDeleteAsync _ _ _ _ _ _) as [s|error s] eqn:Hresolve;
    simpl in Hworld.
  - pose proof (deleteFilesInner_thrown maxParallelism
                  (fileDeletions schedules, folderDeletions schedules)
                  (result s) (resolverWorld s)) as Hthrown.
    destruct (_deleteFilesInnerAsync _ _ _ _) as [d|error d]; [exact I|].
    destruct Hthrown as (Hkind & events & call & Hj & Hin & Hall).
    right. split; [exact Hkind|]. exists s, events, call.
    split; [reflexivity|]. simpl. rewrite Hworld in Hj.
    split; [exact Hj|]. split; [|exact Hall].
    now apply elem_of_callsOf.
  - left. split; [|exact Hworld].
    eapply getPathsToDelete_throws, Hresolve.
Qed.
End RunErrors.

(** * Further properties of the resolver *)

Section ResolverFurther.
Context `{GlobSyntax}.
Variable maxParallelism : nat.
Variable rootFolderPath : string.

Lemma count_occ_NoDup (l : list nat) ref :
  NoDup l ->
  count_occ Nat.eq_dec l ref = if bool_decide (ref ∈ l) then 1 else 0.
Proof.
  intros Hnd. apply NoDup_ListNoDup in Hnd.
  pose proof (proj1 (NoDup_count_occ Nat.eq_dec l) Hnd ref) as Honce.
  clear Hnd. case_bool_decide as Hin.
  - apply list_elem_of_In, (count_occ_In Nat.eq_dec) in Hin. lia.
  - destruct (count_occ Nat.eq_dec l ref) eqn:Hcount; [reflexivity|].
    exfalso. apply Hin, list_elem_of_In, (count_occ_In Nat.eq_dec). lia.
Qed.

(** X12. When no reference occurs twice among the operations, as when
    they come from a [Set], a run of [deleteFilesAsync] whose resolver
    returns leaves every operation of the run normalized exactly once
    and every other object of the caller as it was; if the resolver
    throws, each operation of the run is either untouched or normalized
    once, and the others are untouched. *)
Theorem X12_set_of_operations_normalized_once
    schedules deleteOperations heap w :
  NoDup deleteOperations ->
  let after :=
    callerOperations (finalState
      (deleteFilesAsync maxParallelism schedules rootFolderPath
         deleteOperations heap w)) in
  match _getPathsToDeleteAsync maxParallelism (selections schedules)
          rootFolderPath deleteOperations heap w with
  | Returned _ =>
      forall ref,
        after ref =
          if bool_decide (ref ∈ deleteOperations)
          then normalized rootFolderPath (heap ref) else heap ref
  | Threw _ _ =>
      forall ref,
        after ref = heap ref \/
        (ref ∈ deleteOperations /\
         after ref = normalized rootFolderPath (heap ref))
  end.
Proof.
  intros Hnd after. subst after. rewrite deleteFiles_callerOperations.
  pose proof (getPathsToDelete_operations maxParallelism rootFolderPath
                (selections schedules) deleteOperations heap w) as Hops.
  destruct (_getPathsToDeleteAsync _ _ _ _ _ _) as [s|error s]; simpl.
  - intros ref. rewrite Hops, (count_occ_NoDup _ _ Hnd).
    now case_bool_decide.
  - intros ref. destruct (Hops ref) as (times & Htimes & ->).
    rewrite (count_occ_NoDup _ _ Hnd) in Htimes.
    case_bool_decide as Hin.
    + destruct times as [|[|times]]; [now left|right; now split|lia].
    + left. now replace times with 0 by lia.
Qed.

(** X13. More operations never select less: when the operations of one
    run are among those of another, reference for reference and as
    often, and the resolver returns for both, on the same objects and the
    same disk, every path in a set of the first is in that set of the
    second. *)
Theorem X13_more_operations_select_more
    schedule schedule' deleteOperations more deleteOperations' heap w s s' :
  Permutation deleteOperations' (deleteOperations ++ more) ->
  _getPathsToDeleteAsync maxParallelism schedule rootFolderPath
    deleteOperations heap w = Returned s ->
  _getPathsToDeleteAsync maxParallelism schedule' rootFolderPath
    deleteOperations' heap w = Returned s' ->
  forall path,
    (path ∈ filesToDelete (result s) ->
     path ∈ filesToDelete (result s')) /\
    (path ∈ foldersToDelete (result s) ->
     path ∈ foldersToDelete (result s')).
Proof.
  intros Hperm Hrun Hrun'.
  pose proof (getPathsToDelete_sets maxParallelism rootFolderPath schedule
                deleteOperations heap w) as Hsets.
  pose proof (getPathsToDelete_sets maxParallelism rootFolderPath schedule'
                deleteOperations' heap w) as Hsets'.
  rewrite Hrun in Hsets. rewrite Hrun' in Hsets'. simpl in Hsets, Hsets'.
  destruct Hsets as (_ & _ & _ & Hfiles & Hfolders).
  destruct Hsets' as (_ & _ & _ & Hfiles' & Hfolders').
  assert (forall options s0,
             options ∈ handedOver rootFolderPath s0 deleteOperations ->
             options ∈ handedOver rootFolderPath s0 deleteOperations')
    as Hsub.
  { intros options s0. rewrite !handedOver_elem.
    intros (ref & times & Htimes & ->). exists ref, times.
    split; [|reflexivity].
    rewrite (Permutation_count_occ Nat.eq_dec) in Hperm.
    rewrite Hperm, count_occ_app. lia. }
  intros path. rewrite Hfiles, Hfiles', Hfolders, Hfolders'.
  split; apply selectedAs_calls; intros options; apply Hsub.
Qed.
End ResolverFurther.

Lemma X12_set_of_operations_normalized_once_witness :
  let schedules :=
    {| selections := [1]; fileDeletions := []; folderDeletions := [] |} in
  let after :=
    callerOperations (finalState
      (@deleteFilesAsync Scenario.toyGlob 2 schedules "/proj" [0; 1]
         Scenario.callerHeap (Scenario.fresh Scenario.project))) in
  NoDup [0; 1] /\
  after 0 = normalized "/proj" Scenario.buildOperation /\
  after 2 = Scenario.overlappingOperation.
Proof.
  intros schedules after.
  assert (NoDup [0; 1]) as Hnd.
  { repeat constructor; rewrite ?elem_of_cons, ?elem_of_nil; lia. }
  split; [exact Hnd|].
  pose proof (@X12_set_of_operations_normalized_once Scenario.toyGlob 2
                "/proj" schedules [0; 1] Scenario.callerHeap
                (Scenario.fresh Scenario.project) Hnd) as Hclaim.
  simpl in Hclaim. fold after in Hclaim.
  destruct (@_getPathsToDeleteAsync Scenario.toyGlob 2 [1] "/proj" [0; 1]
              Scenario.callerHeap (Scenario.fresh Scenario.project))
    as [s|error s] eqn:Hrun; [|vm_compute in Hrun; discriminate].
  split; [apply (Hclaim 0)|apply (Hclaim 2)].
Defined.

Lemma X13_more_operations_select_more_witness :
  exists s s',
    @_getPathsToDeleteAsync Scenario.toyGlob 2 [] "/proj" [2]
      Scenario.callerHeap (Scenario.fresh Scenario.project) = Returned s /\
    @_getPathsToDeleteAsync Scenario.toyGlob 2 [1] "/proj" [0; 2]
      Scenario.callerHeap (Scenario.fresh Scenario.project) = Returned s' /\
    Scenario.a_txt ∈ filesToDelete (result s) /\
    Scenario.a_txt ∈ filesToDelete (result s').
Proof.
  destruct (@_getPathsToDeleteAsync Scenario.toyGlob 2 [] "/proj" [2]
              Scenario.callerHeap (Scenario.fresh Scenario.project))
    as [s|error s] eqn:Hrun; [|vm_compute in Hrun; discriminate].
  destruct (@_getPathsToDeleteAsync Scenario.toyGlob 2 [1] "/proj" [0; 2]
              Scenario.callerHeap (Scenario.fresh Scenario.project))
    as [s'|error s'] eqn:Hrun'; [|vm_compute in Hrun'; discriminate].
  exists s, s'. split; [reflexivity|]. split; [reflexivity|].
  assert (Scenario.a_txt ∈ filesToDelete (result s)) as Hin.
  { vm_compute in Hrun. injection Hrun as <-. simpl. now left. }
  split; [exact Hin|].
  apply (@X13_more_operations_select_more Scenario.toyGlob 2 "/proj"
           [] [1] [2] [0] [0; 2] Scenario.callerHeap
           (Scenario.fresh Scenario.project) s s'); try assumption.
  apply perm_swap.
Defined.

(** * The plugin *)

Lemma elem_of_referenceSetAdd ref set x :
  x ∈ referenceSetAdd ref set <-> x ∈ set \/ x = ref.
Proof.
  unfold referenceSetAdd. case_bool_decide as Hin.
  - split; [now left|]. intros [Hx| ->]; assumption.
  - rewrite elem_of_app, list_elem_of_singleton. reflexivity.
Qed.

Lemma NoDup_referenceSetAdd ref set :
  NoDup set -> NoDup (referenceSetAdd ref set).
Proof.
  intros Hnd. unfold referenceSetAdd. case_bool_decide as Hin; [exact Hnd|].
  apply NoDup_app. split; [exact Hnd|]. split.
  - intros x Hx Hx'. apply list_elem_of_singleton in Hx'. now subst.
  - apply NoDup_singleton.
Qed.

Section TapFacts.
Context {Rest : Type}.

Lemma registerDeleteOperations_elem pluginOptions
    (fileOperations : IHeftTaskFileOperations Rest) ref :
  ref ∈ taskDeleteOperations
          (registerDeleteOperations pluginOptions fileOperations) <->
  ref ∈ taskDeleteOperations fileOperations \/
  ref ∈ optionsDeleteOperations pluginOptions.
Proof.
  unfold registerDeleteOperations.
  destruct pluginOptions as [operations]. simpl.
  revert fileOperations.
  induction operations as [|op rest IH]; intros fileOperations; simpl.
  - rewrite elem_of_nil. tauto.
  - rewrite IH. simpl. rewrite elem_of_referenceSetAdd, elem_of_cons.
    split; intros Hin; intuition.
Qed.

Lemma registerDeleteOperations_NoDup pluginOptions
    (fileOperations : IHeftTaskFileOperations Rest) :
  NoDup (taskDeleteOperations fileOperations) ->
  NoDup (taskDeleteOperations
           (registerDeleteOperations pluginOptions fileOperations)).
Proof.
  unfold registerDeleteOperations.
  destruct pluginOptions as [operations]. simpl.
  revert fileOperations.
  induction operations as [|op rest IH]; intros fileOperations Hnd; simpl.
  - exact Hnd.
  - apply IH. simpl. now apply NoDup_referenceSetAdd.
Qed.

Lemma registerDeleteOperations_extends pluginOptions
    (fileOperations : IHeftTaskFileOperations Rest) :
  exists added,
    taskDeleteOperations
      (registerDeleteOperations pluginOptions fileOperations) =
    taskDeleteOperations fileOperations ++ added /\
    otherOperations (registerDeleteOperations pluginOptions fileOperations) =
    otherOperations fileOperations.
Proof.
  unfold registerDeleteOperations.
  destruct pluginOptions as [operations]. simpl.
  revert fileOperations.
  induction operations as [|op rest IH]; intros fileOperations; simpl.
  - exists []. now rewrite app_nil_r.
  - destruct (IH {| taskDeleteOperations :=
                      referenceSetAdd op (taskDeleteOperations fileOperations);
                    otherOperations := otherOperations fileOperations |})
      as (added & Hset & Hother).
    simpl in Hset, Hother. rewrite Hset, Hother.
    unfold referenceSetAdd. case_bool_decide.
    + exists added. auto.
    + exists (op :: added). now rewrite <- app_assoc.
Qed.

(** Adding operations that are all in the set already changes nothing. *)
Lemma registerDeleteOperations_present pluginOptions
    (fileOperations : IHeftTaskFileOperations Rest) :
  (forall ref, ref ∈ optionsDeleteOperations pluginOptions ->
     ref ∈ taskDeleteOperations fileOperations) ->
  registerDeleteOperations pluginOptions fileOperations = fileOperations.
Proof.
  unfold registerDeleteOperations.
  destruct pluginOptions as [operations]. simpl.
  revert fileOperations.
  induction operations as [|op rest IH]; intros fileOperations Hall; simpl.
  - reflexivity.
  - assert (referenceSetAdd op (taskDeleteOperations fileOperations) =
            taskDeleteOperations fileOperations) as ->.
    { unfold referenceSetAdd. rewrite bool_decide_eq_true_2; [reflexivity|].
      apply Hall. now left. }
    destruct fileOperations as [set other]. simpl in *.
    apply IH. simpl. intros ref Hin. apply Hall. now right.
Qed.

(** X14. The function the plugin taps, on a set without duplicates:
    the set it returns has no duplicates either and holds exactly the
    operations that were in it and the operations of the plugin's
    options; the operations that were in it keep their place at the front
    of the iteration order; and the rest of the file operations object is
    as it was. *)
Theorem X14_tap_adds_the_options_to_the_set pluginOptions
    (fileOperations : IHeftTaskFileOperations Rest) :
  NoDup (taskDeleteOperations fileOperations) ->
  let registered := registerDeleteOperations pluginOptions fileOperations in
  NoDup (taskDeleteOperations registered) /\
  (forall ref,
      ref ∈ taskDeleteOperations registered <->
      ref ∈ taskDeleteOperations fileOperations \/
      ref ∈ optionsDeleteOperations pluginOptions) /\
  (exists added,
      taskDeleteOperations registered =
        taskDeleteOperations fileOperations ++ added) /\
  otherOperations registered = otherOperations fileOperations.
Proof.
  intros Hnd registered. subst registered.
  destruct (registerDeleteOperations_extends pluginOptions fileOperations)
    as (added & Hset & Hother).
  split; [now apply registerDeleteOperations_NoDup|].
  split; [apply registerDeleteOperations_elem|].
  split; [now exists added|exact Hother].
Qed.

(** X15. Tapping is idempotent: the function the plugin taps, run on
    its own result, returns it unchanged, whatever the options and the
    set it started from; so two plugins configured with the same
    options register no more than one. *)
Theorem X15_tap_is_idempotent pluginOptions
    (fileOperations : IHeftTaskFileOperations Rest) :
  registerDeleteOperations pluginOptions
    (registerDeleteOperations pluginOptions fileOperations) =
  registerDeleteOperations pluginOptions fileOperations.
Proof.
  apply registerDeleteOperations_present.
  intros ref Hin. apply registerDeleteOperations_elem. now right.
Qed.

End TapFacts.

Lemma X14_tap_adds_the_options_to_the_set_witness :
  let registered :=
    registerDeleteOperations {| optionsDeleteOperations := [0; 7; 0; 2] |}
      {| taskDeleteOperations := [7]; otherOperations := tt |} in
  NoDup [7] /\
  NoDup (taskDeleteOperations registered) /\
  (2 ∈ taskDeleteOperations registered).
Proof.
  intros registered.
  assert (NoDup [7]) as Hnd by apply NoDup_singleton.
  split; [exact Hnd|].
  destruct (X14_tap_adds_the_options_to_the_set
              {| optionsDeleteOperations := [0; 7; 0; 2] |}
              {| taskDeleteOperations := [7]; otherOperations := tt |} Hnd)
    as (Hregistered & Helem & _).
  split; [exact Hregistered|].
  apply Helem. right. simpl. do 3 right. now left.
Defined.

Section PluginRun.
Context `{GlobSyntax}.
Context {Rest : Type}.
Variable maxParallelism : nat.
Variable rootFolderPath : string.

(** X17. The plugin and the run together: when the operations handed to
    [deleteFilesAsync] are the set the plugin's tap has filled, and the
    resolver returns, every object that was in the set or is listed in
    the plugin's options is left normalized exactly once, however often
    the options list it, and every other object of the caller is left
    as it was. *)
Theorem X17_registered_operations_normalized_once
    schedules pluginOptions (fileOperations : IHeftTaskFileOperations Rest)
    heap w :
  NoDup (taskDeleteOperations fileOperations) ->
  let registered :=
    taskDeleteOperations
      (registerDeleteOperations pluginOptions fileOperations) in
  let after :=
    callerOperations (finalState
      (deleteFilesAsync maxParallelism schedules rootFolderPath
         registered heap w)) in
  match _getPathsToDeleteAsync maxParallelism (selections schedules)
          rootFolderPath registered heap w with
  | Returned _ =>
      forall ref,
        after ref =
          if bool_decide (ref ∈ taskDeleteOperations fileOperations \/
                          ref ∈ optionsDeleteOperations pluginOptions)
          then normalized rootFolderPath (heap ref) else heap ref
  | Threw _ _ => True
  end.
Proof.
  intros Hnd registered after. subst after.
  rewrite deleteFiles_callerOperations.
  pose proof (getPathsToDelete_operations maxParallelism rootFolderPath
                (selections schedules) registered heap w) as Hops.
  assert (NoDup registered) as Hregistered
    by now apply registerDeleteOperations_NoDup.
  destruct (_getPathsToDeleteAsync _ _ _ _ _ _) as [s|error s];
    [|exact I].
  simpl. intros ref.
  rewrite Hops, (count_occ_NoDup _ _ Hregistered).
  unfold registered.
  case_bool_decide as Hin; case_bool_decide as Hin'; try reflexivity;
    exfalso; rewrite registerDeleteOperations_elem in Hin; tauto.
Qed.
End PluginRun.

Lemma X17_registered_operations_normalized_once_witness :
  let schedules :=
    {| selections := [1]; fileDeletions := []; folderDeletions := [] |} in
  let fileOperations :=
    {| taskDeleteOperations := []; otherOperations := tt |} in
  let pluginOptions := {| optionsDeleteOperations := [0; 2; 0] |} in
  let registered :=
    taskDeleteOperations
      (registerDeleteOperations pluginOptions fileOperations) in
  let after :=
    callerOperations (finalState
      (@deleteFilesAsync Scenario.toyGlob 2 schedules "/proj" registered
         Scenario.callerHeap (Scenario.fresh Scenario.project))) in
  NoDup (taskDeleteOperations fileOperations) /\
  after 0 = normalized "/proj" Scenario.buildOperation /\
  after 1 = Scenario.lockedOperation.
Proof.
  intros schedules fileOperations pluginOptions registered after.
  assert (NoDup (taskDeleteOperations fileOperations)) as Hnd
    by apply NoDup_nil_2.
  split; [exact Hnd|].
  pose proof (@X17_registered_operations_normalized_once Scenario.toyGlob
                unit 2 "/proj" schedules pluginOptions fileOperations
                Scenario.callerHeap (Scenario.fresh Scenario.project) Hnd)
    as Hclaim.
  cbv zeta in Hclaim.
  match type of Hclaim with
  | match ?run with _ => _ end =>
      destruct run as [s|error s] eqn:Hrun;
        [|vm_compute in Hrun; discriminate]
  end.
  split; [apply (Hclaim 0)|apply (Hclaim 1)].
Defined.

Section ResolverErrors.
Context `{GlobSyntax}.
Variable maxParallelism : nat.
Variable rootFolderPath : string.

(** X18. The resolver returns exactly when the selector answers for
    every operation of the run, each taken as its callback hands it
    over, in iteration order; when it throws, what it throws is,
    unchanged, the selector's error for one of them.  So whether the
    resolver returns or throws does not depend on the schedule nor on the
    concurrency bound. *)
Theorem X18_resolver_throws_the_selector_error
    schedule deleteOperations heap w :
  let calls :=
    handedOver rootFolderPath
      {| resolverWorld := w; operations := heap;
         result := {| filesToDelete := []; foldersToDelete := [] |} |}
      deleteOperations in
  let run bound order :=
    _getPathsToDeleteAsync bound order rootFolderPath
      deleteOperations heap w in
  ((exists s, run maxParallelism schedule = Returned s) <->
   forall options,
     options ∈ calls ->
     exists sourcePaths,
       getFileSelectionSpecifierPathsAsync options (disk w) =
         inr sourcePaths) /\
  (forall error s,
      run maxParallelism schedule = Threw error s ->
      exists options,
        options ∈ calls /\
        getFileSelectionSpecifierPathsAsync options (disk w) = inl error) /\
  (forall maxParallelism' schedule',
      (exists s, run maxParallelism schedule = Returned s) <->
      (exists s', run maxParallelism' schedule' = Returned s')).
Proof.
  intros calls run.
  assert (forall bound order,
             (exists s, run bound order = Returned s) <->
             forall options,
               options ∈ calls ->
               exists sourcePaths,
                 getFileSelectionSpecifierPathsAsync options (disk w) =
                   inr sourcePaths) as Hreturns.
  { intros bound order. subst run. cbv beta.
    pose proof (getPathsToDelete_sets bound rootFolderPath order
                  deleteOperations heap w) as Hsets.
    destruct (_getPathsToDeleteAsync _ _ _ _ _ _) as [s|error s];
      simpl in Hsets; fold calls in Hsets.
    - destruct Hsets as (_ & _ & Hok & _). split; [intros _; exact Hok|eauto].
    - destruct Hsets as (options & Hin & Hfails). split.
      + intros (s' & Hs'). discriminate.
      + intros Hok. destruct (Hok options Hin) as (sourcePaths & Hanswer).
        congruence. }
  split; [apply Hreturns|]. split.
  - intros error s Hrun. subst run. cbv beta in Hrun.
    pose proof (getPathsToDelete_sets maxParallelism rootFolderPath schedule
                  deleteOperations heap w) as Hsets.
    rewrite Hrun in Hsets. exact Hsets.
  - intros maxParallelism' schedule'.
    rewrite (Hreturns maxParallelism schedule).
    now rewrite (Hreturns maxParallelism' schedule').
Qed.
End ResolverErrors.

Lemma X18_resolver_throws_the_selector_error_witness :
  exists r,
    @_getPathsToDeleteAsync Scenario.toyGlob 2 [1] "/proj" [0; 3]
      Scenario.callerHeap (Scenario.fresh Scenario.project) =
    Threw (SelectionError "/proj/*.[") r /\
    (exists options,
      @getFileSelectionSpecifierPathsAsync Scenario.toyGlob options
        Scenario.project = inl (SelectionError "/proj/*.[")) /\
    ~ exists s',
        @_getPathsToDeleteAsync Scenario.toyGlob 1 [] "/proj" [0; 3]
          Scenario.callerHeap (Scenario.fresh Scenario.project) =
        Returned s'.
Proof.
  destruct (@X18_resolver_throws_the_selector_error Scenario.toyGlob 2
              "/proj" [1] [0; 3] Scenario.callerHeap
              (Scenario.fresh Scenario.project))
    as (_ & Hthrows & Hsame).
  cbv beta in Hthrows, Hsame.
  destruct (@_getPathsToDeleteAsync Scenario.toyGlob 2 [1] "/proj" [0; 3]
              Scenario.callerHeap (Scenario.fresh Scenario.project))
    as [s|error s] eqn:Hrun; [vm_compute in Hrun; discriminate|].
  assert (error = SelectionError "/proj/*.[") as ->.
  { vm_compute in Hrun. now injection Hrun as <- _. }
  exists s. split; [reflexivity|]. split.
  - destruct (Hthrows _ s eq_refl) as (options & _ & Hfails).
    now exists options.
  - intros Hreturned. apply (Hsame 1 []) in Hreturned as (s' & Hs').
    discriminate.
Defined.

(** * The outcome of a run that returns *)

Section ReturnedRun.
Variable maxParallelism : nat.

Lemma filePhase_accounted schedule files s0 :
  accounted (promiseState
    (forEachAsync maxParallelism deleteFileBegin deleteFileSettle
       schedule files s0)) = accounted s0.
Proof.
  apply (forEachAsync_preserved maxParallelism deleteFileBegin
           deleteFileSettle (fun s => accounted s = accounted s0)).
  - now intros x s.
  - intros op s. now rewrite deleteFileSettle_accounted.
  - reflexivity.
Qed.

Lemma folderPhase_accounted schedule folders s0 :
  accounted (promiseState
    (forEachAsync maxParallelism deleteFolderBegin deleteFolderSettle
       schedule folders s0)) = accounted s0.
Proof.
  apply (forEachAsync_preserved maxParallelism deleteFolderBegin
           deleteFolderSettle (fun s => accounted s = accounted s0)).
  - now intros x s.
  - intros op s. now rewrite deleteFolderSettle_accounted.
  - reflexivity.
Qed.

(** The disk between the two phases and after them, and what each
    counter has counted, for a run that returns. *)
Lemma deleteFilesInner_returned schedules pathsToDelete w s :
  _deleteFilesInnerAsync maxParallelism schedules pathsToDelete w =
    Returned s ->
  exists between : gmap string Dirent,
    (forall q,
        between !! q =
          if bool_decide (q ∈ filesToDelete pathsToDelete) then None
          else entries (disk w) !! q) /\
    (forall q,
        entries (disk (world s)) !! q =
          if bool_decide (q ∈ foldersToDelete pathsToDelete) then None
          else between !! q) /\
    Z.of_nat (size (entries (disk w))) =
      (Z.of_nat (size between) + deletedFiles s)%Z /\
    Z.of_nat (size between) =
      (Z.of_nat (size (entries (disk (world s)))) + deletedFolders s)%Z /\
    denied (disk (world s)) = denied (disk w).
Proof.
  unfold _deleteFilesInnerAsync.
  set (s0 := {| world := w; deletedFiles := 0%Z; deletedFolders := 0%Z |}).
  pose proof (removalPhase_disk maxParallelism deleteFileBegin
                deleteFileSettle deleteFileBegin_disk deleteFileSettle_disk
                schedules.1 (filesToDelete pathsToDelete) s0) as Hdisk1.
  pose proof (filePhase_counters maxParallelism schedules.1
                (filesToDelete pathsToDelete) s0) as Hcount1.
  pose proof (filePhase_accounted schedules.1 (filesToDelete pathsToDelete)
                s0) as Hacc1.
  simpl in Hdisk1.
  destruct (forEachAsync _ deleteFileBegin _ _ _ _) as [s1|error s1 pending];
    [|discriminate].
  simpl in Hdisk1, Hacc1.
  destruct Hdisk1 as (Hframe1 & _ & Hdenied1 & Hgone1).
  destruct Hcount1 as (_ & Hother1).
  pose proof (removalPhase_disk maxParallelism deleteFolderBegin
                deleteFolderSettle deleteFolderBegin_disk
                deleteFolderSettle_disk
                schedules.2 (foldersToDelete pathsToDelete) s1) as Hdisk2.
  pose proof (folderPhase_counters maxParallelism schedules.2
                (foldersToDelete pathsToDelete) s1) as Hcount2.
  pose proof (folderPhase_accounted schedules.2
                (foldersToDelete pathsToDelete) s1) as Hacc2.
  simpl in Hdisk2.
  destruct (forEachAsync _ deleteFolderBegin _ _ _ _)
    as [s2|error s2 pending]; [|discriminate].
  simpl in Hdisk2, Hacc2.
  destruct Hdisk2 as (Hframe2 & _ & Hdenied2 & Hgone2).
  destruct Hcount2 as (_ & Hother2).
  intros [= <-]. exists (entries (disk (world s1))).
  destruct (report_counters s2) as [Hrf Hrd].
  rewrite report_disk, Hrf, Hrd.
  unfold accounted in *. simpl in *.
  split; [|split; [|split; [lia|split; [lia|congruence]]]].
  - intros q. case_bool_decide; [now apply Hgone1|now apply Hframe1].
  - intros q. case_bool_decide; [now apply Hgone2|now apply Hframe2].
Qed.

End ReturnedRun.

Lemma FileSystem_eq fs fs' :
  entries fs = entries fs' -> denied fs = denied fs' -> fs = fs'.
Proof. destruct fs, fs'. simpl. now intros -> ->. Qed.

(** X19. The outcome of a run of the deleter that returns does not
    depend on how it was scheduled, on the concurrency bound, nor on the
    iteration order of the two sets: two runs from the same world, on
    batches with the same files and the same folders, that both return,
    end with the same counters, the same disk and the same lines in
    the log. *)
Theorem X19_returned_outcome_is_determined
    maxParallelism maxParallelism' schedules schedules'
    pathsToDelete pathsToDelete' w s s' :
  (forall p,
      p ∈ filesToDelete pathsToDelete <-> p ∈ filesToDelete pathsToDelete') ->
  (forall p,
      p ∈ foldersToDelete pathsToDelete <->
      p ∈ foldersToDelete pathsToDelete') ->
  _deleteFilesInnerAsync maxParallelism schedules pathsToDelete w =
    Returned s ->
  _deleteFilesInnerAsync maxParallelism' schedules' pathsToDelete' w =
    Returned s' ->
  deletedFiles s = deletedFiles s' /\
  deletedFolders s = deletedFolders s' /\
  disk (world s) = disk (world s') /\
  logLines (terminal (world s)) = logLines (terminal (world s')).
Proof.
  intros Hfiles Hfolders Hrun Hrun'.
  destruct (deleteFilesInner_returned _ _ _ _ _ Hrun)
    as (between & Hbetween & Hafter & Hcount1 & Hcount2 & Hdenied).
  destruct (deleteFilesInner_returned _ _ _ _ _ Hrun')
    as (between' & Hbetween' & Hafter' & Hcount1' & Hcount2' & Hdenied').
  assert (between = between') as <-.
  { apply map_eq. intros q. rewrite Hbetween, Hbetween'.
    now rewrite (bool_decide_ext _ _ (Hfiles q)). }
  assert (entries (disk (world s)) = entries (disk (world s'))) as Hentries.
  { apply map_eq. intros q. rewrite Hafter, Hafter'.
    now rewrite (bool_decide_ext _ _ (Hfolders q)). }
  assert (deletedFiles s = deletedFiles s') as Hf by lia.
  assert (deletedFolders s = deletedFolders s') as Hd
    by (rewrite Hentries in Hcount2; lia).
  split; [exact Hf|]. split; [exact Hd|].
  split; [apply FileSystem_eq; congruence|].
  pose proof (deleteFilesInner_logLines maxParallelism schedules
                pathsToDelete w) as Hlog.
  pose proof (deleteFilesInner_logLines maxParallelism' schedules'
                pathsToDelete' w) as Hlog'.
  rewrite Hrun in Hlog. rewrite Hrun' in Hlog'.
  now rewrite Hlog, Hlog', Hf, Hd.
Qed.

Lemma X19_returned_outcome_is_determined_witness :
  let swapped :=
    {| filesToDelete := [Scenario.b_txt; Scenario.a_txt];
       foldersToDelete := [Scenario.build] |} in
  exists s s',
    _deleteFilesInnerAsync 2 ([1], []) Scenario.buildPaths
      (Scenario.fresh Scenario.project) = Returned s /\
    _deleteFilesInnerAsync 1 ([], []) swapped
      (Scenario.fresh Scenario.project) = Returned s' /\
    deletedFiles s = deletedFiles s' /\
    deletedFolders s = deletedFolders s' /\
    disk (world s) = disk (world s').
Proof.
  intros swapped.
  destruct (_deleteFilesInnerAsync 2 ([1], []) Scenario.buildPaths
              (Scenario.fresh Scenario.project)) as [s|error s] eqn:Hrun;
    [|vm_compute in Hrun; discriminate].
  destruct (_deleteFilesInnerAsync 1 ([], []) swapped
              (Scenario.fresh Scenario.project)) as [s'|error s'] eqn:Hrun';
    [|vm_compute in Hrun'; discriminate].
  exists s, s'. split; [reflexivity|]. split; [reflexivity|].
  destruct (X19_returned_outcome_is_determined 2 1 ([1], []) ([], [])
              Scenario.buildPaths swapped (Scenario.fresh Scenario.project)
              s s') as (Hfiles & Hfolders & Hdisk & _).
  - intros p. simpl. rewrite !elem_of_cons, elem_of_nil. tauto.
  - intros p. reflexivity.
  - exact Hrun.
  - exact Hrun'.
  - auto.
Defined.
